(* ===================================================================== *)
(* segmenter.py (SI-PLCA music structure segmentation): a shallow         *)
(* embedding of the post-processing and driver code, and its properties.  *)
(* ===================================================================== *)

From Stdlib Require Import ZArith Lia Bool Ascii.
From Stdlib Require Import Floats.PrimFloat Numbers.Cyclic.Int63.Uint63.
From stdpp Require Import base option list numbers strings pretty.

Local Open Scope Z_scope.

(* --------------------------------------------------------------------- *)
(* NumPy / Python primitives used by segmenter.py                         *)
(* --------------------------------------------------------------------- *)
(* One-dimensional integer arrays are [list Z]; indices are [Z] because
   the code relies on Python's treatment of negative indices.  A raised
   IndexError / ValueError is [None]. *)

Module Np.

(** [a[i]] for a sequence of length n: valid for -n <= i < n, a negative
    index counting from the end; anything else raises IndexError. *)
Definition getitem {A : Type} (l : list A) (i : Z) : option A :=
  let n := Z.of_nat (length l) in
  if (0 <=? i) && (i <? n) then l !! Z.to_nat i
  else if (- n <=? i) && (i <? 0) then l !! Z.to_nat (n + i)
  else None.

(** Normalisation of one slice bound against a length n. *)
Definition slice_bound (n i : Z) : Z :=
  if i <? 0 then Z.max 0 (n + i) else Z.min i n.

(** [a[start:stop] = v] with a scalar v: every position of the (possibly
    empty) slice receives v, the length never changes. *)
Definition setslice {A : Type} (l : list A) (start stop : Z) (v : A) : list A :=
  let n := Z.of_nat (length l) in
  let lo := Z.to_nat (slice_bound n start) in
  let hi := Z.to_nat (slice_bound n stop) in
  if (lo <? hi)%nat
  then take lo l ++ replicate (hi - lo)%nat v ++ drop hi l
  else l.

(** [np.diff(a)] : a[1:] - a[:-1].  The arrays are int64 in the code;
    the differences are only tested for being non-zero (equal entries or
    not, with or without wrap-around) or are differences of frame
    indices, so they are taken in [Z]. *)
Fixpoint diff (l : list Z) : list Z :=
  match l with
  | a :: (b :: _) as t => (b - a) :: diff t
  | _ => []
  end.

(** Indices (counted from [i]) of the true entries, ascending. *)
Fixpoint nonzero_from (i : Z) (l : list bool) : list Z :=
  match l with
  | [] => []
  | b :: t => if b then i :: nonzero_from (i + 1) t else nonzero_from (i + 1) t
  end.

(** [np.nonzero(a)[0]] for a boolean array. *)
Definition nonzero_bool (l : list bool) : list Z := nonzero_from 0 l.

(** [np.nonzero(a)[0]] for an integer array. *)
Definition nonzero (l : list Z) : list Z :=
  nonzero_bool (map (fun x => negb (x =? 0)) l).

(** [a.max()] for an integer array; ValueError when it is empty. *)
Definition max_int (l : list Z) : option Z :=
  match l with
  | [] => None
  | x :: r => Some (foldl Z.max x r)
  end.

(** [a[:-1]] and [a[1:]]. *)
Definition but_last {A : Type} (l : list A) : list A := take (length l - 1) l.
Definition from_1 {A : Type} (l : list A) : list A := tail l.

(** [a[idx]] with an index array (fancy indexing). *)
Definition take_indices {A : Type} (l : list A) (idx : list Z) : option (list A) :=
  mapM (getitem l) idx.

End Np.

(* --------------------------------------------------------------------- *)
(* remove_short_segments (segmenter.py, lines 355-377)                    *)
(* --------------------------------------------------------------------- *)

Module Merger.

(** [segment_borders = np.nonzero(np.diff(labels))[0]] *)
Definition segment_borders (labels : list Z) : list Z :=
  Np.nonzero (Np.diff labels).

(** [short_segments_idx =
       np.nonzero(np.diff(segment_borders) < min_segment_length)[0]] *)
Definition short_segments_idx (borders : list Z) (min_segment_length : Z) : list Z :=
  Np.nonzero_bool (map (fun d => d <? min_segment_length) (Np.diff borders)).

(** One iteration of the [for idx in short_segments_idx] loop, on the
    current contents of the label array.  The two [try/except IndexError]
    blocks are kept as written. *)
Definition merge_step (borders : list Z) (labels : list Z) (idx : Z)
  : option (list Z) :=
  start ← Np.getitem borders idx;
  let end_ :=
    match Np.getitem borders (idx + 1) with
    | Some b => b + 1
    | None => Z.of_nat (length labels)
    end in
  label ← match Np.getitem labels (start - 1) with
          | Some v => Some v
          | None => Np.getitem labels end_
          end;
  Some (Np.setslice labels start end_ label).

(** The loop itself: the borders and the list of short spans are computed
    once, the label array is threaded through the iterations. *)
Fixpoint merge_loop (borders : list Z) (labels : list Z) (idxs : list Z)
  : option (list Z) :=
  match idxs with
  | [] => Some labels
  | idx :: rest =>
      labels' ← merge_step borders labels idx;
      merge_loop borders labels' rest
  end.

(** The array is updated in place; the embedding returns its final
    contents ([None]: an exception escaped). *)
Definition remove_short_segments (labels : list Z) (min_segment_length : Z)
  : option (list Z) :=
  let borders := segment_borders labels in
  merge_loop borders labels (short_segments_idx borders min_segment_length).

End Merger.

(** Frame 3 is a run of one frame; it is absorbed together with frame 2,
    the last frame of the run before it. *)
Example remove_short_segments_ex1 :
  Merger.remove_short_segments [0;0;0;1;2;2;2;2] 3 = Some [0;0;0;0;2;2;2;2].
Proof. reflexivity. Qed.

(* --------------------------------------------------------------------- *)
(* Facts about the primitives                                             *)
(* --------------------------------------------------------------------- *)

Section NpFacts.
Context {A : Type}.
Implicit Types (l : list A) (i : Z) (v x : A).

Lemma getitem_Some_lookup l i v :
  Np.getitem l i = Some v → ∃ k : nat, l !! k = Some v.
Proof.
  unfold Np.getitem. intros H.
  destruct ((0 <=? i) && (i <? Z.of_nat (length l))); [by eauto|].
  destruct ((- Z.of_nat (length l) <=? i) && (i <? 0)); [by eauto|done].
Qed.

Lemma getitem_Some_elem l i v : Np.getitem l i = Some v → v ∈ l.
Proof.
  intros [k Hk]%getitem_Some_lookup. apply list_elem_of_lookup; eauto.
Qed.

Lemma getitem_nonneg l i :
  0 ≤ i → Np.getitem l i = if i <? Z.of_nat (length l) then l !! Z.to_nat i else None.
Proof.
  intros Hi. unfold Np.getitem.
  assert (H0 : (0 <=? i) = true) by lia. rewrite H0. simpl.
  destruct (i <? Z.of_nat (length l)) eqn:E; [done|].
  assert (H1 : (i <? 0) = false) by lia. rewrite H1.
  by rewrite andb_false_r.
Qed.

Lemma getitem_in_range l i :
  - Z.of_nat (length l) ≤ i < Z.of_nat (length l) → is_Some (Np.getitem l i).
Proof.
  intros Hi. unfold Np.getitem.
  destruct ((0 <=? i) && (i <? Z.of_nat (length l))) eqn:E.
  - apply lookup_lt_is_Some. lia.
  - assert (H1 : (- Z.of_nat (length l) <=? i) && (i <? 0) = true) by lia.
    rewrite H1. apply lookup_lt_is_Some. lia.
Qed.

Lemma getitem_minus_one l :
  l ≠ [] → Np.getitem l (-1) = list.last l.
Proof.
  intros Hl. unfold Np.getitem.
  assert (0 < Z.of_nat (length l)) by (destruct l; [done|simpl; lia]).
  assert (H1 : (0 <=? -1) && (-1 <? Z.of_nat (length l)) = false) by lia.
  assert (H2 : (- Z.of_nat (length l) <=? -1) && (-1 <? 0) = true) by lia.
  rewrite H1, H2, last_lookup. f_equal. lia.
Qed.

Lemma slice_bound_range (n i : Z) : 0 ≤ n → 0 ≤ Np.slice_bound n i ≤ n.
Proof. intros Hn. unfold Np.slice_bound. destruct (Z.ltb_spec i 0); lia. Qed.

Lemma length_setslice l (a b : Z) v : length (Np.setslice l a b v) = length l.
Proof.
  unfold Np.setslice.
  pose proof (slice_bound_range (Z.of_nat (length l)) a ltac:(lia)) as Ha.
  pose proof (slice_bound_range (Z.of_nat (length l)) b ltac:(lia)) as Hb.
  destruct (_ <? _)%nat eqn:E; [|done].
  apply Nat.ltb_lt in E.
  rewrite !length_app, length_take, length_replicate, length_drop. lia.
Qed.

Lemma elem_of_setslice l (a b : Z) v x :
  x ∈ Np.setslice l a b v → x = v ∨ x ∈ l.
Proof.
  unfold Np.setslice.
  destruct (_ <? _)%nat; [|by right].
  rewrite !elem_of_app. intros [H|[H|H]].
  - right. by eapply subseteq_take.
  - left. by eapply elem_of_replicate_inv.
  - right. by eapply subseteq_drop.
Qed.

End NpFacts.

Lemma elem_of_nonzero_from (bs : list bool) (i x : Z) :
  x ∈ Np.nonzero_from i bs ↔ ∃ k : nat, x = i + Z.of_nat k ∧ bs !! k = Some true.
Proof.
  revert i. induction bs as [|b bs IH]; intros i; simpl.
  - split; [by intros ?%elem_of_nil|by intros (k & _ & ?)].
  - assert (Hrest : x ∈ Np.nonzero_from (i + 1) bs ↔
                    ∃ k : nat, x = i + Z.of_nat (S k) ∧ bs !! k = Some true).
    { rewrite IH. split; intros (k & -> & Hk); exists k; (split; [lia|done]). }
    destruct b.
    + rewrite elem_of_cons, Hrest. split.
      * intros [->|(k & -> & Hk)]; [exists 0%nat|exists (S k)]; (split; [lia|done]).
      * intros ([|k] & -> & Hk); [left; lia|right; eauto].
    + rewrite Hrest. split.
      * intros (k & -> & Hk). by exists (S k).
      * intros ([|k] & -> & Hk); [done|eauto].
Qed.

Lemma nonzero_from_adjacent (bs : list bool) (i : Z) l1 a b l2 :
  Np.nonzero_from i bs = l1 ++ a :: b :: l2 →
  ∃ j k : nat, (j < k)%nat ∧ a = i + Z.of_nat j ∧ b = i + Z.of_nat k ∧
               bs !! j = Some true ∧ bs !! k = Some true.
Proof.
  revert i l1. induction bs as [|b0 bs IH]; intros i l1; simpl.
  - by destruct l1.
  - assert (Hrest : ∀ l1', Np.nonzero_from (i + 1) bs = l1' ++ a :: b :: l2 →
      ∃ j k : nat, (j < k)%nat ∧ a = i + Z.of_nat j ∧ b = i + Z.of_nat k ∧
                   (b0 :: bs) !! j = Some true ∧ (b0 :: bs) !! k = Some true).
    { intros l1' (j & k & ? & -> & -> & ? & ?)%IH.
      exists (S j), (S k). repeat split; try done; lia. }
    destruct b0; [|by apply Hrest].
    destruct l1 as [|y l1]; simpl; intros [= <- Heq]; [|by eapply Hrest].
    assert (Hb : b ∈ Np.nonzero_from (i + 1) bs) by (rewrite Heq; left).
    apply elem_of_nonzero_from in Hb as (k & -> & Hk).
    exists 0%nat, (S k). repeat split; try done; lia.
Qed.

Lemma diff_cons2 (a b : Z) (t : list Z) :
  Np.diff (a :: b :: t) = (b - a) :: Np.diff (b :: t).
Proof. reflexivity. Qed.

Lemma lookup_diff (l : list Z) (j : nat) (d : Z) :
  Np.diff l !! j = Some d ↔
  ∃ a b, l !! j = Some a ∧ l !! S j = Some b ∧ d = b - a.
Proof.
  revert j. induction l as [|a l IH]; intros j.
  - split; [done|by intros (? & ? & ? & _)].
  - destruct l as [|b t].
    + split; [done|]. intros (? & ? & _ & H & _). by destruct j.
    + rewrite diff_cons2. destruct j as [|j].
      * simpl. split; [intros [= <-]; eauto|by intros (? & ? & [= <-] & [= <-] & ->)].
      * change (((b - a) :: Np.diff (b :: t)) !! S j) with (Np.diff (b :: t) !! j).
        by rewrite IH.
Qed.

Lemma length_diff (l : list Z) : length (Np.diff l) = pred (length l).
Proof.
  induction l as [|a l IH]; [done|]. destruct l as [|b t]; [done|].
  rewrite diff_cons2. simpl in *. by rewrite IH.
Qed.

Lemma Forall_diff (P : Z → Prop) (l : list Z) :
  (∀ l1 a b l2, l = l1 ++ a :: b :: l2 → P (b - a)) → Forall P (Np.diff l).
Proof.
  induction l as [|a l IH]; intros H; [constructor|].
  destruct l as [|b t]; [constructor|].
  rewrite diff_cons2. constructor.
  - by apply (H [] a b t).
  - apply IH. intros l1 a' b' l2 Heq. apply (H (a :: l1) a' b' l2). by rewrite Heq.
Qed.

Lemma nonzero_from_all_false (i : Z) (bs : list bool) :
  Forall (λ b, b = false) bs → Np.nonzero_from i bs = [].
Proof.
  intros H. revert i. induction H as [|b bs -> _ IH]; intros i; simpl; [done|apply IH].
Qed.

(* --------------------------------------------------------------------- *)
(* remove_short_segments: properties                                      *)
(* --------------------------------------------------------------------- *)

Module MergerSpec.

(** Frame [i] is the final frame of a run: the label changes after it. *)
Definition change_point (labels : list Z) (i : nat) : Prop :=
  ∃ a b, labels !! i = Some a ∧ labels !! S i = Some b ∧ a ≠ b.

(** No two label changes are closer than [min_segment_length] frames:
    no inter-boundary span is shorter than the threshold. *)
Definition compliant (labels : list Z) (min_segment_length : Z) : Prop :=
  ∀ i j : nat, (i < j)%nat → change_point labels i → change_point labels j →
               min_segment_length ≤ Z.of_nat j - Z.of_nat i.

End MergerSpec.

Lemma elem_of_segment_borders (labels : list Z) (b : Z) :
  b ∈ Merger.segment_borders labels ↔
  ∃ k : nat, b = Z.of_nat k ∧ MergerSpec.change_point labels k.
Proof.
  unfold Merger.segment_borders, Np.nonzero, Np.nonzero_bool.
  rewrite elem_of_nonzero_from. unfold MergerSpec.change_point.
  split.
  - intros (k & -> & Hk). exists k. split; [lia|].
    rewrite list_lookup_fmap in Hk.
    destruct (Np.diff labels !! k) as [d|] eqn:Hd; [|done].
    apply lookup_diff in Hd as (x & y & Hx & Hy & ->).
    exists x, y. repeat split; try done.
    simpl in Hk. injection Hk as Hk. intros ->.
    by rewrite Z.sub_diag in Hk.
  - intros (k & -> & x & y & Hx & Hy & Hne). exists k. split; [lia|].
    rewrite list_lookup_fmap.
    assert (Hd : Np.diff labels !! k = Some (y - x))
      by (apply lookup_diff; eauto).
    rewrite Hd. simpl. f_equal.
    destruct (Z.eqb_spec (y - x) 0); [lia|done].
Qed.

Lemma segment_borders_range (labels : list Z) (b : Z) :
  b ∈ Merger.segment_borders labels → 0 ≤ b < Z.of_nat (length labels) - 1.
Proof.
  intros (k & -> & x & y & _ & Hy & _)%elem_of_segment_borders.
  apply lookup_lt_Some in Hy. lia.
Qed.

Lemma short_segments_idx_range (borders : list Z) (m idx : Z) :
  idx ∈ Merger.short_segments_idx borders m →
  0 ≤ idx < Z.of_nat (length borders) - 1.
Proof.
  unfold Merger.short_segments_idx, Np.nonzero_bool.
  intros (k & -> & Hk)%elem_of_nonzero_from.
  apply lookup_lt_Some in Hk.
  rewrite length_map, length_diff in Hk. lia.
Qed.

(** What one loop iteration does when its indices are in range: neither
    [except IndexError] branch is reached, and for [start = 0] the lookup
    [labels[start - 1]] is [labels[-1]], the last frame. *)
Lemma merge_step_in_range (borders labels : list Z) (idx : Z) :
  (∀ b, b ∈ borders → 0 ≤ b < Z.of_nat (length labels) - 1) →
  0 ≤ idx < Z.of_nat (length borders) - 1 →
  ∃ start stop label,
    Np.getitem borders idx = Some start ∧
    Np.getitem borders (idx + 1) = Some stop ∧
    Np.getitem labels (start - 1) = Some label ∧
    Merger.merge_step borders labels idx
      = Some (Np.setslice labels start (stop + 1) label).
Proof.
  intros Hb Hidx. unfold Merger.merge_step.
  destruct (getitem_in_range borders idx) as [start Hs]; [lia|].
  destruct (getitem_in_range borders (idx + 1)) as [stop Ht]; [lia|].
  pose proof (Hb _ (getitem_Some_elem _ _ _ Hs)) as Hstart.
  destruct (getitem_in_range labels (start - 1)) as [label Hl]; [lia|].
  exists start, stop, label. rewrite Hs, Ht. simpl. by rewrite Hl.
Qed.

Lemma merge_loop_total (borders labels0 labels idxs : list Z) :
  (∀ b, b ∈ borders → 0 ≤ b < Z.of_nat (length labels0) - 1) →
  Forall (λ idx, 0 ≤ idx < Z.of_nat (length borders) - 1) idxs →
  length labels = length labels0 →
  (∀ x, x ∈ labels → x ∈ labels0) →
  ∃ out, Merger.merge_loop borders labels idxs = Some out ∧
         length out = length labels0 ∧ ∀ x, x ∈ out → x ∈ labels0.
Proof.
  intros Hb Hidxs. revert labels.
  induction Hidxs as [|idx idxs Hidx _ IH]; intros labels Hlen Hsub; simpl.
  - eauto.
  - destruct (merge_step_in_range borders labels idx)
      as (start & stop & label & _ & _ & Hl & ->); [by rewrite Hlen|done|].
    simpl. apply IH.
    + by rewrite length_setslice.
    + intros x [->|Hx]%elem_of_setslice; [|by apply Hsub].
      apply Hsub. by eapply getitem_Some_elem.
Qed.

Lemma remove_short_segments_total (labels : list Z) (min_segment_length : Z) :
  ∃ out, Merger.remove_short_segments labels min_segment_length = Some out ∧
         length out = length labels ∧
         ∀ x, x ∈ out → x ∈ labels.
Proof.
  unfold Merger.remove_short_segments.
  apply merge_loop_total; [|apply list.Forall_forall|..]; try done.
  - apply segment_borders_range.
  - intros idx. apply short_segments_idx_range.
Qed.

(** C10. For every label array and every [min_segment_length],
    [remove_short_segments] returns (no exception escapes), the array
    keeps its length, and every label value present afterwards was
    already present before: merging never introduces a new label. *)
Theorem remove_short_segments_preserves (labels : list Z) (min_segment_length : Z) :
  ∃ out, Merger.remove_short_segments labels min_segment_length = Some out ∧
         length out = length labels ∧
         ∀ x, x ∈ out → x ∈ labels.
Proof. apply remove_short_segments_total. Qed.

(** C5. A label sequence that is already compliant (no two label changes
    closer than [min_segment_length]) is left unchanged by
    [remove_short_segments]; in particular the result is compliant again,
    so no new sub-threshold run appears. *)
Theorem remove_short_segments_compliant_noop
    (labels : list Z) (min_segment_length : Z) :
  MergerSpec.compliant labels min_segment_length →
  Merger.remove_short_segments labels min_segment_length = Some labels ∧
  ∀ out, Merger.remove_short_segments labels min_segment_length = Some out →
         MergerSpec.compliant out min_segment_length.
Proof.
  intros Hc.
  assert (Hshort : Merger.short_segments_idx
                     (Merger.segment_borders labels) min_segment_length = []).
  { unfold Merger.short_segments_idx, Np.nonzero_bool.
    apply nonzero_from_all_false, Forall_fmap, Forall_diff.
    intros l1 a b l2 Heq. simpl.
    assert (Ha : a ∈ Merger.segment_borders labels)
      by (rewrite Heq, elem_of_app, !elem_of_cons; auto).
    assert (Hb : b ∈ Merger.segment_borders labels)
      by (rewrite Heq, elem_of_app, !elem_of_cons; auto).
    apply elem_of_segment_borders in Ha as (i & Hi & Hci).
    apply elem_of_segment_borders in Hb as (j & Hj & Hcj).
    unfold Merger.segment_borders, Np.nonzero, Np.nonzero_bool in Heq.
    apply nonzero_from_adjacent in Heq as (i' & j' & Hlt & Hi' & Hj' & _).
    assert (i < j)%nat by lia.
    pose proof (Hc i j ltac:(done) Hci Hcj). lia. }
  unfold Merger.remove_short_segments. rewrite Hshort. simpl.
  split; [done|]. by intros out [= <-].
Qed.

(** A compliant input for C5: two label changes, three frames apart. *)
Lemma remove_short_segments_compliant_noop_witness :
  Merger.remove_short_segments [0;0;0;1;1;1;2;2;2] 3 = Some [0;0;0;1;1;1;2;2;2] ∧
  ∀ out, Merger.remove_short_segments [0;0;0;1;1;1;2;2;2] 3 = Some out →
         MergerSpec.compliant out 3.
Proof.
  apply (remove_short_segments_compliant_noop [0;0;0;1;1;1;2;2;2] 3).
  intros i j Hlt (a & b & Ha & Hb & Hab) (c & d & Hc & Hd & Hcd).
  do 9 (destruct i as [|i]; [do 9 (destruct j as [|j]; [simpl in *; try lia; congruence|]); by destruct j|]).
  by destruct i.
Defined.

(** C3. A short span at the very start of the sequence does not take the
    label of the frame after it: [labels[start - 1]] with [start = 0] is
    [labels[-1]], which Python resolves to the last frame without raising
    IndexError, so the [except] branch reading [labels[end]] never runs.
    Here the first span (frames 0..1) is short; the frame after it carries
    label 2, the last frame label 3, and the span receives 3. *)
Theorem remove_short_segments_start_takes_last_label :
  let labels := [0;1;2;2;2;3;3;3;3] in
  Merger.segment_borders labels = [0;1;4] ∧
  Merger.short_segments_idx (Merger.segment_borders labels) 2 = [0] ∧
  Np.getitem labels 2 = Some 2 ∧
  Merger.remove_short_segments labels 2 = Some [3;3;2;2;2;3;3;3;3].
Proof. repeat split. Qed.

(** The same for every array: whenever the first label change is at frame
    0 and that span is processed, the label written is the last frame's. *)
Lemma merge_step_start_zero (borders labels : list Z) (idx : Z) :
  (∀ b, b ∈ borders → 0 ≤ b < Z.of_nat (length labels) - 1) →
  0 ≤ idx < Z.of_nat (length borders) - 1 →
  Np.getitem borders idx = Some 0 →
  ∃ stop label,
    Np.getitem borders (idx + 1) = Some stop ∧
    list.last labels = Some label ∧
    Merger.merge_step borders labels idx
      = Some (Np.setslice labels 0 (stop + 1) label).
Proof.
  intros Hb Hidx H0.
  destruct (merge_step_in_range borders labels idx Hb Hidx)
    as (start & stop & label & Hs & Ht & Hl & Hstep).
  rewrite H0 in Hs. injection Hs as <-.
  exists stop, label. repeat split; try done.
  rewrite <- getitem_minus_one; [done|].
  intros ->. by apply getitem_Some_elem, elem_of_nil in Hl.
Qed.

(* --------------------------------------------------------------------- *)
(* create_sparse_W_prior (segmenter.py, lines 267-280)                    *)
(* --------------------------------------------------------------------- *)
(* The entries are float64, as in the code: Rocq's primitive binary64
   numbers with their IEEE 754 operations.  [slope] is a float (an
   integer slope gives the same entries as long as the products stay
   below 2^53). *)

Module Prior.

(** [np.zeros(n)]: a negative dimension raises ValueError. *)
Definition zeros (n : Z) : option (list float) :=
  if n <? 0 then None else Some (replicate (Z.to_nat n) 0%float).

(** [np.arange(n)]: 0, 1, ..., n-1; empty for n <= 0. *)
Definition arange (n : Z) : list Z := Z.of_nat <$> seq 0 (Z.to_nat n).

(** The float64 value of an entry [k >= 0] of [np.arange(n)] (int64),
    rounded to nearest as numpy's conversion is. *)
Definition of_index (k : Z) : float := PrimFloat.of_uint63 (Uint63.of_Z k).

(** [a[start:] = rhs] for an array right-hand side: the shapes must agree,
    except that a one-element [rhs] is broadcast over the slice; any other
    mismatch raises ValueError. *)
Definition setslice_from (l : list float) (start : Z) (rhs : list float)
  : option (list float) :=
  let lo := Z.to_nat (Np.slice_bound (Z.of_nat (length l)) start) in
  let len := (length l - lo)%nat in
  if (length rhs =? len)%nat then Some (take lo l ++ rhs)
  else match rhs with
       | [x] => Some (take lo l ++ replicate len x)
       | _ => None
       end.

(** [shape] is the pair [(F, win)]: [shape[0]] and [shape[-1]]. *)
Definition create_sparse_W_prior (shape : Z * Z) (cutoff : Z) (slope : float)
  : option (list (list (list float))) :=
  let F := fst shape in
  let win := snd shape in
  prior ← zeros win;
  p0 ← Np.getitem prior 0;
  let rhs := (λ k, (p0 + slope * of_index k)%float) <$> arange (win - cutoff) in
  prior ← setslice_from prior cutoff rhs;
  (* alphaW = np.zeros((F, 1, win)); alphaW[:,:] = prior *)
  if F <? 0 then None else Some (replicate (Z.to_nat F) [prior]).



End Prior.

Example create_sparse_W_prior_ex :
  Prior.create_sparse_W_prior (2, 4) 2 0.5
  = Some [[[0; 0; 0; 0.5]]; [[0; 0; 0; 0.5]]]%float.
Proof. vm_compute. reflexivity. Qed.

(** Rounding is the code's: three times 0.1 is not 0.3. *)
Example create_sparse_W_prior_rounds :
  Prior.create_sparse_W_prior (1, 4) 0 0x1.999999999999ap-4
  = Some [[[0; 0x1.999999999999ap-4; 0x1.999999999999ap-3;
            0x1.3333333333334p-2]]]%float.
Proof. vm_compute. reflexivity. Qed.

Ltac zbool :=
  first [apply Z.ltb_lt | apply Z.ltb_ge | apply Z.leb_le | apply Z.leb_gt]; lia.

Lemma prior_first_entry (win : Z) :
  1 ≤ win → Np.getitem (replicate (Z.to_nat win) 0%float) 0 = Some 0%float.
Proof.
  intros Hwin. rewrite getitem_nonneg, length_replicate by lia.
  assert (Hlt : (0 <? Z.of_nat (Z.to_nat win)) = true) by zbool.
  rewrite Hlt. apply lookup_replicate_2. lia.
Qed.

Lemma prior_ramp_assigned (win cutoff : Z) (slope : float) :
  1 ≤ win → 0 ≤ cutoff →
  Prior.setslice_from (replicate (Z.to_nat win) 0%float) cutoff
    ((λ k, (0 + slope * Prior.of_index k)%float) <$> Prior.arange (win - cutoff))
  = Some (replicate (Z.to_nat (Z.min cutoff win)) 0%float ++
          ((λ k, (0 + slope * Prior.of_index k)%float)
             <$> Prior.arange (win - cutoff))).
Proof.
  intros Hwin Hc. unfold Prior.setslice_from, Prior.arange.
  rewrite !length_fmap, length_seq, length_replicate.
  assert (Hb : Np.slice_bound (Z.of_nat (Z.to_nat win)) cutoff = Z.min cutoff win).
  { unfold Np.slice_bound. destruct (Z.ltb_spec cutoff 0); lia. }
  rewrite Hb.
  assert (Heq : (Z.to_nat (win - cutoff)
                 =? Z.to_nat win - Z.to_nat (Z.min cutoff win))%nat = true)
    by (apply Nat.eqb_eq; lia).
  rewrite Heq, take_replicate. do 3 f_equal. lia.
Qed.




(* --------------------------------------------------------------------- *)
(* Floating-point data                                                    *)
(* --------------------------------------------------------------------- *)
(* Feature values, activations, divergences and scores are float64.  The
   code below only combines and compares them, so their type and
   operations are an interface; no rounding behaviour is assumed. *)

Class FloatOps (A : Type) := {
  fzero : A;
  fone : A;
  feps : A;                      (* np.finfo(float).eps *)
  fadd : A → A → A;
  fsub : A → A → A;
  fmul : A → A → A;
  fdiv : A → A → A;
  flog : A → A;                  (* np.log *)
  fltb : A → A → bool;           (* x < y *)
  fleb : A → A → bool;           (* x <= y *)
  of_int : Z → A                 (* int -> float conversion *)
}.

(** The integers as a stand-in instance, for running the definitions. *)
Definition ZOps : FloatOps Z := {|
  fzero := 0; fone := 1; feps := 0;
  fadd := Z.add; fsub := Z.sub; fmul := Z.mul; fdiv := Z.div;
  flog := Z.log2;
  fltb := Z.ltb; fleb := Z.leb;
  of_int := λ z, z
|}.

Module Arr.
Section Arr.
Context {A : Type} {ops : FloatOps A}.

(** A two-dimensional array of shape [(shape0, T)], kept as its [T]
    columns (frames), each holding [shape0] values. *)
Record Array2 := { shape0 : nat; columns : list (list A) }.

(** A three-dimensional array of shape [(dim0, dim1, dim2)] with entry
    [at3 i j k] at position [(i, j, k)]. *)
Record Array3 := { dim0 : nat; dim1 : nat; dim2 : nat; at3 : nat → nat → nat → A }.

(** [a[:, j]] (equally [np.transpose(a, (1, 0, 2))[j]]): the slice of
    shape [(dim0, dim2)]. *)
Definition slice1 (a : Array3) (j : nat) : Array2 :=
  {| shape0 := dim0 a;
     columns := (λ k, (λ i, at3 a i j k) <$> seq 0 (dim0 a)) <$> seq 0 (dim2 a) |}.

(** [np.sum] of a one-dimensional array: 0.0 when empty, otherwise the
    entries added from the left. *)
Definition sum1 (v : list A) : A :=
  match v with
  | [] => fzero
  | x :: r => foldl fadd x r
  end.

(** [a.sum(0)]: one total per frame. *)
Definition sum_axis0 (a : Array2) : list A := sum1 <$> columns a.

(** [np.argmin(v)]: the first index holding the smallest value; ValueError
    on an empty sequence. *)
Fixpoint argmin_from (best : A) (besti i : nat) (v : list A) : nat :=
  match v with
  | [] => besti
  | x :: r => if fltb x best then argmin_from x i (S i) r
              else argmin_from best besti (S i) r
  end.

Definition argmin (v : list A) : option nat :=
  match v with
  | [] => None
  | x :: r => Some (argmin_from x 0 1 r)
  end.

(** [np.argmax(v)]: the first index holding the largest value. *)
Fixpoint argmax_from (best : A) (besti i : nat) (v : list A) : nat :=
  match v with
  | [] => besti
  | x :: r => if fltb best x then argmax_from x i (S i) r
              else argmax_from best besti (S i) r
  end.

Definition argmax (v : list A) : option nat :=
  match v with
  | [] => None
  | x :: r => Some (argmax_from x 0 1 r)
  end.

(** [np.max(v)]; ValueError on an empty sequence. *)
Definition fmax (x y : A) : A := if fltb x y then y else x.

Definition amax (v : list A) : option A :=
  match v with
  | [] => None
  | x :: r => Some (foldl fmax x r)
  end.

End Arr.
Global Arguments Array2 : clear implicits.
Global Arguments Array3 : clear implicits.
End Arr.

(* --------------------------------------------------------------------- *)
(* segment_song: the decomposition driver (segmenter.py, lines 222-246)   *)
(* --------------------------------------------------------------------- *)
(* [seq] and [kwargs] are the values these lines see, after the frame
   normalisation and the preparation of the keyword arguments.  The
   engine [plca.SIPLCA.analyze] draws from the process-wide random
   generator: it is a function of the generator state and returns the
   next state. *)

Module Driver.
Section Driver.
Context {A : Type} {ops : FloatOps A}.
Context {EngineState Kwargs : Type}.

(** The tuple [(W, Z, H, norm, recon, div)] returned by the engine. *)
Record Decomposition := {
  dW : Arr.Array3 A;
  dZ : list A;
  dH : list (list A);
  dnorm : A;
  drecon : Arr.Array2 A;
  ddiv : A
}.

Variable analyze :
  Arr.Array2 A → Z → Z → Kwargs → EngineState → Decomposition * EngineState.

Variables (seq : Arr.Array2 A) (rank win : Z) (kwargs : Kwargs).
Variables (nrep minsegments : Z).

(** [for n in xrange(nrep): outputs.append(plca.SIPLCA.analyze(...))] *)
Fixpoint run_attempts (n : nat) (s : EngineState)
  : list Decomposition * EngineState :=
  match n with
  | O => ([], s)
  | S k =>
      let (d, s1) := analyze seq rank win kwargs s in
      let (ds, s2) := run_attempts k s1 in
      (d :: ds, s2)
  end.

(** [div = [x[-1] for x in outputs]; outputs[np.argmin(div)]] *)
Definition select_best (outputs : list Decomposition) : option Decomposition :=
  i ← Arr.argmin (ddiv <$> outputs); outputs !! i.

(** One analysis: [nrep] attempts and the choice among them (lines
    222-226, and again 240-245 inside the retry loop). *)
Definition analysis_round (s : EngineState) : option (Decomposition * EngineState) :=
  let (outputs, s') := run_attempts (Z.to_nat nrep) s in
  d ← select_best outputs; Some (d, s').

(** [np.sum(a.sum(0) <= lowen)] *)
Definition count_lowen (a : Arr.Array2 A) (lowen : A) : Z :=
  Z.of_nat (length (filter (λ x, fleb x lowen = true) (Arr.sum_axis0 a))).

(** [lowen = seq.shape[0] * np.finfo(float).eps] *)
Definition lowen : A := fmul (of_int (Z.of_nat (Arr.shape0 seq))) feps.

(** [if nlowen_seq > maxlowen: maxlowen = nlowen_seq] *)
Definition effective_maxlowen (maxlowen : Z) : Z :=
  let nlowen_seq := count_lowen seq lowen in
  if nlowen_seq >? maxlowen then nlowen_seq else maxlowen.

(** [len(Z) < minsegments or nlowen_recon > maxlowen] *)
Definition gate_fails (maxlowen : Z) (d : Decomposition) : bool :=
  (Z.of_nat (length (dZ d)) <? minsegments)
  || (count_lowen (drecon d) lowen >? maxlowen).

(** The [while (...) and nretries > 0] loop; [nretries] only counts down
    to zero, so it is a natural number here. *)
Fixpoint retry_loop (maxlowen : Z) (nretries : nat) (d : Decomposition)
    (s : EngineState) : option (Decomposition * EngineState) :=
  if gate_fails maxlowen d && (0 <? nretries)%nat then
    match nretries with
    | S k =>
        '(d', s') ← analysis_round s;
        retry_loop maxlowen k d' s'
    | O => Some (d, s)
    end
  else Some (d, s).

(** Lines 222-246 of [segment_song]: the decomposition handed on to the
    alignment and segmentation steps ([None]: [np.argmin] raised on an
    empty list of attempts). *)
Definition segment_song_decomposition (maxlowen maxretries : Z)
    (s : EngineState) : option (Decomposition * EngineState) :=
  '(d, s1) ← analysis_round s;
  retry_loop (effective_maxlowen maxlowen) (Z.to_nat maxretries) d s1.

(** The generator state before attempt [j] of a round started in [s]. *)
Fixpoint state_before (j : nat) (s : EngineState) : EngineState :=
  match j with
  | O => s
  | S k => state_before k (snd (analyze seq rank win kwargs s))
  end.

(** The outcome of the [k]-th analysis (counting from 0) when the first
    one starts in state [s]. *)
Fixpoint nth_analysis (k : nat) (s : EngineState)
  : option (Decomposition * EngineState) :=
  match k with
  | O => analysis_round s
  | S k' => '(_, s') ← analysis_round s; nth_analysis k' s'
  end.

End Driver.
End Driver.

(* --------------------------------------------------------------------- *)
(* The decomposition driver: properties                                   *)
(* --------------------------------------------------------------------- *)

Section ArgminFacts.
Context {A : Type} {ops : FloatOps A}.

Lemma argmin_from_bound (best : A) (besti i : nat) (v : list A) :
  (besti < i)%nat → (Arr.argmin_from best besti i v < i + length v)%nat.
Proof.
  revert best besti i. induction v as [|x r IH]; intros best besti i Hi; simpl.
  - lia.
  - destruct (fltb x best).
    + pose proof (IH x i (S i) ltac:(lia)). lia.
    + pose proof (IH best besti (S i) ltac:(lia)). lia.
Qed.

Lemma argmin_is_Some (v : list A) :
  v ≠ [] → ∃ k, Arr.argmin v = Some k ∧ (k < length v)%nat.
Proof.
  destruct v as [|x r]; [done|]. intros _. eexists. split; [done|].
  pose proof (argmin_from_bound x 0 1 r ltac:(lia)). simpl. lia.
Qed.

Lemma argmax_from_bound (best : A) (besti i : nat) (v : list A) :
  (besti < i)%nat → (Arr.argmax_from best besti i v < i + length v)%nat.
Proof.
  revert best besti i. induction v as [|x r IH]; intros best besti i Hi; simpl.
  - lia.
  - destruct (fltb best x).
    + pose proof (IH x i (S i) ltac:(lia)). lia.
    + pose proof (IH best besti (S i) ltac:(lia)). lia.
Qed.

Lemma argmax_is_Some (v : list A) :
  v ≠ [] → ∃ k, Arr.argmax v = Some k ∧ (k < length v)%nat.
Proof.
  destruct v as [|x r]; [done|]. intros _. eexists. split; [done|].
  pose proof (argmax_from_bound x 0 1 r ltac:(lia)). simpl. lia.
Qed.

(* The comparison is a strict weak order: no value is below itself, and
   both "below" and "not below" are transitive (a total preorder with
   ties; NaN is excluded). *)
Hypothesis fltb_irrefl : ∀ x : A, fltb x x = false.
Hypothesis fltb_trans : ∀ x y z : A, fltb x y = true → fltb y z = true → fltb x z = true.
Hypothesis fltb_negtrans :
  ∀ x y z : A, fltb x y = false → fltb y z = false → fltb x z = false.

Lemma argmin_from_spec (pre : list A) (best : A) (besti : nat) (v : list A) :
  pre !! besti = Some best →
  (∀ j x, pre !! j = Some x →
          fltb x best = false ∧ ((j < besti)%nat → fltb best x = true)) →
  ∃ m, (pre ++ v) !! Arr.argmin_from best besti (length pre) v = Some m ∧
       ∀ j x, (pre ++ v) !! j = Some x →
              fltb x m = false ∧
              ((j < Arr.argmin_from best besti (length pre) v)%nat → fltb m x = true).
Proof.
  revert pre best besti. induction v as [|y r IH]; intros pre best besti Hb Hpre; simpl.
  - rewrite app_nil_r. eauto.
  - replace (pre ++ y :: r) with ((pre ++ [y]) ++ r) by by rewrite <- app_assoc.
    replace (S (length pre)) with (length (pre ++ [y]))
      by (rewrite length_app; simpl; lia).
    destruct (fltb y best) eqn:Hy.
    + apply IH.
      * by rewrite lookup_app_r, Nat.sub_diag.
      * intros j x Hx. apply lookup_app_Some in Hx as [Hx|[Hge Hx]].
        -- destruct (Hpre j x Hx) as [Hxb _]. split.
           ++ destruct (fltb x y) eqn:Hxy; [|done].
              by rewrite (fltb_trans x y best Hxy Hy) in Hxb.
           ++ intros _. destruct (fltb y x) eqn:Hyx; [done|].
              by rewrite (fltb_negtrans y x best Hyx Hxb) in Hy.
        -- destruct (j - length pre)%nat eqn:E; [|by destruct n].
           injection Hx as <-. split; [apply fltb_irrefl|lia].
    + apply IH.
      * by apply lookup_app_l_Some.
      * intros j x Hx. apply lookup_app_Some in Hx as [Hx|[Hge Hx]].
        -- by apply Hpre.
        -- destruct (j - length pre)%nat eqn:E; [|by destruct n].
           injection Hx as <-. split; [done|].
           apply lookup_lt_Some in Hb. lia.
Qed.

Lemma argmin_spec (v : list A) (k : nat) :
  Arr.argmin v = Some k →
  ∃ m, v !! k = Some m ∧
       ∀ j x, v !! j = Some x →
              fltb x m = false ∧ ((j < k)%nat → fltb m x = true).
Proof.
  destruct v as [|x r]; [done|]. simpl. intros [= <-].
  apply (argmin_from_spec [x] x 0 r); [done|].
  intros [|j] y Hy; [|done]. injection Hy as <-.
  split; [apply fltb_irrefl|lia].
Qed.

End ArgminFacts.

Section DriverFacts.
Context {A : Type} {ops : FloatOps A}.
Context {EngineState Kwargs : Type}.
Variable analyze :
  Arr.Array2 A → Z → Z → Kwargs → EngineState
  → @Driver.Decomposition A * EngineState.
Variables (seq : Arr.Array2 A) (rank win : Z) (kwargs : Kwargs).
Variables (nrep minsegments : Z).

Local Abbreviation run_attempts := (Driver.run_attempts analyze seq rank win kwargs).
Local Abbreviation state_before := (Driver.state_before analyze seq rank win kwargs).
Local Abbreviation analysis_round := (Driver.analysis_round analyze seq rank win kwargs nrep).
Local Abbreviation nth_analysis := (Driver.nth_analysis analyze seq rank win kwargs nrep).
Local Abbreviation gate_fails := (Driver.gate_fails seq minsegments).
Local Abbreviation retry_loop :=
  (Driver.retry_loop analyze seq rank win kwargs nrep minsegments).
Local Abbreviation segment_song_decomposition :=
  (Driver.segment_song_decomposition analyze seq rank win kwargs nrep minsegments).
Local Abbreviation nlowen_seq := (Driver.count_lowen seq (Driver.lowen seq)).

Lemma run_attempts_spec (n : nat) (s : EngineState) :
  length (run_attempts n s).1 = n ∧
  (run_attempts n s).2 = state_before n s ∧
  ∀ j, (j < n)%nat →
       (run_attempts n s).1 !! j
       = Some (analyze seq rank win kwargs (state_before j s)).1.
Proof.
  revert s. induction n as [|n IH]; intros s; simpl.
  - repeat split. lia.
  - destruct (analyze seq rank win kwargs s) as [d s1] eqn:Ha.
    destruct (IH s1) as (Hlen & Hst & Hnth).
    destruct (run_attempts n s1) as [ds s2]. simpl in *.
    repeat split; [by rewrite Hlen|done|].
    intros [|j] Hj; simpl; [by rewrite Ha|].
    rewrite Ha. simpl. apply Hnth. lia.
Qed.

Lemma analysis_round_total (s : EngineState) :
  1 ≤ nrep → is_Some (analysis_round s).
Proof.
  intros Hn. unfold Driver.analysis_round.
  pose proof (run_attempts_spec (Z.to_nat nrep) s) as (Hlen & _ & _).
  destruct (run_attempts (Z.to_nat nrep) s) as [outs s']. simpl in Hlen.
  unfold Driver.select_best.
  destruct (argmin_is_Some (Driver.ddiv <$> outs)) as (k & -> & Hk).
  { intros Hnil. apply (f_equal length) in Hnil.
    rewrite length_fmap in Hnil. simpl in Hnil. lia. }
  simpl. rewrite length_fmap in Hk.
  destruct (lookup_lt_is_Some_2 outs k Hk) as [d ->]. by eexists.
Qed.

Lemma retry_loop_trace (maxlowen : Z) (n : nat) :
  1 ≤ nrep →
  ∀ s0 d s, analysis_round s0 = Some (d, s) →
  ∃ (k : nat) d' s',
    (k ≤ n)%nat ∧
    retry_loop maxlowen n d s = Some (d', s') ∧
    nth_analysis k s0 = Some (d', s') ∧
    (∀ j, (j < k)%nat →
          ∃ dj sj, nth_analysis j s0 = Some (dj, sj) ∧ gate_fails maxlowen dj = true) ∧
    (gate_fails maxlowen d' = false ∨ k = n).
Proof.
  intros Hn. induction n as [|n IH]; intros s0 d s Hr.
  - exists 0%nat, d, s. simpl. rewrite andb_false_r.
    split_and!; [done|done|done|by intros j ?; lia|by right].
  - destruct (gate_fails maxlowen d) eqn:Hg.
    + destruct (analysis_round_total s Hn) as [[d1 s1] Hr1].
      destruct (IH s d1 s1 Hr1) as (k & d' & s' & Hk & Hloop & Hnth & Hfail & Hend).
      exists (S k), d', s'. split_and!.
      * lia.
      * cbn [Driver.retry_loop]. rewrite Hg, Hr1. done.
      * cbn [Driver.nth_analysis]. rewrite Hr. done.
      * intros [|j] Hj.
        -- exists d, s. by split.
        -- destruct (Hfail j ltac:(lia)) as (dj & sj & Hj' & Hgj).
           exists dj, sj. split; [|done]. cbn [Driver.nth_analysis]. by rewrite Hr.
      * destruct Hend as [?| ->]; [by left|by right].
    + exists 0%nat, d, s. simpl. rewrite Hg. simpl.
      split_and!; [lia|done|done|by intros j ?; lia|by left].
Qed.

Lemma segment_song_decomposition_trace
    (maxlowen maxretries : Z) (s : EngineState) :
  1 ≤ nrep →
  ∃ (k : nat) d s',
    (k ≤ Z.to_nat maxretries)%nat ∧
    segment_song_decomposition maxlowen maxretries s = Some (d, s') ∧
    nth_analysis k s = Some (d, s') ∧
    (∀ j, (j < k)%nat →
       ∃ dj sj, nth_analysis j s = Some (dj, sj) ∧
                gate_fails (Driver.effective_maxlowen seq maxlowen) dj = true) ∧
    (gate_fails (Driver.effective_maxlowen seq maxlowen) d = false
     ∨ k = Z.to_nat maxretries).
Proof.
  intros Hn. unfold Driver.segment_song_decomposition.
  destruct (analysis_round_total s Hn) as [[d0 s0] Hr].
  destruct (retry_loop_trace (Driver.effective_maxlowen seq maxlowen)
              (Z.to_nat maxretries) Hn s d0 s0 Hr)
    as (k & d & s' & Hk & Hloop & Hnth & Hfail & Hend).
  exists k, d, s'. rewrite Hr. simpl. by split_and!.
Qed.

Lemma analysis_round_no_attempt (s : EngineState) :
  nrep ≤ 0 → analysis_round s = None.
Proof.
  intros Hn. unfold Driver.analysis_round.
  replace (Z.to_nat nrep) with 0%nat by lia. done.
Qed.

(** C2. The driver never fails because of the quality gate.  For every
    input, either there is no attempt at all ([nrep <= 0]: already the
    first analysis has nothing to choose from, before any gate is
    looked at), or the driver returns the outcome of analysis number [k]
    for some [k <= maxretries]; every earlier analysis failed the gate
    (too few effective segments, or too many low-energy frames for the
    effective threshold), each of these consuming one retry; and either
    the returned decomposition passes the gate or all [maxretries]
    retries are spent, in which case it is returned as it is. *)
Theorem segment_song_retries_then_accepts
    (maxlowen maxretries : Z) (s : EngineState) :
  (nrep ≤ 0 ∧ analysis_round s = None ∧
   segment_song_decomposition maxlowen maxretries s = None) ∨
  (1 ≤ nrep ∧
   ∃ (k : nat) d s',
     (k ≤ Z.to_nat maxretries)%nat ∧
     segment_song_decomposition maxlowen maxretries s = Some (d, s') ∧
     nth_analysis k s = Some (d, s') ∧
     (∀ j, (j < k)%nat →
        ∃ dj sj, nth_analysis j s = Some (dj, sj) ∧
                 gate_fails (Driver.effective_maxlowen seq maxlowen) dj = true) ∧
     (gate_fails (Driver.effective_maxlowen seq maxlowen) d = false
      ∨ k = Z.to_nat maxretries)).
Proof.
  destruct (Z_le_gt_dec nrep 0) as [Hn|Hn].
  - left. pose proof (analysis_round_no_attempt s Hn) as Hr.
    split_and!; [done|done|].
    unfold Driver.segment_song_decomposition. by rewrite Hr.
  - right. split; [lia|]. apply segment_song_decomposition_trace. lia.
Qed.

(** C8. When the input itself has more low-energy frames than
    [maxlowen], the quality gate works with the input's count instead:
    the driver behaves as if [maxlowen] had been that count, and a
    decomposition with enough segments whose reconstruction has no more
    low-energy frames than the input is accepted without a retry. *)
Theorem segment_song_raises_maxlowen (maxlowen maxretries : Z) :
  maxlowen < nlowen_seq →
  Driver.effective_maxlowen seq maxlowen = nlowen_seq ∧
  (∀ s, segment_song_decomposition maxlowen maxretries s
        = segment_song_decomposition nlowen_seq maxretries s) ∧
  ∀ (n : nat) d s,
    minsegments ≤ Z.of_nat (length (Driver.dZ d)) →
    Driver.count_lowen (Driver.drecon d) (Driver.lowen seq) ≤ nlowen_seq →
    retry_loop (Driver.effective_maxlowen seq maxlowen) n d s = Some (d, s).
Proof.
  intros Hlt.
  assert (Heff : Driver.effective_maxlowen seq maxlowen = nlowen_seq).
  { unfold Driver.effective_maxlowen.
    destruct (Z.gtb_spec nlowen_seq maxlowen); [done|lia]. }
  assert (Heff' : Driver.effective_maxlowen seq nlowen_seq = nlowen_seq).
  { unfold Driver.effective_maxlowen.
    destruct (Z.gtb_spec nlowen_seq nlowen_seq); [lia|done]. }
  split_and!; [done| |].
  - intros s. unfold Driver.segment_song_decomposition. by rewrite Heff, Heff'.
  - intros n d s HZ Hrec. rewrite Heff.
    assert (Hg : gate_fails nlowen_seq d = false).
    { unfold Driver.gate_fails. apply orb_false_iff. split.
      - apply Z.ltb_ge. lia.
      - destruct (Z.gtb_spec (Driver.count_lowen (Driver.drecon d) (Driver.lowen seq))
                    nlowen_seq); [lia|done]. }
    destruct n; simpl; by rewrite Hg.
Qed.

Hypothesis fltb_irrefl : ∀ x : A, fltb x x = false.
Hypothesis fltb_trans : ∀ x y z : A, fltb x y = true → fltb y z = true → fltb x z = true.
Hypothesis fltb_negtrans :
  ∀ x y z : A, fltb x y = false → fltb y z = false → fltb x z = false.

(** C1. For [nrep >= 1], one analysis calls the engine [nrep] times in
    a row, always with the same [seq], [rank], [win] and options, each
    call starting from the generator state the previous one left; it
    returns an attempt of minimal final divergence, and among several
    minimal ones the first: every earlier attempt has a strictly larger
    divergence.  The driver's result is the outcome of such an analysis
    (the first one, or the last retry). *)
Theorem analysis_round_selects_minimum (s : EngineState) :
  1 ≤ nrep →
  ∃ outputs (k : nat) best,
    length outputs = Z.to_nat nrep ∧
    (∀ j, (j < Z.to_nat nrep)%nat →
       outputs !! j = Some (analyze seq rank win kwargs (state_before j s)).1) ∧
    outputs !! k = Some best ∧
    analysis_round s = Some (best, state_before (Z.to_nat nrep) s) ∧
    (∀ j d, outputs !! j = Some d →
       fltb (Driver.ddiv d) (Driver.ddiv best) = false ∧
       ((j < k)%nat → fltb (Driver.ddiv best) (Driver.ddiv d) = true)) ∧
    ∀ maxlowen maxretries, ∃ (r : nat) res,
      segment_song_decomposition maxlowen maxretries s = Some res ∧
      nth_analysis r s = Some res.
Proof.
  intros Hn.
  pose proof (run_attempts_spec (Z.to_nat nrep) s) as (Hlen & Hst & Hnth).
  destruct (analysis_round_total s Hn) as [[best s'] Hr].
  pose proof Hr as Hr'. unfold Driver.analysis_round in Hr'.
  destruct (run_attempts (Z.to_nat nrep) s) as [outs s1]. simpl in *.
  unfold Driver.select_best in Hr'.
  destruct (Arr.argmin (Driver.ddiv <$> outs)) as [k|] eqn:Hk; [|done].
  simpl in Hr'. destruct (outs !! k) as [b|] eqn:Hb; [|done].
  simpl in Hr'. injection Hr' as -> ->.
  destruct (argmin_spec fltb_irrefl fltb_trans fltb_negtrans _ _ Hk)
    as (m & Hm & Hmin).
  rewrite list_lookup_fmap, Hb in Hm. injection Hm as <-.
  exists outs, k, best. split_and!; try done.
  - by rewrite Hr, Hst.
  - intros j d Hj. eapply Hmin. by rewrite list_lookup_fmap, Hj.
  - intros maxlowen maxretries.
    destruct (segment_song_decomposition_trace maxlowen maxretries s Hn)
      as (r & d & s2 & _ & Hd & Hnth' & _).
    by exists r, (d, s2).
Qed.

End DriverFacts.

(* --------------------------------------------------------------------- *)
(* A stub engine with prescribed divergences                              *)
(* --------------------------------------------------------------------- *)

Module Stub.

(** The generator state is a call counter; call number [s] reports the
    divergence [divs[s]], [rank] unit weights, and the input itself as
    reconstruction. *)
Definition engine (divs : list Z) (seq : Arr.Array2 Z) (rank win : Z)
    (kwargs : unit) (s : nat) : @Driver.Decomposition Z * nat :=
  ({| Driver.dW := {| Arr.dim0 := 0; Arr.dim1 := 0; Arr.dim2 := 0;
                      Arr.at3 := λ _ _ _, 0 |};
      Driver.dZ := replicate (Z.to_nat rank) 1;
      Driver.dH := []; Driver.dnorm := 1; Driver.drecon := seq;
      Driver.ddiv := default 0 (divs !! s) |}, S s).

(** One feature dimension, three frames, the first two silent. *)
Definition seq0 : Arr.Array2 Z := {| Arr.shape0 := 1; Arr.columns := [[0]; [0]; [1]] |}.

End Stub.

Lemma Zltb_trans (x y z : Z) : (x <? y) = true → (y <? z) = true → (x <? z) = true.
Proof. rewrite !Z.ltb_lt. lia. Qed.

Lemma Zltb_negtrans (x y z : Z) : (x <? y) = false → (y <? z) = false → (x <? z) = false.
Proof. rewrite !Z.ltb_ge. lia. Qed.

(** Three attempts with divergences 5.0, 2.0 and 9.0: the second is
    chosen. *)
Lemma analysis_round_selects_minimum_witness :
  ∃ outputs (k : nat) best,
    length outputs = Z.to_nat 3 ∧
    (∀ j, (j < Z.to_nat 3)%nat →
       outputs !! j
       = Some (Stub.engine [5;2;9] Stub.seq0 2 4 ()
                 (Driver.state_before (Stub.engine [5;2;9]) Stub.seq0 2 4 () j 0%nat)).1) ∧
    outputs !! k = Some best ∧
    Driver.analysis_round (ops := ZOps) (Stub.engine [5;2;9]) Stub.seq0 2 4 () 3 0%nat
    = Some (best, Driver.state_before (Stub.engine [5;2;9]) Stub.seq0 2 4 () (Z.to_nat 3) 0%nat) ∧
    (∀ j d, outputs !! j = Some d →
       fltb (FloatOps := ZOps) (Driver.ddiv d) (Driver.ddiv best) = false ∧
       ((j < k)%nat → fltb (FloatOps := ZOps) (Driver.ddiv best) (Driver.ddiv d) = true)) ∧
    ∀ maxlowen maxretries, ∃ (r : nat) res,
      Driver.segment_song_decomposition (ops := ZOps) (Stub.engine [5;2;9])
        Stub.seq0 2 4 () 3 2 maxlowen maxretries 0%nat = Some res ∧
      Driver.nth_analysis (ops := ZOps) (Stub.engine [5;2;9]) Stub.seq0 2 4 () 3 r 0%nat
      = Some res.
Proof.
  apply (analysis_round_selects_minimum (ops := ZOps) (Stub.engine [5;2;9])
           Stub.seq0 2 4 () 3 2 Z.ltb_irrefl Zltb_trans Zltb_negtrans 0%nat).
  lia.
Defined.

Example analysis_round_stub :
  (Driver.analysis_round (ops := ZOps) (Stub.engine [5;2;9]) Stub.seq0 2 4 () 3 0%nat)
  = Some ((Stub.engine [5;2;9] Stub.seq0 2 4 () 1%nat).1, 3%nat).
Proof. reflexivity. Qed.

(** One attempt per analysis, two effective segments where three are asked
    for: the gate fails each time, the budget of two retries is used and
    the third analysis is returned. *)
Example segment_song_decomposition_stub :
  Driver.segment_song_decomposition (ops := ZOps) (Stub.engine [5;2;9])
    Stub.seq0 2 4 () 1 3 10 2 0%nat
  = Some ((Stub.engine [5;2;9] Stub.seq0 2 4 () 2%nat).1, 3%nat).
Proof. reflexivity. Qed.

(** Two silent input frames against [maxlowen = 1]. *)
Lemma segment_song_raises_maxlowen_witness :
  Driver.effective_maxlowen (ops := ZOps) Stub.seq0 1
  = Driver.count_lowen (ops := ZOps) Stub.seq0 (Driver.lowen (ops := ZOps) Stub.seq0) ∧
  (∀ s, Driver.segment_song_decomposition (ops := ZOps) (Stub.engine [5;2;9])
          Stub.seq0 2 4 () 1 2 1 5 s
        = Driver.segment_song_decomposition (ops := ZOps) (Stub.engine [5;2;9])
            Stub.seq0 2 4 () 1 2
            (Driver.count_lowen (ops := ZOps) Stub.seq0 (Driver.lowen (ops := ZOps) Stub.seq0)) 5 s) ∧
  ∀ (n : nat) d s,
    2 ≤ Z.of_nat (length (Driver.dZ d)) →
    Driver.count_lowen (ops := ZOps) (Driver.drecon d) (Driver.lowen (ops := ZOps) Stub.seq0)
    ≤ Driver.count_lowen (ops := ZOps) Stub.seq0 (Driver.lowen (ops := ZOps) Stub.seq0) →
    Driver.retry_loop (ops := ZOps) (Stub.engine [5;2;9]) Stub.seq0 2 4 () 1 2
      (Driver.effective_maxlowen (ops := ZOps) Stub.seq0 1) n d s = Some (d, s).
Proof.
  apply (segment_song_raises_maxlowen (ops := ZOps) (Stub.engine [5;2;9])
           Stub.seq0 2 4 () 1 2 1 5).
  vm_compute. reflexivity.
Defined.

(* --------------------------------------------------------------------- *)
(* convert_labels_to_segments (segmenter.py, lines 419-443)               *)
(* --------------------------------------------------------------------- *)
(* Frame times and the song length are floats that the code only copies,
   formats and tests for truth: [time] is their type, [fmt4] is
   ['%.4f' % t], and [truthy] is Python's truth value of a number (false
   exactly for zero).  [songlen = None] is the default argument. *)

Module Serializer.
Section Serializer.
Context {time : Type}.
Variable fmt4 : time → string.
Variable truthy : time → bool.

(** ['ABCDEFGHIJKLMNOPQRSTUVWXYZ'] *)
Definition alphabet : list Ascii.ascii :=
  String.list_ascii_of_string "ABCDEFGHIJKLMNOPQRSTUVWXYZ".

(** [np.concatenate(([0], np.nonzero(np.diff(labels))[0], [len(labels) - 1]))] *)
Definition boundaryidx (labels : list Z) : list Z :=
  [0] ++ Merger.segment_borders labels ++ [Z.of_nat (length labels) - 1].

(** Lines 425-431: [(segstarttimes, segendtimes, seglabels)]. *)
Definition segment_spans (labels : list Z) (frametimes : list time)
  : option (list time * list time * list Z) :=
  let idx := boundaryidx labels in
  boundarytimes ← Np.take_indices frametimes idx;
  seglabels ← Np.take_indices labels (Np.from_1 idx);
  Some (Np.but_last boundarytimes, Np.from_1 boundarytimes, seglabels).

(** One output line before formatting: the start field is either the
    literal text [0.0] or a time, then the end time and the symbol. *)
Inductive start_field := Literal0 | At (t : time).
Record row := Row { r_start : start_field; r_end : time; r_symbol : Ascii.ascii }.

(** Lines 433-441: the list [segments], one entry per output line. *)
Definition segment_rows (labels : list Z) (frametimes : list time)
    (songlen : option time) : option (list row) :=
  '(segstarttimes, segendtimes, seglabels) ← segment_spans labels frametimes;
  segments ← mapM (λ '(s, e, label),
                     sym ← Np.getitem alphabet label; Some (Row (At s) e sym))
                  (zip (zip segstarttimes segendtimes) seglabels);
  top ← Np.max_int seglabels;
  silencelabel ← Np.getitem alphabet (top + 1);
  start0 ← Np.getitem segstarttimes 0;
  let segments := Row Literal0 start0 silencelabel :: segments in
  match songlen with
  | Some len =>
      if truthy len then
        end_last ← Np.getitem segendtimes (-1);
        Some (segments ++ [Row (At end_last) len silencelabel])
      else Some segments
  | None => Some segments
  end.

Definition tab : string := String.String (Ascii.ascii_of_nat 9) String.EmptyString.
Definition newline : string := String.String (Ascii.ascii_of_nat 10) String.EmptyString.

(** ['%.4f\t%.4f\t%s'] and ['0.0\t%.4f\t%s'] *)
Definition render (r : row) : string :=
  (match r_start r with Literal0 => "0.0" | At t => fmt4 t end)
  +:+ tab +:+ fmt4 (r_end r) +:+ tab +:+ String.String (r_symbol r) String.EmptyString.

(** ['\n'.join(segments + [''])] *)
Definition convert_labels_to_segments (labels : list Z) (frametimes : list time)
    (songlen : option time) : option string :=
  segments ← segment_rows labels frametimes songlen;
  Some (String.concat newline ((render <$> segments) ++ [""])).

End Serializer.
Global Arguments start_field : clear implicits.
Global Arguments row : clear implicits.
Global Arguments Literal0 {time}.
End Serializer.

(** Times in whole seconds, for running the serializer. *)
Module SecondsDemo.
Definition fmt4 (t : Z) : string := pretty t +:+ ".0000".
Definition truthy (t : Z) : bool := negb (t =? 0).
End SecondsDemo.

Example convert_labels_to_segments_ex :
  Serializer.convert_labels_to_segments SecondsDemo.fmt4 SecondsDemo.truthy
    [0;0;1;1;1;0] [1;2;3;4;5;6] (Some 9)
  = Some ("0.0" +:+ Serializer.tab +:+ "1.0000" +:+ Serializer.tab +:+ "C" +:+ Serializer.newline +:+
          "1.0000" +:+ Serializer.tab +:+ "2.0000" +:+ Serializer.tab +:+ "A" +:+ Serializer.newline +:+
          "2.0000" +:+ Serializer.tab +:+ "5.0000" +:+ Serializer.tab +:+ "B" +:+ Serializer.newline +:+
          "5.0000" +:+ Serializer.tab +:+ "6.0000" +:+ Serializer.tab +:+ "A" +:+ Serializer.newline +:+
          "6.0000" +:+ Serializer.tab +:+ "9.0000" +:+ Serializer.tab +:+ "C" +:+ Serializer.newline).
Proof. vm_compute. reflexivity. Qed.

(* --------------------------------------------------------------------- *)
(* convert_labels_to_segments: properties                                 *)
(* --------------------------------------------------------------------- *)

Lemma nonzero_from_lookup_lt (bs : list bool) (i : Z) (j k : nat) (a b : Z) :
  (j < k)%nat →
  Np.nonzero_from i bs !! j = Some a → Np.nonzero_from i bs !! k = Some b →
  a < b.
Proof.
  revert i j k. induction bs as [|b0 bs IH]; intros i j k Hjk; simpl; [done|].
  destruct b0; [|by apply IH].
  destruct k as [|k]; [lia|]. destruct j as [|j]; simpl.
  - intros [= <-] Hb.
    assert (Hin : b ∈ Np.nonzero_from (i + 1) bs)
      by (apply list_elem_of_lookup; eauto).
    apply elem_of_nonzero_from in Hin as (n & -> & _). lia.
  - apply IH. lia.
Qed.

Lemma segment_borders_lookup_lt (labels : list Z) (j k : nat) (a b : Z) :
  (j < k)%nat →
  Merger.segment_borders labels !! j = Some a →
  Merger.segment_borders labels !! k = Some b → a < b.
Proof. apply nonzero_from_lookup_lt. Qed.

(** The boundary indices are valid frame indices in ascending order. *)
Lemma boundaryidx_sorted (labels : list Z) (j k : nat) (a b : Z) :
  labels ≠ [] → (j ≤ k)%nat →
  Serializer.boundaryidx labels !! j = Some a →
  Serializer.boundaryidx labels !! k = Some b →
  0 ≤ a ∧ a ≤ b ∧ b < Z.of_nat (length labels).
Proof.
  intros Hne Hjk. unfold Serializer.boundaryidx.
  set (B := Merger.segment_borders labels).
  set (n := Z.of_nat (length labels)).
  assert (Hn : 1 ≤ n) by (subst n; destruct labels; simpl; [done|lia]).
  assert (Hrange : ∀ p x, (B ++ [n - 1]) !! p = Some x → 0 ≤ x < n).
  { intros p x [Hx|[_ Hx]]%lookup_app_Some.
    - apply list_elem_of_lookup_2, segment_borders_range in Hx. lia.
    - apply list_lookup_singleton_Some in Hx as [_ <-]. lia. }
  assert (Hsorted : ∀ p q x y, (p ≤ q)%nat → (B ++ [n - 1]) !! p = Some x →
                               (B ++ [n - 1]) !! q = Some y → x ≤ y).
  { intros p q x y Hpq Hx Hy.
    destruct (decide (p = q)) as [->|Hne']; [by simplify_eq|].
    apply lookup_app_Some in Hx as [Hx|[Hpl Hx]];
      apply lookup_app_Some in Hy as [Hy|[Hql Hy]].
    - pose proof (segment_borders_lookup_lt labels p q x y ltac:(lia) Hx Hy). lia.
    - apply list_lookup_singleton_Some in Hy as [_ <-].
      apply list_elem_of_lookup_2, segment_borders_range in Hx. lia.
    - apply lookup_lt_Some in Hy. lia.
    - apply list_lookup_singleton_Some in Hx as [? _].
      apply list_lookup_singleton_Some in Hy as [? _]. lia. }
  simpl. destruct j as [|j]; destruct k as [|k]; simpl; try lia.
  - intros [= <-] [= <-]. lia.
  - intros [= <-] Hb. apply Hrange in Hb. lia.
  - intros Ha Hb. pose proof (Hrange _ _ Ha). pose proof (Hrange _ _ Hb).
    pose proof (Hsorted j k a b ltac:(lia) Ha Hb). lia.
Qed.

Lemma length_from_1 {A : Type} (l : list A) :
  length (Np.from_1 l) = pred (length l).
Proof. by destruct l. Qed.

Lemma length_boundaryidx (labels : list Z) :
  length (Serializer.boundaryidx labels)
  = S (S (length (Merger.segment_borders labels))).
Proof. unfold Serializer.boundaryidx. simpl. rewrite length_app. simpl. lia. Qed.

Lemma take_indices_in_range {A : Type} (l : list A) (idx : list Z) :
  (∀ i, i ∈ idx → 0 ≤ i < Z.of_nat (length l)) →
  ∃ out, Np.take_indices l idx = Some out ∧
         length out = length idx ∧
         ∀ j i, idx !! j = Some i → out !! j = l !! Z.to_nat i.
Proof.
  unfold Np.take_indices. induction idx as [|i idx IH]; intros Hr.
  - exists []. by split_and!.
  - destruct IH as (out & Hout & Hlen & Hnth).
    { intros i' Hi'. apply Hr. by right. }
    pose proof (Hr i ltac:(left)) as Hi.
    destruct (lookup_lt_is_Some_2 l (Z.to_nat i)) as [x Hx]; [lia|].
    exists (x :: out). split_and!.
    + cbn. rewrite getitem_nonneg by lia.
      assert (Hlt : (i <? Z.of_nat (length l)) = true) by zbool.
      rewrite Hlt, Hx. cbn. by rewrite Hout.
    + simpl. by rewrite Hlen.
    + intros [|j] i'; simpl; [by intros [= <-]|apply Hnth].
Qed.

Lemma max_int_spec (l : list Z) (m : Z) :
  Np.max_int l = Some m → m ∈ l ∧ ∀ x, x ∈ l → x ≤ m.
Proof.
  destruct l as [|x r]; [done|]. simpl. intros [= <-].
  assert (H : ∀ r a, (foldl Z.max a r = a ∨ foldl Z.max a r ∈ r) ∧
                     a ≤ foldl Z.max a r ∧ ∀ y, y ∈ r → y ≤ foldl Z.max a r).
  { clear. induction r as [|y r IH]; intros a; simpl.
    - split_and!; [by left|lia|by intros ? ?%elem_of_nil].
    - destruct (IH (Z.max a y)) as (Hin & Hle & Hall). split_and!.
      + destruct Hin as [Heq|Hin]; [|by right; right].
        rewrite Heq. destruct (Z.max_spec a y) as [[_ ->]|[_ ->]];
          [right; left|by left].
      + lia.
      + intros z [->|Hz]%elem_of_cons; [lia|by apply Hall]. }
  destruct (H r x) as (Hin & Hle & Hall). split.
  - destruct Hin as [->|Hin]; [left|by right].
  - intros y [->|Hy]%elem_of_cons; [done|by apply Hall].
Qed.

(** Every label of the sequence is the label of some segment: the run a
    frame lies in ends at a label change or at the last frame. *)
Lemma label_reaches_boundary (labels : list Z) (d p : nat) (v : Z) :
  (p + d = length labels - 1)%nat → labels !! p = Some v →
  ∃ q, q ∈ Np.from_1 (Serializer.boundaryidx labels) ∧
       labels !! Z.to_nat q = Some v ∧ 0 ≤ q.
Proof.
  revert p. induction d as [|d IH]; intros p Hp Hv.
  - exists (Z.of_nat (length labels) - 1). split_and!.
    + unfold Serializer.boundaryidx. simpl.
      rewrite elem_of_app, list_elem_of_singleton. by right.
    + rewrite <- Hv. f_equal. apply lookup_lt_Some in Hv. lia.
    + apply lookup_lt_Some in Hv. lia.
  - destruct (lookup_lt_is_Some_2 labels (S p)) as [w Hw]; [lia|].
    destruct (decide (v = w)) as [->|Hne].
    + apply (IH (S p)); [lia|done].
    + exists (Z.of_nat p). split_and!; [|by rewrite Nat2Z.id|lia].
      unfold Serializer.boundaryidx. simpl. rewrite elem_of_app. left.
      apply elem_of_segment_borders. exists p. split; [done|].
      by exists v, w.
Qed.

Lemma length_but_last {A : Type} (l : list A) :
  length (Np.but_last l) = (length l - 1)%nat.
Proof. unfold Np.but_last. rewrite length_take. lia. Qed.

Lemma lookup_but_last {A : Type} (l : list A) (i : nat) (x : A) :
  Np.but_last l !! i = Some x ↔ l !! i = Some x ∧ (S i < length l)%nat.
Proof.
  unfold Np.but_last. rewrite lookup_take_Some. split; intros [? ?]; (split; [done|lia]).
Qed.

Lemma lookup_from_1 {A : Type} (l : list A) (i : nat) :
  Np.from_1 l !! i = l !! S i.
Proof. apply lookup_tail. Qed.

(** Lines 425-431 succeed on a non-empty label array with as many frame
    times, and read the entries at the boundary indices. *)
Lemma segment_spans_shape {time : Type} (labels : list Z) (ft : list time) :
  labels ≠ [] → length ft = length labels →
  ∃ bt seglabels first last_,
    Serializer.segment_spans labels ft
    = Some (Np.but_last bt, Np.from_1 bt, seglabels) ∧
    length bt = S (length seglabels) ∧
    length seglabels = S (length (Merger.segment_borders labels)) ∧
    (∀ j i, Np.from_1 (Serializer.boundaryidx labels) !! j = Some i →
            seglabels !! j = labels !! Z.to_nat i) ∧
    (∀ j i, Serializer.boundaryidx labels !! j = Some i →
            bt !! j = ft !! Z.to_nat i) ∧
    bt !! 0%nat = Some first ∧ ft !! 0%nat = Some first ∧
    list.last bt = Some last_ ∧ list.last ft = Some last_.
Proof.
  intros Hne Hlen. unfold Serializer.segment_spans.
  set (idx := Serializer.boundaryidx labels).
  assert (Hidx : ∀ i, i ∈ idx → 0 ≤ i < Z.of_nat (length labels)).
  { intros i (j & Hj)%list_elem_of_lookup_1.
    pose proof (boundaryidx_sorted labels j j i i Hne ltac:(lia) Hj Hj). lia. }
  destruct (take_indices_in_range ft idx) as (bt & -> & Hbl & Hbt);
    [by rewrite Hlen|].
  destruct (take_indices_in_range labels (Np.from_1 idx)) as (sl & -> & Hsl & Hslt).
  { intros i Hi. apply Hidx. unfold Np.from_1 in Hi. subst idx.
    unfold Serializer.boundaryidx in *. simpl in *. by right. }
  assert (Hli : length idx = S (S (length (Merger.segment_borders labels))))
    by apply length_boundaryidx.
  assert (Hsl' : length sl = S (length (Merger.segment_borders labels))).
  { rewrite Hsl, length_from_1. lia. }
  destruct (lookup_lt_is_Some_2 ft 0) as [first Hfirst].
  { rewrite Hlen. destruct labels; [done|simpl; lia]. }
  destruct (list.last ft) as [last_|] eqn:Hlast.
  2:{ apply last_None in Hlast. subst ft. by destruct labels. }
  exists bt, sl, first, last_. simpl. split_and!; try done.
  - lia.
  - rewrite (Hbt 0%nat 0); [done|done].
  - rewrite last_lookup, Hbl, Hli. simpl.
    rewrite (Hbt (S (length (Merger.segment_borders labels)))
               (Z.of_nat (length labels) - 1)).
    + rewrite last_lookup in Hlast. rewrite <- Hlast. f_equal. lia.
    + subst idx. unfold Serializer.boundaryidx. simpl.
      rewrite lookup_app_r by lia. by rewrite Nat.sub_diag.
Qed.

(** The largest segment label is the largest label of the sequence. *)
Lemma seglabels_max (labels seglabels : list Z) (top : Z) :
  labels ≠ [] →
  length seglabels = S (length (Merger.segment_borders labels)) →
  (∀ j i, Np.from_1 (Serializer.boundaryidx labels) !! j = Some i →
          seglabels !! j = labels !! Z.to_nat i) →
  Np.max_int seglabels = Some top →
  (∀ x, x ∈ seglabels → x ∈ labels) ∧
  top ∈ labels ∧ ∀ l, l ∈ labels → l ≤ top.
Proof.
  intros Hne Hlen Hsl Hmax.
  assert (Hli : length (Np.from_1 (Serializer.boundaryidx labels)) = length seglabels)
    by (rewrite length_from_1, length_boundaryidx; simpl; lia).
  assert (Hsub : ∀ x, x ∈ seglabels → x ∈ labels).
  { intros x (j & Hj)%list_elem_of_lookup_1.
    destruct (lookup_lt_is_Some_2 (Np.from_1 (Serializer.boundaryidx labels)) j)
      as [i Hi]; [apply lookup_lt_Some in Hj; lia|].
    rewrite (Hsl _ _ Hi) in Hj. by eapply list_elem_of_lookup_2. }
  apply max_int_spec in Hmax as [Hin Hle]. split_and!; [done|by apply Hsub|].
  intros l (p & Hp)%list_elem_of_lookup_1.
  destruct (label_reaches_boundary labels (length labels - 1 - p) p l)
    as (q & (j & Hj)%list_elem_of_lookup_1 & Hq & _);
    [apply lookup_lt_Some in Hp; lia|done|].
  apply Hle. apply (list_elem_of_lookup_2 _ j). by rewrite (Hsl _ _ Hj).
Qed.

Module SerializerSpec.
Section SerializerSpec.
Context {time : Type}.
Variable tlt : time → time → Prop.

(** [a <= b] for the strict order [tlt]. *)
Definition tle (a b : time) : Prop := tlt a b ∨ a = b.

(** A strictly increasing array: each entry is below its successor. *)
Definition increasing (ft : list time) : Prop :=
  ∀ i x y, ft !! i = Some x → ft !! S i = Some y → tlt x y.

(** The closed interval [[s, e]] contains [t]. *)
Definition covers (s e t : time) : Prop := tle s t ∧ tle t e.

(** The start and end fields of a list of output lines. *)
Definition fields (rows : list (Serializer.row time))
  : list (Serializer.start_field time * time) :=
  (λ r, (Serializer.r_start r, Serializer.r_end r)) <$> rows.

(** The trailing silence line is wanted: a song length was given and
    Python takes it as true. *)
Definition trailing (truthy : time → bool) (songlen : option time) : option time :=
  match songlen with
  | Some len => if truthy len then Some len else None
  | None => None
  end.

End SerializerSpec.
End SerializerSpec.

Section SerializerFacts.
Context {time : Type}.
Variable fmt4 : time → string.
Variable truthy : time → bool.
Variable tlt : time → time → Prop.
Hypothesis tlt_trans : ∀ a b c, tlt a b → tlt b c → tlt a c.
Hypothesis tlt_total : ∀ a b, tlt a b ∨ a = b ∨ tlt b a.

Local Abbreviation tle := (SerializerSpec.tle tlt).
Local Abbreviation increasing := (SerializerSpec.increasing tlt).
Local Abbreviation covers := (SerializerSpec.covers tlt).

Lemma tle_trans (a b c : time) : tle a b → tle b c → tle a c.
Proof.
  intros [Hab| ->] [Hbc| ->]; [left; by eapply tlt_trans|by left|by left|by right].
Qed.

Lemma increasing_lookup_lt (ft : list time) (i j : nat) (x y : time) :
  increasing ft → (i < j)%nat → ft !! i = Some x → ft !! j = Some y → tlt x y.
Proof.
  intros Hinc. revert y. induction j as [|j IH]; intros y Hij Hx Hy; [lia|].
  destruct (decide (i = j)) as [->|Hne]; [by eapply Hinc|].
  destruct (lookup_lt_is_Some_2 ft j) as [z Hz];
    [apply lookup_lt_Some in Hy; lia|].
  eapply tlt_trans; [apply IH; [lia|done|done]|by eapply Hinc].
Qed.

(** In a list with at least two entries that ends no earlier than [t]
    and starts no later, two neighbours enclose [t]. *)
Lemma neighbours_cover (l : list time) (x t : time) :
  l ≠ [] → tle x t →
  (∃ z, list.last (x :: l) = Some z ∧ tle t z) →
  ∃ i s e, (x :: l) !! i = Some s ∧ (x :: l) !! S i = Some e ∧ covers s e t.
Proof.
  revert x. induction l as [|y r IH]; intros x Hne Hx (z & Hz & Htz); [done|].
  destruct r as [|y' r].
  - simpl in Hz. injection Hz as <-. by exists 0%nat, x, y.
  - destruct (tlt_total t y) as [Hty|[->|Hyt]].
    + exists 0%nat, x, y. split_and!; [done|done|]. split; [done|by left].
    + exists 0%nat, x, y. split_and!; [done|done|]. split; [done|by right].
    + destruct (IH y) as (i & s & e & Hs & He & Hc).
      * done.
      * by left.
      * exists z. by split.
      * exists (S i), s, e. by split_and!.
Qed.

(** The boundary times read off a strictly increasing time axis. *)
Lemma boundary_times_sorted (labels : list Z) (ft bt : list time) :
  labels ≠ [] → increasing ft →
  (∀ j i, Serializer.boundaryidx labels !! j = Some i →
          bt !! j = ft !! Z.to_nat i) →
  length bt = length (Serializer.boundaryidx labels) →
  ∀ j k a b, (j ≤ k)%nat → bt !! j = Some a → bt !! k = Some b → tle a b.
Proof.
  intros Hne Hinc Hbt Hbl j k a b Hjk Ha Hb.
  set (idx := Serializer.boundaryidx labels) in *.
  destruct (lookup_lt_is_Some_2 idx j) as [ia Hia];
    [apply lookup_lt_Some in Ha; lia|].
  destruct (lookup_lt_is_Some_2 idx k) as [ib Hib];
    [apply lookup_lt_Some in Hb; lia|].
  rewrite (Hbt _ _ Hia) in Ha. rewrite (Hbt _ _ Hib) in Hb.
  pose proof (boundaryidx_sorted labels j k ia ib Hne Hjk Hia Hib) as (? & ? & ?).
  destruct (decide (ia = ib)) as [->|Hd].
  - right. congruence.
  - left. eapply (increasing_lookup_lt ft (Z.to_nat ia) (Z.to_nat ib)); try done. lia.
Qed.

(** The line of one segment: [(start, end, 'A'..'Z'[label])]. *)
Definition segment_row (x : time * time * Z) : option (Serializer.row time) :=
  let '(s, e, label) := x in
  sym ← Np.getitem Serializer.alphabet label; Some (Serializer.Row (Serializer.At s) e sym).

Definition silence_rows (last_ : time) (sil : Ascii.ascii) (songlen : option time)
  : list (Serializer.row time) :=
  match SerializerSpec.trailing truthy songlen with
  | Some len => [Serializer.Row (Serializer.At last_) len sil]
  | None => []
  end.

Lemma segment_rows_unfold labels (ft : list time) songlen starts ends sl first last_ :
  Serializer.segment_spans labels ft = Some (starts, ends, sl) →
  starts !! 0%nat = Some first → list.last ends = Some last_ →
  Serializer.segment_rows truthy labels ft songlen
  = (body ← mapM segment_row (zip (zip starts ends) sl);
     top ← Np.max_int sl;
     sil ← Np.getitem Serializer.alphabet (top + 1);
     Some (Serializer.Row Serializer.Literal0 first sil
             :: body ++ silence_rows last_ sil songlen)).
Proof.
  intros Hsp Hfirst Hlast. unfold Serializer.segment_rows. rewrite Hsp. simpl.
  change (λ '(s, e, label), _) with segment_row.
  destruct (mapM segment_row _) as [body|]; [|done]. simpl.
  destruct (Np.max_int sl) as [top|]; [|done]. simpl.
  destruct (Np.getitem Serializer.alphabet (top + 1)) as [sil|]; [|done]. simpl.
  assert (H0 : Np.getitem starts 0 = Some first).
  { rewrite getitem_nonneg by lia. apply lookup_lt_Some in Hfirst as Hl.
    assert (Hlt : (0 <? Z.of_nat (length starts)) = true) by zbool.
    by rewrite Hlt. }
  rewrite H0. simpl. unfold silence_rows, SerializerSpec.trailing.
  destruct songlen as [len|]; [|by rewrite app_nil_r].
  destruct (truthy len); [|by rewrite app_nil_r].
  rewrite getitem_minus_one, Hlast; [done|].
  intros ->. done.
Qed.

Lemma segment_row_fields (l : list (time * time * Z)) body :
  mapM segment_row l = Some body →
  SerializerSpec.fields body = (λ x, (Serializer.At x.1.1, x.1.2)) <$> l.
Proof.
  intros H%mapM_Some. unfold SerializerSpec.fields.
  induction H as [|[[s e] lab] r l body Hr _ IH]; [done|].
  rewrite !fmap_cons, IH. f_equal. unfold segment_row in Hr.
  destruct (Np.getitem _ _); [|done]. by injection Hr as <-.
Qed.

Lemma segment_row_total (l : list (time * time * Z)) :
  (∀ x, x ∈ l → 0 ≤ x.2 < 26) →
  ∃ body, mapM segment_row l = Some body ∧ length body = length l.
Proof.
  intros Hr.
  assert (His : is_Some (mapM segment_row l)).
  { apply mapM_is_Some, list.Forall_forall. intros [[s e] lab] Hx.
    apply Hr in Hx. simpl in Hx. unfold segment_row. simpl.
    destruct (getitem_in_range Serializer.alphabet lab) as [sym ->];
      [simpl; lia|by eexists]. }
  destruct His as [body Hb]. exists body. split; [done|].
  symmetry. by eapply length_mapM.
Qed.

Lemma segment_row_lookup (starts ends : list time) (sl : list Z) body i r :
  mapM segment_row (zip (zip starts ends) sl) = Some body →
  body !! i = Some r →
  ∃ s e, starts !! i = Some s ∧ ends !! i = Some e ∧
         Serializer.r_start r = Serializer.At s ∧ Serializer.r_end r = e.
Proof.
  intros Hb%segment_row_fields Hr.
  assert (Hf : SerializerSpec.fields body !! i
               = Some (Serializer.r_start r, Serializer.r_end r))
    by (unfold SerializerSpec.fields; by rewrite list_lookup_fmap, Hr).
  rewrite Hb, list_lookup_fmap in Hf.
  destruct (zip (zip starts ends) sl !! i) as [[[s e] lab]|] eqn:Hz; [|done].
  apply lookup_zip_Some in Hz as [Hz _]. apply lookup_zip_Some in Hz as [Hs He].
  simpl in Hf. injection Hf as <- <-. by exists s, e.
Qed.

(** C9 (as amended). For a non-empty label sequence with labels in
    0..24 and as many frame times, the output starts with a silence line
    from the literal 0.0 to the start of the first segment (the first
    frame time), whose symbol is the letter one past the highest label of
    the sequence; one line per segment follows; and a last silence line
    from the end of the last segment (the last frame time) to [songlen],
    with the same symbol, is appended exactly when [songlen] is given and
    is true for Python, that is, not zero. *)
Theorem convert_labels_to_segments_silence
    (labels : list Z) (ft : list time) (songlen : option time) :
  labels ≠ [] → length ft = length labels →
  (∀ l, l ∈ labels → 0 ≤ l < 25) →
  ∃ first last_ top sil body,
    ft !! 0%nat = Some first ∧ list.last ft = Some last_ ∧
    top ∈ labels ∧ (∀ l, l ∈ labels → l ≤ top) ∧
    Serializer.alphabet !! Z.to_nat (top + 1) = Some sil ∧
    length body = S (length (Merger.segment_borders labels)) ∧
    (∃ r, body !! 0%nat = Some r ∧ Serializer.r_start r = Serializer.At first) ∧
    (∃ r, list.last body = Some r ∧ Serializer.r_end r = last_) ∧
    let rows :=
      Serializer.Row Serializer.Literal0 first sil :: body ++
      match songlen with
      | Some len =>
          if truthy len then [Serializer.Row (Serializer.At last_) len sil] else []
      | None => []
      end in
    Serializer.segment_rows truthy labels ft songlen = Some rows ∧
    Serializer.convert_labels_to_segments fmt4 truthy labels ft songlen
    = Some (String.concat Serializer.newline
              ((Serializer.render fmt4 <$> rows) ++ [""])).
Proof.
  intros Hne Hlen Hrange.
  destruct (segment_spans_shape labels ft Hne Hlen)
    as (bt & sl & first & last_ & Hsp & Hbl & Hsl & Hslt & Hbt & Hb0 & Hf0 & Hbl' & Hfl).
  assert (Hs0 : Np.but_last bt !! 0%nat = Some first)
    by (apply lookup_but_last; split; [done|lia]).
  assert (Hel : list.last (Np.from_1 bt) = Some last_).
  { rewrite last_lookup, length_from_1, lookup_from_1.
    rewrite last_lookup in Hbl'. rewrite <- Hbl'. f_equal. lia. }
  pose proof (segment_rows_unfold labels ft songlen _ _ _ _ _ Hsp Hs0 Hel) as Hrows.
  destruct (Np.max_int sl) as [top|] eqn:Hmax; [|by destruct sl].
  destruct (seglabels_max labels sl top Hne Hsl Hslt Hmax) as (Hsub & Htop & Hle).
  destruct (segment_row_total (zip (zip (Np.but_last bt) (Np.from_1 bt)) sl))
    as (body & Hbody & Hblen).
  { intros [[s e] lab] Hx%elem_of_zip_r. apply Hsub, Hrange in Hx. simpl. lia. }
  rewrite !length_zip, length_but_last, length_from_1 in Hblen.
  pose proof (Hrange top Htop) as Ht.
  destruct (lookup_lt_is_Some_2 Serializer.alphabet (Z.to_nat (top + 1)))
    as [sil Hsil]; [simpl; lia|].
  assert (Hgs : Np.getitem Serializer.alphabet (top + 1) = Some sil).
  { rewrite getitem_nonneg by lia.
    assert (Hlt : (top + 1 <? Z.of_nat (length Serializer.alphabet)) = true)
      by (apply Z.ltb_lt; simpl; lia).
    by rewrite Hlt. }
  rewrite Hbody in Hrows. cbn [mbind option_bind] in Hrows.
  rewrite Hgs in Hrows. cbn [mbind option_bind] in Hrows.
  exists first, last_, top, sil, body. split_and!; try done.
  - lia.
  - destruct (lookup_lt_is_Some_2 body 0) as [r Hr]; [lia|].
    exists r. split; [done|].
    destruct (segment_row_lookup _ _ _ _ _ _ Hbody Hr) as (s & e & Hs & _ & -> & _).
    rewrite Hs0 in Hs. by injection Hs as <-.
  - destruct (list.last body) as [r|] eqn:Hr.
    2:{ apply last_None in Hr. subst body. simpl in Hblen. lia. }
    exists r. split; [done|]. rewrite last_lookup in Hr.
    destruct (segment_row_lookup _ _ _ _ _ _ Hbody Hr) as (s & e & _ & He & _ & ->).
    rewrite last_lookup, length_from_1 in Hel.
    replace (Init.Nat.pred (length body)) with (Init.Nat.pred (Init.Nat.pred (length bt)))
      in He by lia.
    rewrite Hel in He. by injection He.
  - simpl. unfold Serializer.convert_labels_to_segments.
    assert (Hrows' : Serializer.segment_rows truthy labels ft songlen = Some
      (Serializer.Row Serializer.Literal0 first sil :: body ++
       match songlen with
       | Some len =>
           if truthy len then [Serializer.Row (Serializer.At last_) len sil] else []
       | None => []
       end)).
    { rewrite Hrows. unfold silence_rows, SerializerSpec.trailing.
      destruct songlen as [len|]; [|done]. by destruct (truthy len). }
    rewrite Hrows'. done.
Qed.

(** The time an output line starts at; the literal [0.0] of the leading
    silence line stands for [tzero]. *)
Variable tzero : time.

Definition start_time (r : Serializer.row time) : time :=
  match Serializer.r_start r with
  | Serializer.Literal0 => tzero
  | Serializer.At t => t
  end.

(** A list of times in which no entry is later than a following one. *)
Definition ascending (l : list time) : Prop :=
  ∀ j k a b, (j ≤ k)%nat → l !! j = Some a → l !! k = Some b → tle a b.

Lemma ascending_cons (x : time) (l : list time) :
  (∀ y, l !! 0%nat = Some y → tle x y) → ascending l → ascending (x :: l).
Proof.
  intros Hx Hl [|j] [|k] a b Hjk Ha Hb; simpl in *.
  - injection Ha as <-. injection Hb as <-. by right.
  - injection Ha as <-.
    destruct (lookup_lt_is_Some_2 l 0) as [y Hy];
      [apply lookup_lt_Some in Hb; lia|].
    eapply tle_trans; [by apply Hx|]. by apply (Hl 0%nat k); [lia|..].
  - lia.
  - by apply (Hl j k); [lia|..].
Qed.

Lemma ascending_snoc (l : list time) (y : time) :
  ascending l → (∀ z, list.last l = Some z → tle z y) → ascending (l ++ [y]).
Proof.
  intros Hl Hy j k a b Hjk Ha Hb.
  apply lookup_app_Some in Hb as [Hb|[Hk Hb]].
  - rewrite lookup_app_l in Ha by (apply lookup_lt_Some in Hb; lia).
    by apply (Hl j k).
  - apply list_lookup_singleton_Some in Hb as [Hk' <-].
    apply lookup_app_Some in Ha as [Ha|[_ Ha]].
    + destruct (list.last l) as [z|] eqn:Hz.
      * eapply tle_trans; [|by apply Hy]. rewrite last_lookup in Hz.
        apply (Hl j (Init.Nat.pred (length l))); [|done|done].
        apply lookup_lt_Some in Ha. lia.
      * apply last_None in Hz. subst l. done.
    + apply list_lookup_singleton_Some in Ha as [_ <-]. by right.
Qed.

(** C4 (as amended). For a label sequence of at least two frames with
    labels in 0..24, a strictly increasing array of as many frame times
    whose first entry is not negative, and a song length that is absent,
    false for Python, or not before the last frame time,
    [convert_labels_to_segments] emits a text.  Its lines are the leading
    silence line from 0.0 to the first frame time, one line per segment,
    and the trailing silence line when the song length asks for it.  No
    line is inverted, every line starts where the line before it ends, no
    line starts before an earlier one has ended, and the segment lines
    (without the silence lines) together cover exactly the interval from
    the first to the last frame time. *)
Theorem convert_labels_to_segments_spans
    (labels : list Z) (ft : list time) (songlen : option time) :
  (2 ≤ length labels)%nat → length ft = length labels → increasing ft →
  (∀ l, l ∈ labels → 0 ≤ l < 25) →
  (∀ first, ft !! 0%nat = Some first → tle tzero first) →
  (∀ len last_, SerializerSpec.trailing truthy songlen = Some len →
                list.last ft = Some last_ → tle last_ len) →
  ∃ first last_ lead body,
    ft !! 0%nat = Some first ∧ list.last ft = Some last_ ∧
    Serializer.r_start lead = Serializer.Literal0 ∧
    Serializer.r_end lead = first ∧
    length body = S (length (Merger.segment_borders labels)) ∧
    let rows :=
      lead :: body ++
      match SerializerSpec.trailing truthy songlen with
      | Some len => [Serializer.Row (Serializer.At last_) len
                       (Serializer.r_symbol lead)]
      | None => []
      end in
    Serializer.segment_rows truthy labels ft songlen = Some rows ∧
    Serializer.convert_labels_to_segments fmt4 truthy labels ft songlen
    = Some (String.concat Serializer.newline
              ((Serializer.render fmt4 <$> rows) ++ [""])) ∧
    (∀ r, r ∈ rows → tle (start_time r) (Serializer.r_end r)) ∧
    (∀ i r r', rows !! i = Some r → rows !! S i = Some r' →
               Serializer.r_start r' = Serializer.At (Serializer.r_end r)) ∧
    (∀ i j r r', (i < j)%nat → rows !! i = Some r → rows !! j = Some r' →
                 tle (Serializer.r_end r) (start_time r')) ∧
    (∀ t, (∃ r, r ∈ body ∧ covers (start_time r) (Serializer.r_end r) t)
          ↔ covers first last_ t).
Proof.
  intros Hn Hlen Hinc Hrange Hzero Hsong.
  assert (Hne : labels ≠ []) by (intros ->; simpl in Hn; lia).
  destruct (segment_spans_shape labels ft Hne Hlen)
    as (bt & sl & first & last_ & Hsp & Hbl & Hsl & Hslt & Hbt & Hb0 & Hf0 & Hbl' & Hfl).
  assert (Hmono : ascending bt).
  { unfold ascending. apply (boundary_times_sorted labels ft bt Hne Hinc Hbt).
    rewrite length_boundaryidx. lia. }
  assert (Hs0 : Np.but_last bt !! 0%nat = Some first)
    by (apply lookup_but_last; split; [done|lia]).
  assert (Hel : list.last (Np.from_1 bt) = Some last_).
  { rewrite last_lookup, length_from_1, lookup_from_1.
    rewrite last_lookup in Hbl'. rewrite <- Hbl'. f_equal. lia. }
  pose proof (segment_rows_unfold labels ft songlen _ _ _ _ _ Hsp Hs0 Hel) as Hrows.
  destruct (Np.max_int sl) as [top|] eqn:Hmax; [|by destruct sl].
  destruct (seglabels_max labels sl top Hne Hsl Hslt Hmax) as (Hsub & Htop & _).
  destruct (segment_row_total (zip (zip (Np.but_last bt) (Np.from_1 bt)) sl))
    as (body & Hbody & Hblen).
  { intros [[s e] lab] Hx%elem_of_zip_r. apply Hsub, Hrange in Hx. simpl. lia. }
  rewrite !length_zip, length_but_last, length_from_1 in Hblen.
  pose proof (Hrange top Htop) as Ht.
  destruct (getitem_in_range Serializer.alphabet (top + 1)) as [sil Hsil];
    [simpl; lia|].
  rewrite Hbody in Hrows. cbn [mbind option_bind] in Hrows.
  rewrite Hsil in Hrows. cbn [mbind option_bind] in Hrows.
  unfold silence_rows in Hrows.
  set (lead := Serializer.Row Serializer.Literal0 first sil) in *.
  set (tr := SerializerSpec.trailing truthy songlen) in *.
  set (tail_ := match tr with
                | Some len => [Serializer.Row (Serializer.At last_) len sil]
                | None => []
                end) in *.
  set (rows := lead :: body ++ tail_) in *.
  (* the times the lines run through, in order *)
  set (chain := tzero :: bt ++ match tr with Some len => [len] | None => [] end).
  assert (Hchain : ascending chain).
  { apply ascending_cons.
    - intros y Hy. rewrite lookup_app_l in Hy by lia.
      rewrite Hb0 in Hy. injection Hy as <-. by apply Hzero.
    - destruct tr as [len|] eqn:Htr; [|by rewrite app_nil_r].
      apply ascending_snoc; [done|].
      intros z Hz. rewrite Hbl' in Hz. injection Hz as <-. by apply Hsong. }
  assert (Hline : ∀ i r, rows !! i = Some r →
            chain !! i = Some (start_time r) ∧
            chain !! S i = Some (Serializer.r_end r) ∧
            (i ≠ 0%nat → Serializer.r_start r = Serializer.At (start_time r))).
  { intros [|i] r Hr; simpl in Hr.
    - injection Hr as <-. split_and!; [done| |done].
      simpl. by rewrite lookup_app_l by lia.
    - apply lookup_app_Some in Hr as [Hr|[Hge Hr]].
      + destruct (segment_row_lookup _ _ _ _ _ _ Hbody Hr)
          as (s & e & [Hs _]%lookup_but_last & He & Hrs & Hre).
        rewrite lookup_from_1 in He.
        assert (Hst : start_time r = s) by (unfold start_time; by rewrite Hrs).
        rewrite Hst, Hre. split_and!; [| |done].
        * simpl. rewrite lookup_app_l by (apply lookup_lt_Some in Hs; lia). done.
        * simpl. rewrite lookup_app_l by (apply lookup_lt_Some in He; lia). done.
      + subst tail_. destruct tr as [len|]; [|done].
        apply list_lookup_singleton_Some in Hr as [Hi <-].
        assert (i = length body) as -> by lia.
        cbn [start_time Serializer.r_start Serializer.r_end]. split_and!; [| |done].
        * simpl. rewrite lookup_app_l by lia.
          rewrite last_lookup in Hbl'. rewrite <- Hbl'. f_equal. lia.
        * simpl. rewrite lookup_app_r by lia.
          replace (S (length body) - length bt)%nat with 0%nat by lia. done. }
  exists first, last_, lead, body.
  split_and!; try done; [lia|].
  cbv zeta. fold tr. change (Serializer.r_symbol lead) with sil. fold tail_. fold rows.
  split_and!.
  - done.
  - unfold Serializer.convert_labels_to_segments. by rewrite Hrows.
  - intros r [i Hr]%list_elem_of_lookup_1.
    destruct (Hline i r Hr) as (Ha & Hb & _).
    by apply (Hchain i (S i)); [lia|..].
  - intros i r r' Hr Hr'.
    destruct (Hline i r Hr) as (_ & Hb & _).
    destruct (Hline (S i) r' Hr') as (Ha & _ & Hat).
    rewrite Hat by done. f_equal. congruence.
  - intros i j r r' Hij Hr Hr'.
    destruct (Hline i r Hr) as (_ & Hb & _).
    destruct (Hline j r' Hr') as (Ha & _ & _).
    by apply (Hchain (S i) j); [lia|..].
  - intros t. split.
    + intros (r & [i Hr]%list_elem_of_lookup_1 & Hst & Hte).
      assert (Hrow : rows !! S i = Some r).
      { subst rows. simpl. by rewrite lookup_app_l by (by eapply lookup_lt_Some). }
      destruct (Hline (S i) r Hrow) as (Ha & Hb & _).
      apply lookup_lt_Some in Hr.
      simpl in Ha, Hb. rewrite lookup_app_l in Ha, Hb by lia.
      rewrite last_lookup in Hbl'. split.
      * eapply tle_trans; [|done]. by apply (Hmono 0%nat i); [lia|..].
      * eapply tle_trans; [done|].
        by apply (Hmono (S i) (Init.Nat.pred (length bt))); [lia|..].
    + intros [Hft Htl].
      assert (∃ l, bt = first :: l) as [l Hbteq].
      { destruct bt as [|x l]; [done|]. simpl in Hb0. injection Hb0 as ->.
        by exists l. }
      destruct (neighbours_cover l first t) as (i & s & e & Hs & He & Hc).
      * intros ->. rewrite Hbteq in Hbl. simpl in Hbl. lia.
      * done.
      * exists last_. by rewrite <- Hbteq.
      * rewrite <- Hbteq in Hs, He.
        destruct (lookup_lt_is_Some_2 body i) as [r Hr].
        { apply lookup_lt_Some in He. lia. }
        assert (Hrow : rows !! S i = Some r).
        { subst rows. simpl. by rewrite lookup_app_l by (by eapply lookup_lt_Some). }
        destruct (Hline (S i) r Hrow) as (Ha & Hb & _).
        pose proof (lookup_lt_Some _ _ _ Hr) as Hri.
        assert (Ha' : bt !! i = Some (start_time r)).
        { rewrite <- Ha. subst chain. simpl. by rewrite lookup_app_l by lia. }
        assert (Hb' : bt !! S i = Some (Serializer.r_end r)).
        { rewrite <- Hb. subst chain. simpl. by rewrite lookup_app_l by lia. }
        exists r. split; [by eapply list_elem_of_lookup_2|].
        replace (start_time r) with s by congruence.
        replace (Serializer.r_end r) with e by congruence. done.
Qed.

End SerializerFacts.

Lemma demo_times_increasing : SerializerSpec.increasing Z.lt [1;2;3;4;5;6].
Proof.
  intros i x y Hx Hy.
  do 6 (destruct i as [|i]; [simpl in *; simplify_eq; lia|]). done.
Qed.

Lemma demo_labels_in_alphabet (l : Z) : l ∈ [0;0;1;1;1;0] → 0 ≤ l < 25.
Proof.
  intros Hl. repeat (apply elem_of_cons in Hl as [->|Hl]; [lia|]).
  by apply elem_of_nil in Hl.
Qed.

(** Six frames one second apart, labelled A A B B B A, in a song of nine
    seconds. *)
Lemma convert_labels_to_segments_spans_witness :
  ∃ first last_ lead body,
    [1;2;3;4;5;6] !! 0%nat = Some first ∧ list.last [1;2;3;4;5;6] = Some last_ ∧
    Serializer.r_start lead = Serializer.Literal0 ∧
    Serializer.r_end lead = first ∧
    length body = S (length (Merger.segment_borders [0;0;1;1;1;0])) ∧
    let rows :=
      lead :: body ++
      match SerializerSpec.trailing SecondsDemo.truthy (Some 9) with
      | Some len => [Serializer.Row (Serializer.At last_) len
                       (Serializer.r_symbol lead)]
      | None => []
      end in
    Serializer.segment_rows SecondsDemo.truthy [0;0;1;1;1;0] [1;2;3;4;5;6] (Some 9)
    = Some rows ∧
    Serializer.convert_labels_to_segments SecondsDemo.fmt4 SecondsDemo.truthy
      [0;0;1;1;1;0] [1;2;3;4;5;6] (Some 9)
    = Some (String.concat Serializer.newline
              ((Serializer.render SecondsDemo.fmt4 <$> rows) ++ [""])) ∧
    (∀ r, r ∈ rows → SerializerSpec.tle Z.lt (start_time 0 r) (Serializer.r_end r)) ∧
    (∀ i r r', rows !! i = Some r → rows !! S i = Some r' →
               Serializer.r_start r' = Serializer.At (Serializer.r_end r)) ∧
    (∀ i j r r', (i < j)%nat → rows !! i = Some r → rows !! j = Some r' →
                 SerializerSpec.tle Z.lt (Serializer.r_end r) (start_time 0 r')) ∧
    (∀ t, (∃ r, r ∈ body ∧
                SerializerSpec.covers Z.lt (start_time 0 r) (Serializer.r_end r) t)
          ↔ SerializerSpec.covers Z.lt first last_ t).
Proof.
  apply (convert_labels_to_segments_spans SecondsDemo.fmt4 SecondsDemo.truthy
           Z.lt Z.lt_trans Z.lt_total 0 [0;0;1;1;1;0] [1;2;3;4;5;6] (Some 9)).
  - simpl. lia.
  - reflexivity.
  - exact demo_times_increasing.
  - exact demo_labels_in_alphabet.
  - intros first [= <-]. left. lia.
  - intros len last_ [= <-] [= <-]. left. lia.
Defined.

(** C4, as stated, fails in three ways.  With label 25 in the sequence
    nothing is emitted at all (IndexError for the silence symbol).  With
    a negative first frame time the leading silence line runs from 0.0
    back to that time.  And with a song length before the last frame
    time the trailing silence line runs backwards, into the last
    segment. *)
Lemma convert_labels_to_segments_spans_fails :
  (SerializerSpec.increasing Z.lt [1;2] ∧
   ∀ songlen,
     Serializer.convert_labels_to_segments SecondsDemo.fmt4 SecondsDemo.truthy
       [0;25] [1;2] songlen = None) ∧
  (SerializerSpec.increasing Z.lt [-3;-2] ∧
   Serializer.segment_rows SecondsDemo.truthy [0;0] [-3;-2] None
   = Some [Serializer.Row Serializer.Literal0 (-3) "B"%char;
           Serializer.Row (Serializer.At (-3)) (-2) "A"%char] ∧
   ¬ SerializerSpec.tle Z.lt 0 (-3)) ∧
  (Serializer.segment_rows SecondsDemo.truthy [0;0;1;1;1;0] [1;2;3;4;5;6] (Some 5)
   = Some [Serializer.Row Serializer.Literal0 1 "C"%char;
           Serializer.Row (Serializer.At 1) 2 "A"%char;
           Serializer.Row (Serializer.At 2) 5 "B"%char;
           Serializer.Row (Serializer.At 5) 6 "A"%char;
           Serializer.Row (Serializer.At 6) 5 "C"%char] ∧
   ¬ SerializerSpec.tle Z.lt 6 5).
Proof.
  split_and!; try reflexivity.
  - intros [|[|i]] x y Hx Hy; simpl in *; simplify_eq; lia.
  - intros [|[|i]] x y Hx Hy; simpl in *; simplify_eq; lia.
  - intros [?| ?]; lia.
  - intros [?| ?]; lia.
Qed.

(** The same sequence with a song length of nine seconds. *)
Lemma convert_labels_to_segments_silence_witness :
  ∃ first last_ top sil body,
    [1;2;3;4;5;6] !! 0%nat = Some first ∧ list.last [1;2;3;4;5;6] = Some last_ ∧
    top ∈ [0;0;1;1;1;0] ∧ (∀ l, l ∈ [0;0;1;1;1;0] → l ≤ top) ∧
    Serializer.alphabet !! Z.to_nat (top + 1) = Some sil ∧
    length body = S (length (Merger.segment_borders [0;0;1;1;1;0])) ∧
    (∃ r, body !! 0%nat = Some r ∧ Serializer.r_start r = Serializer.At first) ∧
    (∃ r, list.last body = Some r ∧ Serializer.r_end r = last_) ∧
    let rows :=
      Serializer.Row Serializer.Literal0 first sil :: body ++
      match Some 9 with
      | Some len =>
          if SecondsDemo.truthy len
          then [Serializer.Row (Serializer.At last_) len sil] else []
      | None => []
      end in
    Serializer.segment_rows SecondsDemo.truthy [0;0;1;1;1;0] [1;2;3;4;5;6] (Some 9)
    = Some rows ∧
    Serializer.convert_labels_to_segments SecondsDemo.fmt4 SecondsDemo.truthy
      [0;0;1;1;1;0] [1;2;3;4;5;6] (Some 9)
    = Some (String.concat Serializer.newline
              ((Serializer.render SecondsDemo.fmt4 <$> rows) ++ [""])).
Proof.
  apply (convert_labels_to_segments_silence SecondsDemo.fmt4 SecondsDemo.truthy
           [0;0;1;1;1;0] [1;2;3;4;5;6] (Some 9)).
  - discriminate.
  - reflexivity.
  - exact demo_labels_in_alphabet.
Defined.

(** C9, as stated, fails in two ways.  A song length of zero is supplied
    but false for [if songlen:], so no trailing silence line is written:
    the lines are those of a call without a song length.  And with label
    25 in the sequence there is no letter one past the highest label:
    the lookup raises IndexError and nothing is written at all. *)
Lemma convert_labels_to_segments_silence_fails :
  (Serializer.segment_rows SecondsDemo.truthy [0;0] [1;2] (Some 0)
   = Some [Serializer.Row Serializer.Literal0 1 "B"%char;
           Serializer.Row (Serializer.At 1) 2 "A"%char] ∧
   Serializer.segment_rows SecondsDemo.truthy [0;0] [1;2] None
   = Serializer.segment_rows SecondsDemo.truthy [0;0] [1;2] (Some 0) ∧
   ¬ ∃ pre sil,
       Serializer.segment_rows SecondsDemo.truthy [0;0] [1;2] (Some 0)
       = Some (pre ++ [Serializer.Row (Serializer.At 2) 0 sil])) ∧
  Serializer.segment_rows SecondsDemo.truthy [25;25] [1;2] (Some 9) = None.
Proof.
  split_and!; try reflexivity.
  intros (pre & sil & H). vm_compute in H. injection H as H.
  destruct pre as [|r0 [|r1 [|r2 pre]]]; simplify_eq.
Qed.

(* --------------------------------------------------------------------- *)
(* nmf_analysis_to_segmentation and                                       *)
(* nmf_analysis_to_segmentation_using_viterbi_path (lines 282-353)        *)
(* --------------------------------------------------------------------- *)
(* [W] has shape (F, rank, win), [Z] is a vector and [H] a list of rows,
   one per pattern.  [plca.SIPLCA.reconstruct] belongs to the engine and
   is a parameter: it maps one pattern's basis, weight and activation to
   an array with one column per frame. *)

Module Extractor.
Section Extractor.
Context {A : Type} {ops : FloatOps A}.
Variable reconstruct : Arr.Array2 A → A → list A → Arr.Array2 A.

(** [np.ones(n)] *)
Definition ones (n : Z) : option (list A) :=
  if n <? 0 then None else Some (replicate (Z.to_nat n) fone).

(** The sliding dot products behind [np.correlate]: entry [i] of the
    result adds [a[j] * v[j - i + n_left]] over the [j] for which both
    indices exist, in ascending order of [j]. *)
Definition correlate_core (a v : list A) (n_left len : nat) : list A :=
  (λ i, foldl (λ acc j,
                 match a !! j with
                 | Some x =>
                     if (i <=? j + n_left)%nat then
                       match v !! (j + n_left - i)%nat with
                       | Some y => fadd acc (fmul x y)
                       | None => acc
                       end
                     else acc
                 | None => acc
                 end) fzero (seq 0 (length a))) <$> seq 0 len.

(** [np.convolve(a, v, 'same')]: the longer argument comes first, an
    empty argument raises ValueError, and the result has the length of
    the longer argument. *)
Definition convolve_same (a v : list A) : option (list A) :=
  let '(a, v) := if (length a <? length v)%nat then (v, a) else (a, v) in
  match a, v with
  | [], _ | _, [] => None
  | _, _ => Some (correlate_core a (reverse v) (length v / 2)%nat (length a))
  end.

(** [np.correlate(x, y, mode='full')] *)
Definition correlate_full (x y : list A) : option (list A) :=
  match x, y with
  | [], _ | _, [] => None
  | _, _ =>
      let len := (length x + length y - 1)%nat in
      if (length x <? length y)%nat
      then Some (reverse (correlate_core y x (length x - 1)%nat len))
      else Some (correlate_core x y (length y - 1)%nat len)
  end.

(** [np.correlate(x, y, mode='full')[:2*win].max()] *)
Definition peak_correlation (win : Z) (x y : list A) : option A :=
  c ← correlate_full x y;
  Arr.amax (take (Z.to_nat (Np.slice_bound (Z.of_nat (length c)) (2 * win))) c).

(** The matrix [C] of line 301, row by row. *)
Definition correlation_matrix (win : Z) (segfun : list (list A))
  : option (list (list A)) :=
  mapM (M := option) (λ x, mapM (M := option) (λ y, peak_correlation win x y) segfun) segfun.

(** [if not use_Z_for_segmentation: Z = np.ones(Z.shape)] *)
Definition effective_Z (use_Z_for_segmentation : bool) (Zv : list A) : list A :=
  if use_Z_for_segmentation then Zv else replicate (length Zv) fone.

(** Column [t] of a list of rows. *)
Definition column (rows : list (list A)) (t : nat) : list A :=
  (λ row : list A, default fzero (row !! t)) <$> rows.

(** [np.argmax(segfun, 0)] *)
Definition argmax_axis0 (rows : list (list A)) : option (list Z) :=
  mapM (M := option) (λ t, k ← Arr.argmax (column rows t); Some (Z.of_nat k))
       (seq 0 (length (default [] (head rows)))).

(** [segfun /= top] *)
Definition divide_all (segfun : list (list A)) (top : A) : list (list A) :=
  (λ row : list A, (λ x, fdiv x top) <$> row) <$> segfun.

(** [np.log] of a list of rows. *)
Definition log_all (rows : list (list A)) : list (list A) :=
  (λ row : list A, flog <$> row) <$> rows.

Definition nmf_analysis_to_segmentation (seq : Arr.Array2 A) (win : Z)
    (W : Arr.Array3 A) (Zv : list A) (H : list (list A))
    (min_segment_length : Z) (use_Z_for_segmentation : bool)
  : option (list Z * list (list A)) :=
  let Zv := effective_Z use_Z_for_segmentation Zv in
  (* for n, (w, z, h) in enumerate(zip(np.transpose(W, (1, 0, 2)), Z, H)) *)
  segfun ← (mapM (λ x : nat * (A * list A),
                     let reconz := reconstruct (Arr.slice1 W x.1) x.2.1 x.2.2 in
                     let score := Arr.sum_axis0 reconz in
                     kernel ← ones min_segment_length;
                     convolve_same score kernel)
                  (zip (List.seq 0 (Arr.dim1 W)) (zip Zv H))
             : option (list (list A)));
  C ← correlation_matrix win segfun;
  (* segfun /= segfun.max() *)
  top ← Arr.amax (concat segfun);
  let segfun := divide_all segfun top in
  labels ← argmax_axis0 segfun;
  labels ← Merger.remove_short_segments labels min_segment_length;
  Some (labels, segfun).

(** [likelihood[z] = ...]: a row of [T] entries receives a vector of the
    same length, or a single value that is broadcast. *)
Definition assign_row (T : nat) (v : list A) : option (list A) :=
  if (length v =? T)%nat then Some v
  else match v with
       | [x] => Some (replicate T x)
       | _ => None
       end.

(** [transmat]: [selfloopprob] on the diagonal,
    [(1 - selfloopprob) / (rank - 1 + eps)] elsewhere. *)
Definition transmat (rank : nat) (selfloopprob : A) : list (list A) :=
  (λ z, (λ j, if (j =? z)%nat then selfloopprob
              else fdiv (fsub (of_int 1) selfloopprob)
                        (fadd (of_int (Z.of_nat rank - 1)) feps))
        <$> List.seq 0 rank) <$> List.seq 0 rank.

(** [pr = logtransmat.T + lattice[:, n-1]]: row [i] holds
    [logtransmat[j][i] + lattice[j][n-1]] for each [j]. *)
Definition pr_rows (logtransmat : list (list A)) (prev : list A) : list (list A) :=
  (λ i, zip_with (λ trow l, fadd (default fzero (trow !! i)) l) logtransmat prev)
  <$> List.seq 0 (length logtransmat).

(** One pass of [for n in xrange(1, T)]: the next lattice and traceback
    columns from the previous lattice column and the emissions of frame
    [n]. *)
Definition viterbi_step (logtransmat : list (list A)) (prev emit : list A)
  : option (list A * list nat) :=
  let pr := pr_rows logtransmat prev in
  best ← mapM (M := option) Arr.amax pr;
  back ← mapM (M := option) Arr.argmax pr;
  Some (zip_with fadd best emit, back).

(** The lattice and traceback columns for frames [n, n+1, ...], the
    latest first, given the column of frame [n - 1]. *)
Fixpoint viterbi_forward (logtransmat : list (list A)) (prev : list A)
    (emits : list (list A)) (acc : list (list A * list nat))
  : option (list (list A * list nat)) :=
  match emits with
  | [] => Some acc
  | emit :: rest =>
      '(col, back) ← viterbi_step logtransmat prev emit;
      viterbi_forward logtransmat col rest ((col, back) :: acc)
  end.

(** [for frame in reversed(traceback.T): append(s); s = frame[s]] *)
Fixpoint backtrack (frames : list (list nat)) (s : nat) : option (list nat) :=
  match frames with
  | [] => Some []
  | frame :: rest =>
      s' ← frame !! s;
      path ← backtrack rest s';
      Some (s :: path)
  end.

Definition nmf_analysis_to_segmentation_using_viterbi_path
    (seq : Arr.Array2 A) (win : Z)
    (W : Arr.Array3 A) (Zv : list A) (H : list (list A))
    (selfloopprob : A) (use_Z_for_segmentation : bool) (min_segment_length : Z)
  : option (list Z * list (list A)) :=
  let Zv := effective_Z use_Z_for_segmentation Zv in
  let rank := length Zv in
  (* T = H.shape[1] *)
  let T := length (default [] (head H)) in
  likelihood ← mapM (M := option) (λ z,
                  (* W[:, z] needs z < W.shape[1] *)
                  guard (z < Arr.dim1 W)%nat;;
                  zz ← Zv !! z;
                  h ← H !! z;
                  assign_row T (Arr.sum_axis0 (reconstruct (Arr.slice1 W z) zz h)))
                (List.seq 0 rank);
  let loglikelihood := log_all likelihood in
  let logtransmat := log_all (transmat rank selfloopprob) in
  (* lattice[0] = loglikelihood[0]: row 0 of the lattice; of frame 0 only
     this row is set, the other entries stay 0.0 *)
  row0 ← loglikelihood !! 0%nat;
  let col0 := (λ z, if (z =? 0)%nat then default fzero (row0 !! 0%nat) else fzero)
              <$> List.seq 0 rank in
  let back0 := replicate rank 0%nat in
  cols ← viterbi_forward logtransmat col0
           ((λ n, column loglikelihood n) <$> List.seq 1 (T - 1))
           [(col0, back0)];
  (* s = lattice[:, -1].argmax(): no last frame when T = 0 *)
  guard (0 < T)%nat;;
  '(last_col, _) ← head cols;
  s ← Arr.argmax last_col;
  reverse_state_sequence ← backtrack (snd <$> cols) s;
  let labels := Z.of_nat <$> reverse reverse_state_sequence in
  labels ← Merger.remove_short_segments labels min_segment_length;
  Some (labels, likelihood).

End Extractor.
End Extractor.

(* --------------------------------------------------------------------- *)
(* The segmentation extractors: properties                                *)
(* --------------------------------------------------------------------- *)

Lemma mapM_total {X Y : Type} (f : X → option Y) (P : Y → Prop) (l : list X) :
  (∀ x, x ∈ l → ∃ y, f x = Some y ∧ P y) →
  ∃ k, mapM f l = Some k ∧ length k = length l ∧ Forall P k.
Proof.
  induction l as [|x l IH]; intros Hf.
  - exists []. by split_and!.
  - destruct (Hf x ltac:(left)) as (y & Hy & HP).
    destruct IH as (k & Hk & Hlen & HPk); [intros x' Hx'; apply Hf; by right|].
    exists (y :: k). split_and!.
    + cbn. rewrite Hy. cbn. by rewrite Hk.
    + simpl. by rewrite Hlen.
    + by constructor.
Qed.

Section ExtractorFacts.
Context {A : Type} {ops : FloatOps A}.
Variable reconstruct : Arr.Array2 A → A → list A → Arr.Array2 A.

Lemma length_correlate_core (a v : list A) (n_left len : nat) :
  length (Extractor.correlate_core a v n_left len) = len.
Proof. unfold Extractor.correlate_core. by rewrite length_fmap, length_seq. Qed.

Lemma convolve_same_length (a v : list A) :
  a ≠ [] → v ≠ [] →
  ∃ out, Extractor.convolve_same a v = Some out ∧
         length out = Nat.max (length a) (length v).
Proof.
  intros Ha Hv. unfold Extractor.convolve_same.
  destruct (Nat.ltb_spec (length a) (length v)).
  - destruct v as [|y v]; [done|]. destruct a as [|x a]; [done|].
    eexists. split; [done|]. rewrite length_correlate_core. lia.
  - destruct a as [|x a]; [done|]. destruct v as [|y v]; [done|].
    eexists. split; [done|]. rewrite length_correlate_core. lia.
Qed.

Lemma amax_is_Some (v : list A) : v ≠ [] → is_Some (Arr.amax v).
Proof. destruct v; [done|]. by eexists. Qed.

Lemma peak_correlation_is_Some (win : Z) (x y : list A) :
  1 ≤ win → x ≠ [] → y ≠ [] → is_Some (Extractor.peak_correlation win x y).
Proof.
  intros Hw Hx Hy. unfold Extractor.peak_correlation.
  assert (Hc : ∃ c, Extractor.correlate_full x y = Some c ∧ (1 ≤ length c)%nat).
  { unfold Extractor.correlate_full.
    destruct x as [|x0 x]; [done|]. destruct y as [|y0 y]; [done|].
    destruct (_ <? _)%nat; eexists; (split; [done|]).
    - rewrite length_reverse, length_correlate_core. simpl. lia.
    - rewrite length_correlate_core. simpl. lia. }
  destruct Hc as (c & -> & Hlen). simpl. apply amax_is_Some.
  intros Hnil. apply (f_equal length) in Hnil.
  rewrite length_take in Hnil. simpl in Hnil.
  unfold Np.slice_bound in Hnil.
  destruct (Z.ltb_spec (2 * win) 0); lia.
Qed.

Lemma length_column (rows : list (list A)) (t : nat) :
  length (Extractor.column rows t) = length rows.
Proof. unfold Extractor.column. by rewrite length_fmap. Qed.

(** Column-wise [argmax] over [n >= 1] rows of common length [L]: [L]
    labels, each below [n]. *)
Lemma argmax_axis0_range (rows : list (list A)) (L : nat) :
  rows ≠ [] → Forall (λ row, length row = L) rows →
  ∃ labels, Extractor.argmax_axis0 rows = Some labels ∧
            length labels = L ∧
            Forall (λ l, 0 ≤ l < Z.of_nat (length rows)) labels.
Proof.
  intros Hne Hrows. unfold Extractor.argmax_axis0.
  assert (HL : length (default [] (head rows)) = L).
  { destruct rows as [|r rows]; [done|]. simpl. by inversion Hrows. }
  rewrite HL.
  destruct (mapM_total
              (λ t, k ← Arr.argmax (Extractor.column rows t); Some (Z.of_nat k))
              (λ l, 0 ≤ l < Z.of_nat (length rows)) (seq 0 L))
    as (labels & Hl & Hlen & HP).
  - intros t _.
    destruct (argmax_is_Some (Extractor.column rows t)) as (k & -> & Hk).
    + intros Hnil. apply (f_equal length) in Hnil.
      rewrite length_column in Hnil. by destruct rows.
    + rewrite length_column in Hk. eexists. split; [done|]. lia.
  - exists labels. by rewrite Hl, Hlen, length_seq.
Qed.

Hypothesis reconstruct_frames :
  ∀ w z h, length (Arr.columns (reconstruct w z h)) = length h.

Lemma length_effective_Z (b : bool) (Zv : list A) :
  length (Extractor.effective_Z b Zv) = length Zv.
Proof. destruct b; simpl; [done|by rewrite length_replicate]. Qed.

Lemma length_score w z h :
  length (Arr.sum_axis0 (reconstruct w z h)) = length h.
Proof. unfold Arr.sum_axis0. by rewrite length_fmap. Qed.

(** The correlation variant: one label per entry of the smoothed score
    curves, whose length is the larger of the frame count and the
    smoothing width. *)
Lemma nmf_analysis_to_segmentation_shape
    (sq : Arr.Array2 A) (win : Z) (W : Arr.Array3 A) (Zv : list A)
    (H : list (list A)) (min_segment_length : Z) (use_Z : bool) (T : nat) :
  (1 ≤ length Zv)%nat → Arr.dim1 W = length Zv → length H = length Zv →
  Forall (λ h, length h = T) H → (1 ≤ T)%nat →
  1 ≤ min_segment_length → 1 ≤ win →
  ∃ labels segfun,
    Extractor.nmf_analysis_to_segmentation reconstruct sq win W Zv H
      min_segment_length use_Z = Some (labels, segfun) ∧
    length labels = Nat.max T (Z.to_nat min_segment_length) ∧
    Forall (λ l, 0 ≤ l < Z.of_nat (length Zv)) labels.
Proof.
  intros Hrank HW HH HT HT1 Hm Hwin.
  unfold Extractor.nmf_analysis_to_segmentation. cbv zeta.
  set (L := Nat.max T (Z.to_nat min_segment_length)).
  set (Zv' := Extractor.effective_Z use_Z Zv).
  destruct (mapM_total
    (λ x : nat * (A * list A),
       let reconz := reconstruct (Arr.slice1 W x.1) x.2.1 x.2.2 in
       let score := Arr.sum_axis0 reconz in
       kernel ← Extractor.ones min_segment_length;
       Extractor.convolve_same score kernel)
    (λ row, length row = L)
    (zip (seq 0 (Arr.dim1 W)) (zip Zv' H))) as (segfun & Hseg & Hlen & Hrows).
  { intros [k [z h]] Hx. simpl.
    apply elem_of_zip_r, elem_of_zip_r in Hx.
    rewrite list.Forall_forall in HT. specialize (HT h Hx).
    unfold Extractor.ones.
    assert (Hneg : (min_segment_length <? 0) = false) by zbool.
    rewrite Hneg. cbn [mbind option_bind].
    destruct (convolve_same_length (Arr.sum_axis0 (reconstruct (Arr.slice1 W k) z h))
                (replicate (Z.to_nat min_segment_length) fone))
      as (out & -> & Hout).
    - intros Hnil. apply (f_equal length) in Hnil.
      rewrite length_score in Hnil. simpl in Hnil. lia.
    - intros Hnil. apply (f_equal length) in Hnil.
      rewrite length_replicate in Hnil. simpl in Hnil. lia.
    - exists out. split; [done|].
      rewrite Hout, length_score, length_replicate. subst L. lia. }
  subst Zv'. rewrite !length_zip, length_seq, length_effective_Z in Hlen.
  assert (Hn : length segfun = length Zv) by lia.
  cbv zeta in Hseg. rewrite Hseg. cbn [mbind option_bind].
  assert (HL : (1 ≤ L)%nat) by (subst L; lia).
  assert (Hrow_ne : ∀ x, x ∈ segfun → x ≠ []).
  { intros x Hx ->. rewrite list.Forall_forall in Hrows.
    specialize (Hrows _ Hx). simpl in Hrows. lia. }
  destruct (mapM_total
    (λ x, mapM (λ y, Extractor.peak_correlation win x y) segfun)
    (λ _, True) segfun) as (C & HC & _ & _).
  { intros x Hx.
    destruct (mapM_total (λ y, Extractor.peak_correlation win x y) (λ _, True) segfun)
      as (r & Hr & _ & _); [|by exists r].
    intros y Hy.
    destruct (peak_correlation_is_Some win x y Hwin) as [c Hc]; [by apply Hrow_ne..|].
    by exists c. }
  unfold Extractor.correlation_matrix. rewrite HC. cbn [mbind option_bind].
  destruct (amax_is_Some (concat segfun)) as [top Htop].
  { destruct segfun as [|r segfun]; [simpl in Hn; lia|].
    pose proof (Hrow_ne r ltac:(left)) as Hr. simpl.
    intros [? _]%app_eq_nil. done. }
  rewrite Htop. cbn [mbind option_bind].
  destruct (argmax_axis0_range (Extractor.divide_all segfun top) L)
    as (labels & Hlab & Hll & Hrange).
  { unfold Extractor.divide_all. intros Hnil%fmap_nil_inv. subst segfun.
    simpl in Hn. lia. }
  { unfold Extractor.divide_all. apply Forall_fmap.
    eapply Forall_impl; [exact Hrows|]. intros row Hr. simpl.
    by rewrite length_fmap. }
  rewrite Hlab. cbn [mbind option_bind].
  destruct (remove_short_segments_total labels min_segment_length)
    as (out & Hout & Hol & Hsub).
  rewrite Hout. cbn [mbind option_bind].
  exists out, (Extractor.divide_all segfun top). split_and!; [done|lia|].
  apply list.Forall_forall. intros l Hl%Hsub.
  rewrite list.Forall_forall in Hrange. specialize (Hrange l Hl).
  unfold Extractor.divide_all in Hrange. rewrite length_fmap in Hrange. lia.
Qed.

(** A lattice column with its traceback column, for [rank] states. *)
Definition well_formed_column (rank : nat) (c : list A * list nat) : Prop :=
  length c.1 = rank ∧ length c.2 = rank ∧ Forall (λ b, (b < rank)%nat) c.2.

Lemma pr_rows_shape (lt : list (list A)) (prev : list A) (rank : nat) :
  length lt = rank → length prev = rank →
  length (Extractor.pr_rows lt prev) = rank ∧
  Forall (λ row, length row = rank) (Extractor.pr_rows lt prev).
Proof.
  intros Hlt Hprev. unfold Extractor.pr_rows. split.
  - by rewrite length_fmap, length_seq.
  - apply Forall_fmap, list.Forall_forall. intros i _. simpl.
    rewrite length_zip_with. lia.
Qed.

Lemma viterbi_step_ok (lt : list (list A)) (prev emit : list A) (rank : nat) :
  (1 ≤ rank)%nat → length lt = rank → length prev = rank → length emit = rank →
  ∃ col back, Extractor.viterbi_step lt prev emit = Some (col, back) ∧
              well_formed_column rank (col, back).
Proof.
  intros Hr Hlt Hprev Hemit. unfold Extractor.viterbi_step. cbv zeta.
  destruct (pr_rows_shape lt prev rank Hlt Hprev) as [Hlen Hrows].
  rewrite list.Forall_forall in Hrows.
  destruct (mapM_total Arr.amax (λ _, True) (Extractor.pr_rows lt prev))
    as (best & -> & Hbl & _).
  { intros row Hrow%Hrows.
    destruct (amax_is_Some row) as [m Hm]; [|by exists m].
    intros ->. simpl in Hrow. lia. }
  destruct (mapM_total Arr.argmax (λ b, (b < rank)%nat) (Extractor.pr_rows lt prev))
    as (back & -> & Hkl & Hback).
  { intros row Hrow. pose proof (Hrows _ Hrow) as Hl.
    destruct (argmax_is_Some row) as (k & Hk & Hlt'); [|exists k; split; [done|lia]].
    intros ->. simpl in Hl. lia. }
  cbn [mbind option_bind]. eexists _, _. split; [done|].
  unfold well_formed_column. simpl. split_and!; [|lia|done].
  rewrite length_zip_with. lia.
Qed.

Lemma viterbi_forward_ok (lt : list (list A)) (rank : nat)
    (emits : list (list A)) :
  (1 ≤ rank)%nat → length lt = rank →
  Forall (λ e, length e = rank) emits →
  ∀ prev acc, length prev = rank → Forall (well_formed_column rank) acc →
  ∃ cols, Extractor.viterbi_forward lt prev emits acc = Some cols ∧
          length cols = (length emits + length acc)%nat ∧
          Forall (well_formed_column rank) cols.
Proof.
  intros Hr Hlt Hemits.
  induction Hemits as [|emit emits Hemit _ IH]; intros prev acc Hprev Hacc; simpl.
  - exists acc. by split_and!.
  - destruct (viterbi_step_ok lt prev emit rank Hr Hlt Hprev Hemit)
      as (col & back & -> & Hwf).
    cbn [mbind option_bind].
    destruct (IH col ((col, back) :: acc)) as (cols & Hcols & Hlen & Hall).
    + by destruct Hwf.
    + by constructor.
    + exists cols. split_and!; [done|simpl in Hlen; lia|done].
Qed.

Lemma backtrack_ok (rank : nat) (frames : list (list nat)) :
  Forall (λ f, length f = rank ∧ Forall (λ b, (b < rank)%nat) f) frames →
  ∀ s, (s < rank)%nat →
  ∃ path, Extractor.backtrack frames s = Some path ∧
          length path = length frames ∧
          Forall (λ b, (b < rank)%nat) path.
Proof.
  induction 1 as [|f frames [Hfl Hf] _ IH]; intros s Hs; simpl.
  - exists []. by split_and!.
  - destruct (lookup_lt_is_Some_2 f s) as [s' Hs']; [lia|].
    rewrite Hs'. cbn [mbind option_bind].
    destruct (IH s') as (path & -> & Hlen & Hpath).
    { rewrite list.Forall_forall in Hf. apply Hf. by eapply list_elem_of_lookup_2. }
    cbn [mbind option_bind]. exists (s :: path).
    split_and!; [done|simpl; lia|by constructor].
Qed.

(** The Viterbi variant: one state per frame. *)
Lemma viterbi_path_shape
    (sq : Arr.Array2 A) (win : Z) (W : Arr.Array3 A) (Zv : list A)
    (H : list (list A)) (selfloopprob : A) (use_Z : bool)
    (min_segment_length : Z) (T : nat) :
  (1 ≤ length Zv)%nat → Arr.dim1 W = length Zv → length H = length Zv →
  Forall (λ h, length h = T) H → (1 ≤ T)%nat →
  ∃ labels likelihood,
    Extractor.nmf_analysis_to_segmentation_using_viterbi_path reconstruct
      sq win W Zv H selfloopprob use_Z min_segment_length
    = Some (labels, likelihood) ∧
    length labels = T ∧
    Forall (λ l, 0 ≤ l < Z.of_nat (length Zv)) labels.
Proof.
  intros Hrank HW HH HT HT1.
  unfold Extractor.nmf_analysis_to_segmentation_using_viterbi_path. cbv zeta.
  rewrite length_effective_Z.
  set (rank := length Zv) in *.
  assert (HT0 : length (default [] (head H)) = T).
  { destruct H as [|h H]; [simpl in HH; lia|]. simpl. by inversion HT. }
  rewrite HT0.
  destruct (mapM_total
    (λ z, guard (z < Arr.dim1 W)%nat;;
          zz ← Extractor.effective_Z use_Z Zv !! z;
          h ← H !! z;
          Extractor.assign_row T
            (Arr.sum_axis0 (reconstruct (Arr.slice1 W z) zz h)))
    (λ row, length row = T) (seq 0 rank)) as (lik & -> & Hlik & Hrows).
  { intros z [_ Hz]%elem_of_seq. simpl in Hz.
    rewrite option_guard_True by lia. cbn [mbind option_bind].
    destruct (lookup_lt_is_Some_2 (Extractor.effective_Z use_Z Zv) z) as [zz ->];
      [rewrite length_effective_Z; lia|].
    destruct (lookup_lt_is_Some_2 H z) as [h Hh]; [lia|].
    rewrite Hh. cbn [mbind option_bind].
    rewrite list.Forall_forall in HT.
    pose proof (HT h (list_elem_of_lookup_2 _ _ _ Hh)) as Hhl.
    exists (Arr.sum_axis0 (reconstruct (Arr.slice1 W z) zz h)).
    unfold Extractor.assign_row. rewrite length_score, Hhl, Nat.eqb_refl.
    by split. }
  cbn [mbind option_bind]. rewrite length_seq in Hlik.
  assert (Hll : length (Extractor.log_all lik) = rank)
    by (unfold Extractor.log_all; by rewrite length_fmap).
  destruct (lookup_lt_is_Some_2 (Extractor.log_all lik) 0) as [row0 ->]; [lia|].
  cbn [mbind option_bind].
  set (col0 := (λ z, if (z =? 0)%nat then default fzero (row0 !! 0%nat) else fzero)
               <$> seq 0 rank).
  destruct (viterbi_forward_ok
              (Extractor.log_all (Extractor.transmat rank selfloopprob)) rank
              ((λ n, Extractor.column (Extractor.log_all lik) n) <$> seq 1 (T - 1)))
    with (prev := col0) (acc := [(col0, replicate rank 0%nat)])
    as (cols & -> & Hcl & Hcols).
  - done.
  - unfold Extractor.log_all, Extractor.transmat.
    by rewrite !length_fmap, length_seq.
  - apply Forall_fmap, list.Forall_forall. intros n _. simpl.
    by rewrite length_column.
  - subst col0. by rewrite length_fmap, length_seq.
  - constructor; [|constructor]. unfold well_formed_column. simpl. split_and!.
    + subst col0. by rewrite length_fmap, length_seq.
    + by rewrite length_replicate.
    + apply Forall_replicate. lia.
  - cbn [mbind option_bind].
    rewrite option_guard_True by lia. cbn [mbind option_bind].
    rewrite length_fmap, length_seq in Hcl. simpl in Hcl.
    destruct cols as [|[last_col bk] cols]; [simpl in Hcl; lia|].
    cbn [mbind option_bind hd_error].
    pose proof (Forall_inv Hcols) as (Hlc & _ & _). simpl in Hlc.
    destruct (argmax_is_Some last_col) as (s0 & -> & Hs0).
    { intros ->. simpl in Hlc. lia. }
    cbn [mbind option_bind].
    destruct (backtrack_ok rank (snd <$> (last_col, bk) :: cols)) with (s := s0)
      as (path & -> & Hpl & Hpath).
    { apply Forall_fmap. eapply Forall_impl; [exact Hcols|].
      intros c (_ & ? & ?). by split. }
    { lia. }
    cbn [mbind option_bind].
    destruct (remove_short_segments_total (Z.of_nat <$> reverse path) min_segment_length)
      as (out & -> & Hol & Hsub).
    cbn [mbind option_bind]. exists out, lik. split_and!; [done| |].
    + rewrite Hol, length_fmap, length_reverse, Hpl, length_fmap. simpl in *. lia.
    + apply list.Forall_forall. intros l (b & -> & Hb)%Hsub%list_elem_of_fmap.
      rewrite elem_of_reverse in Hb. rewrite list.Forall_forall in Hpath.
      specialize (Hpath b Hb). lia.
Qed.

(** C7. For a decomposition with [rank = len(Z) >= 1] patterns over
    [T >= 1] frames (W, Z and H of matching shapes, [min_segment_length]
    and [win] at least 1) both extractors return a label array whose
    entries are integers in [0, len(Z)).  The Viterbi variant returns
    exactly [T] labels.  The correlation variant returns
    [max(T, min_segment_length)] labels, because
    [np.convolve(score, np.ones(min_segment_length), 'same')] has the
    length of its longer argument: the array has length [T] only when
    [min_segment_length <= T]. *)
Theorem extractors_label_array
    (sq : Arr.Array2 A) (win : Z) (W : Arr.Array3 A) (Zv : list A)
    (H : list (list A)) (selfloopprob : A) (use_Z : bool)
    (min_segment_length : Z) (T : nat) :
  (1 ≤ length Zv)%nat → Arr.dim1 W = length Zv → length H = length Zv →
  Forall (λ h, length h = T) H → (1 ≤ T)%nat →
  1 ≤ min_segment_length → 1 ≤ win →
  (∃ labels likelihood,
     Extractor.nmf_analysis_to_segmentation_using_viterbi_path reconstruct
       sq win W Zv H selfloopprob use_Z min_segment_length
     = Some (labels, likelihood) ∧
     length labels = T ∧
     Forall (λ l, 0 ≤ l < Z.of_nat (length Zv)) labels) ∧
  (∃ labels segfun,
     Extractor.nmf_analysis_to_segmentation reconstruct sq win W Zv H
       min_segment_length use_Z = Some (labels, segfun) ∧
     length labels = Nat.max T (Z.to_nat min_segment_length) ∧
     (length labels = T ↔ min_segment_length ≤ Z.of_nat T) ∧
     Forall (λ l, 0 ≤ l < Z.of_nat (length Zv)) labels).
Proof.
  intros Hrank HW HH HT HT1 Hm Hwin. split.
  - by apply viterbi_path_shape.
  - destruct (nmf_analysis_to_segmentation_shape sq win W Zv H
                min_segment_length use_Z T) as (labels & segfun & Heq & Hlen & Hr);
      try done.
    exists labels, segfun. split_and!; [done|done|lia|done].
Qed.

End ExtractorFacts.

Module StubExtract.

(** A stand-in for [plca.SIPLCA.reconstruct]: every feature row of the
    reconstruction is the activation scaled by the weight. *)
Definition reconstruct (w : Arr.Array2 Z) (z : Z) (h : list Z) : Arr.Array2 Z :=
  {| Arr.shape0 := Arr.shape0 w;
     Arr.columns := (λ x, replicate (Arr.shape0 w) (z * x)) <$> h |}.

(** One pattern of one feature dimension and width 1. *)
Definition W1 : Arr.Array3 Z :=
  {| Arr.dim0 := 1; Arr.dim1 := 1; Arr.dim2 := 1; Arr.at3 := λ _ _ _, 1 |}.

(** A single frame. *)
Definition seq1 : Arr.Array2 Z := {| Arr.shape0 := 1; Arr.columns := [[5]] |}.

End StubExtract.

(** One frame ([T = 1]) and [min_segment_length = 2]: the Viterbi variant
    returns one label, the correlation variant two. *)
Lemma extractors_label_array_witness :
  ((∃ labels likelihood,
      Extractor.nmf_analysis_to_segmentation_using_viterbi_path (ops := ZOps)
        StubExtract.reconstruct StubExtract.seq1 1 StubExtract.W1 [1] [[5]] 2 true 2
      = Some (labels, likelihood) ∧
      length labels = 1%nat ∧
      Forall (λ l, 0 ≤ l < Z.of_nat (length [1])) labels) ∧
   (∃ labels segfun,
      Extractor.nmf_analysis_to_segmentation (ops := ZOps)
        StubExtract.reconstruct StubExtract.seq1 1 StubExtract.W1 [1] [[5]] 2 true
      = Some (labels, segfun) ∧
      length labels = Nat.max 1 (Z.to_nat 2) ∧
      (length labels = 1%nat ↔ 2 ≤ Z.of_nat 1) ∧
      Forall (λ l, 0 ≤ l < Z.of_nat (length [1])) labels)) ∧
  Extractor.nmf_analysis_to_segmentation (ops := ZOps)
    StubExtract.reconstruct StubExtract.seq1 1 StubExtract.W1 [1] [[5]] 2 true
  = Some ([0; 0], [[1; 1]]).
Proof.
  split; [|reflexivity].
  apply (extractors_label_array (ops := ZOps) StubExtract.reconstruct
           ltac:(intros w z h; unfold StubExtract.reconstruct; simpl;
                 apply length_fmap)
           StubExtract.seq1 1 StubExtract.W1 [1] [[5]] 2 true 2 1%nat).
  - simpl. lia.
  - reflexivity.
  - reflexivity.
  - by repeat constructor.
  - lia.
  - lia.
  - lia.
Defined.

(* ===================================================================== *)
(* Further properties of the code                                         *)
(* ===================================================================== *)

(* --------------------------------------------------------------------- *)
(* remove_short_segments: what a merge can and cannot change              *)
(* --------------------------------------------------------------------- *)

Lemma lookup_setslice {A : Type} (l : list A) (a b : Z) (v : A) (p : nat) :
  0 ≤ a → 0 ≤ b ≤ Z.of_nat (length l) →
  Np.setslice l a b v !! p
  = if decide (a ≤ Z.of_nat p < b) then Some v else l !! p.
Proof.
  intros Ha Hb. unfold Np.setslice.
  assert (Hsb : Np.slice_bound (Z.of_nat (length l)) b = b)
    by (unfold Np.slice_bound; destruct (Z.ltb_spec b 0); lia).
  assert (Hsa : Np.slice_bound (Z.of_nat (length l)) a
                = Z.min a (Z.of_nat (length l)))
    by (unfold Np.slice_bound; destruct (Z.ltb_spec a 0); lia).
  rewrite Hsa, Hsb.
  destruct (Nat.ltb_spec (Z.to_nat (Z.min a (Z.of_nat (length l)))) (Z.to_nat b))
    as [Hlt|Hge].
  - assert (Hmin : Z.min a (Z.of_nat (length l)) = a) by lia. rewrite Hmin.
    destruct (decide (a ≤ Z.of_nat p < b)) as [Hin|Hout].
    + rewrite lookup_app_r by (rewrite length_take; lia).
      rewrite length_take, lookup_app_l by (rewrite length_replicate; lia).
      apply lookup_replicate_2. lia.
    + destruct (decide (Z.of_nat p < a)) as [Hlo|Hhi].
      * rewrite lookup_app_l by (rewrite length_take; lia).
        apply lookup_take_lt. lia.
      * rewrite lookup_app_r by (rewrite length_take; lia).
        rewrite length_take, lookup_app_r by (rewrite length_replicate; lia).
        rewrite length_replicate, lookup_drop. f_equal. lia.
  - destruct (decide (a ≤ Z.of_nat p < b)); [lia|done].
Qed.

(** One iteration writes the label read at [start - 1] on the frames
    [start .. stop] between two entries of the border list, and on no
    other frame. *)
Lemma merge_step_lookup (borders labels out : list Z) (idx : Z) :
  (∀ b, b ∈ borders → 0 ≤ b < Z.of_nat (length labels) - 1) →
  0 ≤ idx < Z.of_nat (length borders) - 1 →
  Merger.merge_step borders labels idx = Some out →
  ∃ start stop label,
    Np.getitem borders idx = Some start ∧
    Np.getitem borders (idx + 1) = Some stop ∧
    Np.getitem labels (start - 1) = Some label ∧
    ∀ p : nat, out !! p = if decide (start ≤ Z.of_nat p ≤ stop)
                          then Some label else labels !! p.
Proof.
  intros Hb Hidx Hstep.
  destruct (merge_step_in_range borders labels idx Hb Hidx)
    as (start & stop & label & Hs & Ht & Hl & Heq).
  rewrite Heq in Hstep. injection Hstep as <-.
  exists start, stop, label. split_and!; try done.
  pose proof (Hb _ (getitem_Some_elem _ _ _ Hs)).
  pose proof (Hb _ (getitem_Some_elem _ _ _ Ht)).
  intros p. rewrite lookup_setslice by lia.
  destruct (decide (start ≤ Z.of_nat p < stop + 1)),
           (decide (start ≤ Z.of_nat p ≤ stop)); try done; lia.
Qed.

Lemma getitem_lookup_nonneg {A : Type} (l : list A) (i : Z) (v : A) :
  0 ≤ i → Np.getitem l i = Some v → l !! Z.to_nat i = Some v.
Proof.
  intros Hi. rewrite getitem_nonneg by done.
  by destruct (i <? Z.of_nat (length l)).
Qed.

Lemma merge_step_change_points (borders labels out : list Z) (idx : Z) (k : nat) :
  (∀ b, b ∈ borders → 0 ≤ b < Z.of_nat (length labels) - 1) →
  0 ≤ idx < Z.of_nat (length borders) - 1 →
  Merger.merge_step borders labels idx = Some out →
  MergerSpec.change_point out k →
  MergerSpec.change_point labels k ∨ Z.of_nat k ∈ borders.
Proof.
  intros Hb Hidx Hstep (x & y & Hx & Hy & Hxy).
  destruct (merge_step_lookup borders labels out idx Hb Hidx Hstep)
    as (start & stop & label & Hs & Ht & Hl & Hout).
  pose proof (Hb _ (getitem_Some_elem _ _ _ Hs)) as Hsr.
  rewrite Hout in Hx, Hy.
  destruct (decide (start ≤ Z.of_nat k ≤ stop)) as [Hk|Hk];
    destruct (decide (start ≤ Z.of_nat (S k) ≤ stop)) as [Hk'|Hk'].
  - congruence.
  - right. replace (Z.of_nat k) with stop by lia.
    by eapply getitem_Some_elem.
  - (* k = start - 1 *)
    assert (Hks : Z.of_nat k = start - 1) by lia.
    apply getitem_lookup_nonneg in Hl; [|lia].
    rewrite <- Hks, Nat2Z.id in Hl. congruence.
  - left. by exists x, y.
Qed.

Lemma merge_loop_change_points (borders labels0 : list Z) (idxs : list Z) :
  (∀ b, b ∈ borders → 0 ≤ b < Z.of_nat (length labels0) - 1) →
  (∀ b, b ∈ borders → ∃ k : nat, b = Z.of_nat k ∧ MergerSpec.change_point labels0 k) →
  Forall (λ idx, 0 ≤ idx < Z.of_nat (length borders) - 1) idxs →
  ∀ labels out,
    length labels = length labels0 →
    (∀ k, MergerSpec.change_point labels k → MergerSpec.change_point labels0 k) →
    Merger.merge_loop borders labels idxs = Some out →
    ∀ k, MergerSpec.change_point out k → MergerSpec.change_point labels0 k.
Proof.
  intros Hb Hcp Hidxs.
  induction Hidxs as [|idx idxs Hidx _ IH]; intros labels out Hlen Hinv; simpl.
  - by intros [= <-].
  - destruct (Merger.merge_step borders labels idx) as [labels'|] eqn:Hstep; [|done].
    simpl. apply IH.
    + destruct (merge_step_in_range borders labels idx) as (? & ? & ? & _ & _ & _ & Heq);
        [by rewrite Hlen|done|].
      rewrite Heq in Hstep. injection Hstep as <-. by rewrite length_setslice.
    + intros k Hk.
      destruct (merge_step_change_points borders labels labels' idx k) as [H|H];
        [by rewrite Hlen|done|done|done|by apply Hinv|].
      apply Hcp in H as (k' & Hkk & Hc). by replace k with k' by lia.
Qed.

(** X1. Merging never creates a boundary: every frame after which the label
    changes in the result is a frame after which it changed in the
    input. *)
Theorem remove_short_segments_no_new_boundary
    (labels out : list Z) (min_segment_length : Z) (k : nat) :
  Merger.remove_short_segments labels min_segment_length = Some out →
  MergerSpec.change_point out k → MergerSpec.change_point labels k.
Proof.
  unfold Merger.remove_short_segments. intros Hout.
  eapply merge_loop_change_points; [| | |done| |exact Hout].
  - apply segment_borders_range.
  - intros b. by rewrite elem_of_segment_borders.
  - apply list.Forall_forall. intros idx. apply short_segments_idx_range.
  - done.
Qed.

Lemma remove_short_segments_no_new_boundary_witness :
  MergerSpec.change_point [0;0;0;1;2;2;2;2] 3.
Proof.
  apply (remove_short_segments_no_new_boundary
           [0;0;0;1;2;2;2;2] [0;0;0;0;2;2;2;2] 3 3).
  - reflexivity.
  - exists 0, 2. by split_and!.
Defined.

Lemma merge_step_length (borders labels out : list Z) (idx : Z) :
  (∀ b, b ∈ borders → 0 ≤ b < Z.of_nat (length labels) - 1) →
  0 ≤ idx < Z.of_nat (length borders) - 1 →
  Merger.merge_step borders labels idx = Some out →
  length out = length labels.
Proof.
  intros Hb Hidx Hstep.
  destruct (merge_step_in_range borders labels idx Hb Hidx)
    as (? & ? & ? & _ & _ & _ & Heq).
  rewrite Heq in Hstep. injection Hstep as <-. apply length_setslice.
Qed.

Lemma merge_loop_outside (borders : list Z) (n : nat) (idxs : list Z) (p : nat) :
  (∀ b, b ∈ borders → 0 ≤ b < Z.of_nat n - 1) →
  (∀ b1 b2, b1 ∈ borders → b2 ∈ borders → ¬ (b1 ≤ Z.of_nat p ≤ b2)) →
  Forall (λ idx, 0 ≤ idx < Z.of_nat (length borders) - 1) idxs →
  ∀ labels out,
    length labels = n →
    Merger.merge_loop borders labels idxs = Some out →
    out !! p = labels !! p.
Proof.
  intros Hb Hp Hidxs.
  induction Hidxs as [|idx idxs Hidx _ IH]; intros labels out Hlen; simpl.
  - by intros [= <-].
  - destruct (Merger.merge_step borders labels idx) as [labels'|] eqn:Hstep; [|done].
    simpl. intros Hloop.
    destruct (merge_step_lookup borders labels labels' idx)
      as (start & stop & label & Hs & Ht & _ & Hout); [by rewrite Hlen|done|done|].
    rewrite (IH labels' out); [| |done].
    + rewrite Hout. destruct (decide (start ≤ Z.of_nat p ≤ stop)) as [Hin|]; [|done].
      exfalso. eapply Hp; [| |exact Hin]; by eapply getitem_Some_elem.
    + rewrite <- Hlen. eapply merge_step_length; [by rewrite Hlen|done|done].
Qed.

(** X2. A frame that does not lie between two label changes keeps its
    label.  In particular every frame before the first change and every
    frame after the last one is left alone: the first and the last run
    are never absorbed, however short they are. *)
Theorem remove_short_segments_outside_untouched
    (labels out : list Z) (min_segment_length : Z) (p : nat) :
  Merger.remove_short_segments labels min_segment_length = Some out →
  (∀ b1 b2 : nat, MergerSpec.change_point labels b1 →
                  MergerSpec.change_point labels b2 → ¬ (b1 ≤ p ≤ b2)%nat) →
  out !! p = labels !! p.
Proof.
  unfold Merger.remove_short_segments. intros Hout Hp.
  eapply (merge_loop_outside (Merger.segment_borders labels) (length labels));
    [| | |done|exact Hout].
  - apply segment_borders_range.
  - intros b1 b2 (k1 & -> & H1)%elem_of_segment_borders
                 (k2 & -> & H2)%elem_of_segment_borders Hin.
    apply (Hp k1 k2 H1 H2). lia.
  - apply list.Forall_forall. intros idx. apply short_segments_idx_range.
Qed.

(** The last frame of [[7;7;1;0;0;0;0]] under a threshold of 4: the
    one-frame run before it is merged, the frame itself is not touched. *)
Lemma remove_short_segments_outside_untouched_witness :
  [7;7;7;0;0;0;0] !! 6%nat = [7;7;1;0;0;0;0] !! 6%nat.
Proof.
  apply (remove_short_segments_outside_untouched
           [7;7;1;0;0;0;0] [7;7;7;0;0;0;0] 4 6).
  - reflexivity.
  - intros b1 b2 _ (x & y & Hx & Hy & _) [_ Hle].
    apply lookup_lt_Some in Hy. simpl in Hy. lia.
Defined.

Lemma short_segments_idx_nil (borders : list Z) (m : Z) :
  (∀ l1 a b l2, borders = l1 ++ a :: b :: l2 → m ≤ b - a) →
  Merger.short_segments_idx borders m = [].
Proof.
  intros H. unfold Merger.short_segments_idx, Np.nonzero_bool.
  apply nonzero_from_all_false, Forall_fmap, Forall_diff.
  intros l1 a b l2 Heq. simpl. apply Z.ltb_ge. by eapply H.
Qed.

(** X3. With a threshold of 1 or less no run is short: the array is returned
    as it is. *)
Theorem remove_short_segments_threshold_one (labels : list Z) (m : Z) :
  m ≤ 1 → Merger.remove_short_segments labels m = Some labels.
Proof.
  intros Hm. unfold Merger.remove_short_segments.
  rewrite short_segments_idx_nil; [done|].
  intros l1 a b l2 Heq.
  unfold Merger.segment_borders, Np.nonzero, Np.nonzero_bool in Heq.
  apply nonzero_from_adjacent in Heq as (j & k & Hjk & -> & -> & _). lia.
Qed.

Lemma remove_short_segments_threshold_one_witness :
  Merger.remove_short_segments [0;1;0;1;1;2] 1 = Some [0;1;0;1;1;2].
Proof. apply (remove_short_segments_threshold_one [0;1;0;1;1;2] 1). lia. Defined.

(* --------------------------------------------------------------------- *)
(* create_sparse_W_prior: where it is defined, and the flat prior         *)
(* --------------------------------------------------------------------- *)

(** X5. [create_sparse_W_prior] returns an array exactly when the shape has
    [F >= 0] and [win >= 1] and the cutoff is not negative; in every
    other case an exception escapes (a cutoff beyond [win] is accepted). *)
Theorem create_sparse_W_prior_defined_iff (F win cutoff : Z) (slope : float) :
  is_Some (Prior.create_sparse_W_prior (F, win) cutoff slope)
  ↔ 0 ≤ F ∧ 1 ≤ win ∧ 0 ≤ cutoff.
Proof.
  unfold Prior.create_sparse_W_prior, Prior.zeros. simpl. split.
  - destruct (Z.ltb_spec win 0) as [|Hwin]; [by intros [? ?]|]. simpl.
    destruct (decide (win = 0)) as [->|Hw0]; [by intros [? ?]|].
    rewrite prior_first_entry by lia. simpl.
    destruct (Z.ltb_spec F 0) as [|HF].
    { destruct (Prior.setslice_from _ _ _); by intros [? ?]. }
    destruct (Z_lt_le_dec cutoff 0) as [Hneg|Hpos]; [|lia].
    intros Hsome. exfalso. revert Hsome.
    unfold Prior.setslice_from, Prior.arange.
    rewrite !length_fmap, length_seq, length_replicate.
    assert (Hb : Np.slice_bound (Z.of_nat (Z.to_nat win)) cutoff
                 = Z.max 0 (win + cutoff)).
    { unfold Np.slice_bound. destruct (Z.ltb_spec cutoff 0); [f_equal|]; lia. }
    rewrite Hb.
    destruct (Nat.eqb_spec (Z.to_nat (win - cutoff))
                (Z.to_nat win - Z.to_nat (Z.max 0 (win + cutoff)))) as [Heq|_]; [lia|].
    assert (Hlen : (2 ≤ Z.to_nat (win - cutoff))%nat) by lia.
    destruct (Z.to_nat (win - cutoff)) as [|[|n]]; [lia|lia|].
    simpl. by intros [? ?].
  - intros (HF & Hwin & Hc).
    assert (Hneg : (win <? 0) = false) by zbool. rewrite Hneg. simpl.
    rewrite prior_first_entry by lia. simpl.
    rewrite prior_ramp_assigned by lia. simpl.
    assert (HFneg : (F <? 0) = false) by zbool. rewrite HFneg. by eexists.
Qed.

(** X6. A cutoff at or beyond the pattern width leaves nothing to penalise:
    the prior is the all-zero array of shape [(F, 1, win)]. *)
Theorem create_sparse_W_prior_flat (F win cutoff : Z) (slope : float) :
  0 ≤ F → 1 ≤ win → win ≤ cutoff →
  Prior.create_sparse_W_prior (F, win) cutoff slope
  = Some (replicate (Z.to_nat F) [replicate (Z.to_nat win) 0%float]).
Proof.
  intros HF Hwin Hc. unfold Prior.create_sparse_W_prior, Prior.zeros. simpl.
  assert (Hneg : (win <? 0) = false) by zbool. rewrite Hneg. simpl.
  rewrite prior_first_entry by lia. simpl.
  rewrite prior_ramp_assigned by lia. simpl.
  assert (HFneg : (F <? 0) = false) by zbool. rewrite HFneg.
  unfold Prior.arange. replace (Z.to_nat (win - cutoff)) with 0%nat by lia.
  simpl. rewrite app_nil_r. do 4 f_equal. lia.
Qed.

Lemma create_sparse_W_prior_flat_witness :
  Prior.create_sparse_W_prior (2, 3) 5 0.5
  = Some (replicate (Z.to_nat 2) [replicate (Z.to_nat 3) 0%float]).
Proof. apply (create_sparse_W_prior_flat 2 3 5 0.5); lia. Defined.

(* --------------------------------------------------------------------- *)
(* The decomposition driver: retry budget and engine calls                *)
(* --------------------------------------------------------------------- *)

Section DriverBudget.
Context {A : Type} {ops : FloatOps A}.
Context {EngineState Kwargs : Type}.
Variable analyze :
  Arr.Array2 A → Z → Z → Kwargs → EngineState
  → @Driver.Decomposition A * EngineState.
Variables (seq : Arr.Array2 A) (rank win : Z) (kwargs : Kwargs).
Variables (nrep minsegments : Z).

Local Abbreviation state_before := (Driver.state_before analyze seq rank win kwargs).
Local Abbreviation analysis_round := (Driver.analysis_round analyze seq rank win kwargs nrep).
Local Abbreviation nth_analysis := (Driver.nth_analysis analyze seq rank win kwargs nrep).
Local Abbreviation segment_song_decomposition :=
  (Driver.segment_song_decomposition analyze seq rank win kwargs nrep minsegments).

Lemma state_before_add (a b : nat) (s : EngineState) :
  state_before (a + b) s = state_before b (state_before a s).
Proof. revert s. induction a as [|a IH]; intros s; simpl; [done|apply IH]. Qed.

Lemma analysis_round_state (s : EngineState) d s' :
  analysis_round s = Some (d, s') → s' = state_before (Z.to_nat nrep) s.
Proof.
  unfold Driver.analysis_round.
  pose proof (run_attempts_spec analyze seq rank win kwargs (Z.to_nat nrep) s)
    as (_ & Hst & _).
  destruct (Driver.run_attempts analyze seq rank win kwargs (Z.to_nat nrep) s)
    as [outs s1]. simpl in Hst.
  destruct (Driver.select_best outs); [|done]. simpl. by intros [= _ <-].
Qed.

Lemma nth_analysis_state (k : nat) (s : EngineState) d s' :
  nth_analysis k s = Some (d, s') →
  s' = state_before (S k * Z.to_nat nrep) s.
Proof.
  revert s. induction k as [|k IH]; intros s.
  - simpl. rewrite Nat.add_0_r. apply analysis_round_state.
  - cbn [Driver.nth_analysis].
    destruct (analysis_round s) as [[d1 s1]|] eqn:Hr; [|done].
    cbn [mbind option_bind]. intros Hk%IH.
    apply analysis_round_state in Hr. subst s1.
    rewrite Hk, <- state_before_add. f_equal.
Qed.

(** X7. The work is bounded: with [nrep >= 1] the driver stops after
    [(k + 1) * nrep] calls of the engine for some [k <= maxretries], so
    after at most [(maxretries + 1) * nrep] calls, and hands back the
    generator state these calls leave. *)
Theorem segment_song_engine_calls (maxlowen maxretries : Z) (s : EngineState) :
  1 ≤ nrep →
  ∃ (k : nat) d,
    (k ≤ Z.to_nat maxretries)%nat ∧
    segment_song_decomposition maxlowen maxretries s
    = Some (d, state_before (S k * Z.to_nat nrep) s).
Proof.
  intros Hn.
  destruct (segment_song_decomposition_trace analyze seq rank win kwargs
              nrep minsegments maxlowen maxretries s Hn)
    as (k & d & s' & Hk & Hd & Hnth & _).
  exists k, d. split; [done|].
  by rewrite Hd, (nth_analysis_state k s d s' Hnth).
Qed.

(** X8. Without a retry budget ([maxretries <= 0]) the quality gate has no
    effect: the first analysis is the result, whatever it looks like. *)
Theorem segment_song_no_retry_budget (maxlowen maxretries : Z) (s : EngineState) :
  maxretries ≤ 0 →
  segment_song_decomposition maxlowen maxretries s = analysis_round s.
Proof.
  intros Hm. unfold Driver.segment_song_decomposition.
  destruct (analysis_round s) as [[d s1]|]; [|done].
  cbn [mbind option_bind]. replace (Z.to_nat maxretries) with 0%nat by lia.
  simpl. by rewrite andb_false_r.
Qed.

End DriverBudget.

(** Two effective segments where three are wanted, two attempts per
    analysis and a budget of two retries: six engine calls. *)
Lemma segment_song_engine_calls_witness :
  ∃ (k : nat) d,
    (k ≤ Z.to_nat 2)%nat ∧
    Driver.segment_song_decomposition (ops := ZOps) (Stub.engine [5;2;9])
      Stub.seq0 2 4 () 2 3 10 2 0%nat
    = Some (d, Driver.state_before (Stub.engine [5;2;9]) Stub.seq0 2 4 ()
                 (S k * Z.to_nat 2) 0%nat).
Proof.
  apply (segment_song_engine_calls (ops := ZOps) (Stub.engine [5;2;9])
           Stub.seq0 2 4 () 2 3 10 2 0%nat).
  lia.
Defined.

Lemma segment_song_no_retry_budget_witness :
  Driver.segment_song_decomposition (ops := ZOps) (Stub.engine [5;2;9])
    Stub.seq0 2 4 () 1 3 10 0 0%nat
  = Driver.analysis_round (ops := ZOps) (Stub.engine [5;2;9]) Stub.seq0 2 4 () 1 0%nat.
Proof.
  apply (segment_song_no_retry_budget (ops := ZOps) (Stub.engine [5;2;9])
           Stub.seq0 2 4 () 1 3 10 0 0%nat).
  lia.
Defined.

(* --------------------------------------------------------------------- *)
(* convert_labels_to_segments: inputs it rejects                          *)
(* --------------------------------------------------------------------- *)

Section SerializerErrors.
Context {time : Type}.
Variable fmt4 : time → string.
Variable truthy : time → bool.

Lemma convert_of_rows_None (labels : list Z) (ft : list time) songlen :
  Serializer.segment_rows truthy labels ft songlen = None →
  Serializer.convert_labels_to_segments fmt4 truthy labels ft songlen = None.
Proof. unfold Serializer.convert_labels_to_segments. by intros ->. Qed.

Lemma segment_rows_of_spans_None (labels : list Z) (ft : list time) songlen :
  Serializer.segment_spans labels ft = None →
  Serializer.segment_rows truthy labels ft songlen = None.
Proof. unfold Serializer.segment_rows. by intros ->. Qed.

(** X9. An empty label array cannot be serialized, whatever the frame
    times and the song length are.  The boundary indices are [[0, -1]]:
    [frametimes[boundaryidx]] raises IndexError exactly when there is no
    frame time, and [labels[boundaryidx[1:]]], the lookup of label
    [-1], raises IndexError in any case.  No text is returned. *)
Theorem convert_labels_to_segments_empty (ft : list time) (songlen : option time) :
  Serializer.convert_labels_to_segments fmt4 truthy [] ft songlen = None ∧
  Serializer.boundaryidx [] = [0; -1] ∧
  (is_Some (Np.take_indices ft (Serializer.boundaryidx [])) ↔ ft ≠ []) ∧
  Np.take_indices ([] : list Z) (Np.from_1 (Serializer.boundaryidx [])) = None.
Proof.
  split_and!; [|done| |done].
  - apply convert_of_rows_None, segment_rows_of_spans_None.
    unfold Serializer.segment_spans.
    by destruct (Np.take_indices ft (Serializer.boundaryidx [])).
  - split.
    + intros [bt Hbt] ->. discriminate Hbt.
    + intros Hne.
      destruct (take_indices_in_range ft [0]) as (x & Hx & _).
      { intros i ->%list_elem_of_singleton.
        destruct ft; [done|]. simpl. lia. }
      unfold Np.take_indices in *. cbn in Hx |- *.
      destruct (Np.getitem ft 0) as [x0|]; [|done]. cbn.
      rewrite getitem_minus_one by done.
      destruct (list.last ft) as [z|] eqn:Hz; [by eexists|].
      by apply last_None in Hz.
Qed.

(** X10. With fewer frame times than labels the time of the last frame does
    not exist: IndexError, no text. *)
Theorem convert_labels_to_segments_short_times
    (labels : list Z) (ft : list time) (songlen : option time) :
  (length ft < length labels)%nat →
  Serializer.convert_labels_to_segments fmt4 truthy labels ft songlen = None.
Proof.
  intros Hlen. apply convert_of_rows_None, segment_rows_of_spans_None.
  unfold Serializer.segment_spans.
  assert (Hnone : Np.take_indices ft (Serializer.boundaryidx labels) = None).
  { apply mapM_None_2, Exists_exists.
    exists (Z.of_nat (length labels) - 1). split.
    - unfold Serializer.boundaryidx. simpl. right.
      rewrite elem_of_app, list_elem_of_singleton. by right.
    - rewrite getitem_nonneg by lia.
      assert (Hge : (Z.of_nat (length labels) - 1 <? Z.of_nat (length ft)) = false)
        by zbool.
      by rewrite Hge. }
  by rewrite Hnone.
Qed.

(** X11. A label of 25 or more leaves no letter for the silence symbol (and
    from 26 on none for the segment itself): IndexError, no text. *)
Theorem convert_labels_to_segments_label_overflow
    (labels : list Z) (ft : list time) (songlen : option time) (l : Z) :
  l ∈ labels → 25 ≤ l →
  Serializer.convert_labels_to_segments fmt4 truthy labels ft songlen = None.
Proof.
  intros Hl Hbig. apply convert_of_rows_None.
  assert (Hne : labels ≠ []) by (intros ->; by apply elem_of_nil in Hl).
  unfold Serializer.segment_rows, Serializer.segment_spans.
  destruct (Np.take_indices ft (Serializer.boundaryidx labels)) as [bt|]; [|done].
  cbn [mbind option_bind].
  destruct (take_indices_in_range labels (Np.from_1 (Serializer.boundaryidx labels)))
    as (sl & -> & Hsl & Hslt).
  { intros i (j & Hj)%list_elem_of_lookup_1. rewrite lookup_from_1 in Hj.
    pose proof (boundaryidx_sorted labels (S j) (S j) i i Hne ltac:(lia) Hj Hj). lia. }
  cbn [mbind option_bind].
  destruct (mapM _ _) as [body|]; [|done]. cbn [mbind option_bind].
  destruct (Np.max_int sl) as [top|] eqn:Hmax; [|done]. cbn [mbind option_bind].
  destruct (seglabels_max labels sl top Hne) as (_ & _ & Hle); [| |done|].
  - rewrite Hsl, length_from_1, length_boundaryidx. done.
  - done.
  - pose proof (Hle l Hl).
    assert (Hget : Np.getitem Serializer.alphabet (top + 1) = None).
    { rewrite getitem_nonneg by lia.
      assert (Hge : (top + 1 <? Z.of_nat (length Serializer.alphabet)) = false)
        by (apply Z.ltb_ge; simpl; lia).
      by rewrite Hge. }
    by rewrite Hget.
Qed.

End SerializerErrors.

Lemma convert_labels_to_segments_short_times_witness :
  Serializer.convert_labels_to_segments SecondsDemo.fmt4 SecondsDemo.truthy
    [0;0;1] [1;2] (Some 9) = None.
Proof.
  apply (convert_labels_to_segments_short_times SecondsDemo.fmt4 SecondsDemo.truthy
           [0;0;1] [1;2] (Some 9)).
  simpl. lia.
Defined.

Lemma convert_labels_to_segments_label_overflow_witness :
  Serializer.convert_labels_to_segments SecondsDemo.fmt4 SecondsDemo.truthy
    [0;25;25] [1;2;3] None = None.
Proof.
  apply (convert_labels_to_segments_label_overflow SecondsDemo.fmt4 SecondsDemo.truthy
           [0;25;25] [1;2;3] None 25).
  - right. left.
  - lia.
Defined.

(* --------------------------------------------------------------------- *)
(* convert_labels_to_segments: the symbols of neighbouring lines          *)
(* --------------------------------------------------------------------- *)

Lemma alphabet_NoDup : NoDup Serializer.alphabet.
Proof.
  refine (bool_decide_unpack (NoDup Serializer.alphabet) _).
  vm_compute. exact I.
Qed.

Lemma alphabet_injective (a b : Z) (c : Ascii.ascii) :
  0 ≤ a → 0 ≤ b →
  Np.getitem Serializer.alphabet a = Some c →
  Np.getitem Serializer.alphabet b = Some c → a = b.
Proof.
  intros Ha Hb Hca Hcb.
  apply getitem_lookup_nonneg in Hca; [|done].
  apply getitem_lookup_nonneg in Hcb; [|done].
  pose proof (NoDup_lookup _ _ _ _ alphabet_NoDup Hca Hcb). lia.
Qed.

(** Between two frames with no label change in between, the label is
    the same. *)
Lemma run_constant (labels : list Z) (d p : nat) :
  (p + d < length labels)%nat →
  (∀ k, (p ≤ k < p + d)%nat → ¬ MergerSpec.change_point labels k) →
  labels !! p = labels !! (p + d)%nat.
Proof.
  induction d as [|d IH]; intros Hlen Hno.
  - by rewrite Nat.add_0_r.
  - rewrite IH; [|lia|intros k Hk; apply Hno; lia].
    destruct (lookup_lt_is_Some_2 labels (p + d)) as [a Ha]; [lia|].
    destruct (lookup_lt_is_Some_2 labels (p + S d)) as [b Hb]; [lia|].
    rewrite Ha, Hb. f_equal.
    destruct (decide (a = b)) as [|Hne]; [done|].
    exfalso. apply (Hno (p + d)%nat); [lia|].
    exists a, b. split_and!; [done| |done].
    by replace (S (p + d)) with (p + S d)%nat by lia.
Qed.

(** No label change lies strictly between two neighbouring boundary
    indices. *)
Lemma no_change_between_boundaries (labels : list Z) (j k : nat) (b c : Z) :
  labels ≠ [] →
  Np.from_1 (Serializer.boundaryidx labels) !! j = Some b →
  Np.from_1 (Serializer.boundaryidx labels) !! S j = Some c →
  MergerSpec.change_point labels k → ¬ (b < Z.of_nat k < c).
Proof.
  intros Hne Hb Hc Hk [Hbk Hkc].
  assert (Hin : Z.of_nat k ∈ Merger.segment_borders labels)
    by (apply elem_of_segment_borders; eauto).
  apply list_elem_of_lookup_1 in Hin as (q & Hq).
  unfold Np.from_1, Serializer.boundaryidx in Hb, Hc. simpl in Hb, Hc.
  assert (Hbj : Merger.segment_borders labels !! j = Some b).
  { apply lookup_app_Some in Hb as [Hb|[Hge Hb]]; [done|].
    apply lookup_lt_Some in Hc. rewrite length_app in Hc. simpl in Hc.
    apply lookup_lt_Some in Hb. simpl in Hb. lia. }
  destruct (decide (q ≤ j)%nat) as [Hqj|Hqj].
  - destruct (decide (q = j)) as [->|Hne']; [simplify_eq; lia|].
    pose proof (segment_borders_lookup_lt labels q j _ _ ltac:(lia) Hq Hbj). lia.
  - apply lookup_app_Some in Hc as [Hc|[Hge Hc]].
    + destruct (decide (q = S j)) as [->|Hne']; [simplify_eq; lia|].
      pose proof (segment_borders_lookup_lt labels (S j) q _ _ ltac:(lia) Hc Hq). lia.
    + apply lookup_lt_Some in Hq. lia.
Qed.

(** Neighbouring segments carry different labels. *)
Lemma seglabels_adjacent_differ (labels sl : list Z) (j : nat) (a b : Z) :
  labels ≠ [] →
  (∀ j i, Np.from_1 (Serializer.boundaryidx labels) !! j = Some i →
          sl !! j = labels !! Z.to_nat i) →
  length sl = S (length (Merger.segment_borders labels)) →
  sl !! j = Some a → sl !! S j = Some b → a ≠ b.
Proof.
  intros Hne Hsl Hlen Ha Hb.
  set (idx := Np.from_1 (Serializer.boundaryidx labels)).
  assert (Hli : length idx = length sl)
    by (subst idx; rewrite length_from_1, length_boundaryidx; simpl; lia).
  destruct (lookup_lt_is_Some_2 idx j) as [bj Hbj];
    [apply lookup_lt_Some in Ha; lia|].
  destruct (lookup_lt_is_Some_2 idx (S j)) as [bc Hbc];
    [apply lookup_lt_Some in Hb; lia|].
  rewrite (Hsl _ _ Hbj) in Ha. rewrite (Hsl _ _ Hbc) in Hb.
  (* bj is a border: the label changes right after it *)
  assert (Hborder : bj ∈ Merger.segment_borders labels).
  { subst idx. unfold Np.from_1, Serializer.boundaryidx in Hbj. simpl in Hbj.
    apply lookup_app_Some in Hbj as [Hbj|[Hge Hbj]];
      [by eapply list_elem_of_lookup_2|].
    apply lookup_lt_Some in Hbc. rewrite length_from_1, length_boundaryidx in Hbc.
    apply lookup_lt_Some in Hbj. simpl in *. lia. }
  apply elem_of_segment_borders in Hborder as (p & -> & x & y & Hx & Hy & Hxy).
  rewrite Nat2Z.id in Ha. rewrite Hx in Ha. injection Ha as <-.
  assert (Hrange : Z.of_nat p < bc < Z.of_nat (length labels)).
  { pose proof (boundaryidx_sorted labels (S (S j)) (S (S j)) bc bc Hne
                  ltac:(lia) Hbc Hbc).
    assert (Hlt : Z.of_nat p < bc); [|lia].
    subst idx. unfold Np.from_1, Serializer.boundaryidx in Hbj, Hbc.
    simpl in Hbj, Hbc.
    apply lookup_app_Some in Hbj as [Hbj|[Hge Hbj]].
    - apply lookup_app_Some in Hbc as [Hbc|[Hge Hbc]].
      + by apply (segment_borders_lookup_lt labels j (S j)); [lia|..].
      + apply list_lookup_singleton_Some in Hbc as [_ <-].
        apply lookup_lt_Some in Hy. lia.
    - apply lookup_lt_Some in Hbj. apply lookup_lt_Some in Hbc.
      rewrite length_app in Hbc. simpl in *. lia. }
  pose proof (run_constant labels (Z.to_nat bc - S p) (S p)) as Hrun.
  replace (S p + (Z.to_nat bc - S p))%nat with (Z.to_nat bc) in Hrun by lia.
  rewrite Hy, Hb in Hrun.
  assert (Some y = Some b) as [= <-]; [|done].
  apply Hrun; [lia|].
  intros k Hk Hcp.
  apply (no_change_between_boundaries labels j k (Z.of_nat p) bc Hne Hbj Hbc Hcp). lia.
Qed.

Section SerializerSymbols.
Context {time : Type}.
Variable truthy : time → bool.

Lemma segment_spans_inv (labels : list Z) (ft : list time) starts ends sl :
  labels ≠ [] →
  Serializer.segment_spans labels ft = Some (starts, ends, sl) →
  ∃ bt, starts = Np.but_last bt ∧ ends = Np.from_1 bt ∧
        length bt = S (length sl) ∧
        length sl = S (length (Merger.segment_borders labels)) ∧
        ∀ j i, Np.from_1 (Serializer.boundaryidx labels) !! j = Some i →
               sl !! j = labels !! Z.to_nat i.
Proof.
  intros Hne. unfold Serializer.segment_spans.
  destruct (Np.take_indices ft (Serializer.boundaryidx labels)) as [bt|] eqn:Hbt;
    [|done].
  cbn [mbind option_bind].
  destruct (take_indices_in_range labels (Np.from_1 (Serializer.boundaryidx labels)))
    as (sl' & -> & Hsl & Hslt).
  { intros i (j & Hj)%list_elem_of_lookup_1. rewrite lookup_from_1 in Hj.
    pose proof (boundaryidx_sorted labels (S j) (S j) i i Hne ltac:(lia) Hj Hj). lia. }
  cbn [mbind option_bind]. intros [= <- <- <-].
  apply length_mapM in Hbt. rewrite length_boundaryidx in Hbt.
  rewrite length_from_1, length_boundaryidx in Hsl. simpl in Hsl.
  exists bt. split_and!; try done; lia.
Qed.

Lemma segment_row_symbol (l : list (time * time * Z)) body (i : nat) r :
  mapM segment_row l = Some body → body !! i = Some r →
  ∃ x, l !! i = Some x ∧
       Np.getitem Serializer.alphabet x.2 = Some (Serializer.r_symbol r).
Proof.
  intros H%mapM_Some Hr.
  destruct (Forall2_lookup_r _ _ _ _ _ H Hr) as ([[s e] lab] & Hx & Hf).
  exists (s, e, lab). split; [done|]. simpl. unfold segment_row in Hf.
  destruct (Np.getitem Serializer.alphabet lab); [|done].
  simpl in Hf. by injection Hf as <-.
Qed.

(** The lines of a text that was produced: the silence line, one line
    per segment with the letter of the segment's label, and at most one
    trailing silence line; the silence letter is the one after the
    largest segment label. *)
Lemma segment_rows_symbols (labels : list Z) (ft : list time) songlen rows :
  Serializer.segment_rows truthy labels ft songlen = Some rows →
  ∃ sl top sil first body tail_,
    rows = Serializer.Row Serializer.Literal0 first sil :: body ++ tail_ ∧
    labels ≠ [] ∧
    length sl = S (length (Merger.segment_borders labels)) ∧
    length body = length sl ∧
    (∀ j i, Np.from_1 (Serializer.boundaryidx labels) !! j = Some i →
            sl !! j = labels !! Z.to_nat i) ∧
    Np.max_int sl = Some top ∧
    Np.getitem Serializer.alphabet (top + 1) = Some sil ∧
    (∀ i r, body !! i = Some r →
            ∃ lab, sl !! i = Some lab ∧
                   Np.getitem Serializer.alphabet lab = Some (Serializer.r_symbol r)) ∧
    (length tail_ ≤ 1)%nat ∧
    (∀ r, r ∈ tail_ → Serializer.r_symbol r = sil).
Proof.
  intros Hrows.
  assert (Hne : labels ≠ []).
  { intros ->. rewrite segment_rows_of_spans_None in Hrows; [done|].
    unfold Serializer.segment_spans.
    by destruct (Np.take_indices ft (Serializer.boundaryidx [])). }
  destruct (Serializer.segment_spans labels ft) as [[[starts ends] sl]|] eqn:Hsp.
  2:{ by rewrite segment_rows_of_spans_None in Hrows. }
  destruct (segment_spans_inv labels ft starts ends sl Hne Hsp)
    as (bt & -> & -> & Hbl & Hsl & Hslt).
  destruct (lookup_lt_is_Some_2 bt 0) as [first Hb0]; [lia|].
  assert (Hs0 : Np.but_last bt !! 0%nat = Some first)
    by (apply lookup_but_last; split; [done|lia]).
  destruct (list.last (Np.from_1 bt)) as [last_|] eqn:Hel.
  2:{ apply last_None in Hel. apply (f_equal length) in Hel.
      rewrite length_from_1 in Hel. simpl in Hel. lia. }
  rewrite (segment_rows_unfold truthy labels ft songlen _ _ _ _ _ Hsp Hs0 Hel) in Hrows.
  destruct (mapM segment_row _) as [body|] eqn:Hbody; [|done].
  cbn [mbind option_bind] in Hrows.
  destruct (Np.max_int sl) as [top|] eqn:Hmax; [|done].
  cbn [mbind option_bind] in Hrows.
  destruct (Np.getitem Serializer.alphabet (top + 1)) as [sil|] eqn:Hsil; [|done].
  cbn [mbind option_bind] in Hrows. injection Hrows as <-.
  exists sl, top, sil, first, body, (silence_rows truthy last_ sil songlen).
  split_and!; try done.
  - apply length_mapM in Hbody. rewrite <- Hbody.
    rewrite !length_zip, length_but_last, length_from_1. lia.
  - intros i r Hr.
    destruct (segment_row_symbol _ _ _ _ Hbody Hr) as ([[s e] lab] & Hx & Hsym).
    apply lookup_zip_Some in Hx as [_ Hlab]. by exists lab.
  - unfold silence_rows. destruct (SerializerSpec.trailing truthy songlen); simpl; lia.
  - unfold silence_rows. intros r.
    destruct (SerializerSpec.trailing truthy songlen); [|by intros ?%elem_of_nil].
    by intros ->%list_elem_of_singleton.
Qed.

(** X12. No two consecutive lines of the text carry the same symbol, when the
    labels are not negative: neighbouring segments are maximal runs with
    different labels, and the silence letter is used by no segment. *)
Theorem convert_labels_to_segments_symbols_alternate
    (labels : list Z) (ft : list time) (songlen : option time)
    (rows : list (Serializer.row time)) (i : nat) (r r' : Serializer.row time) :
  (∀ l, l ∈ labels → 0 ≤ l) →
  Serializer.segment_rows truthy labels ft songlen = Some rows →
  rows !! i = Some r → rows !! S i = Some r' →
  Serializer.r_symbol r ≠ Serializer.r_symbol r'.
Proof.
  intros Hpos Hrows Hr Hr'.
  destruct (segment_rows_symbols labels ft songlen rows Hrows)
    as (sl & top & sil & first & body & tail_ & -> & Hne & Hsl & Hbl & Hslt
        & Hmax & Hsil & Hbody & Htl & Htail).
  destruct (seglabels_max labels sl top Hne Hsl Hslt Hmax) as (Hsub & Htop & _).
  apply max_int_spec in Hmax as [_ Hle].
  assert (Hsil_ne : ∀ k x, body !! k = Some x → Serializer.r_symbol x ≠ sil).
  { intros k x Hx Heq. destruct (Hbody k x Hx) as (lab & Hlab & Hsym).
    apply list_elem_of_lookup_2 in Hlab.
    rewrite Heq in Hsym.
    pose proof (alphabet_injective lab (top + 1) sil
                  (Hpos _ (Hsub _ Hlab)) ltac:(pose proof (Hpos _ Htop); lia)
                  Hsym Hsil).
    pose proof (Hle lab Hlab). lia. }
  simpl in Hr'. destruct i as [|i].
  - simpl in Hr. injection Hr as <-. simpl.
    apply lookup_app_Some in Hr' as [Hr'|[Hge _]];
      [intros Heq; by apply (Hsil_ne 0%nat r')|lia].
  - simpl in Hr.
    apply lookup_app_Some in Hr as [Hr|[Hge Hr]].
    + apply lookup_app_Some in Hr' as [Hr'|[Hge' Hr']].
      * destruct (Hbody _ _ Hr) as (a & Ha & Hsa).
        destruct (Hbody _ _ Hr') as (b & Hb & Hsb).
        intros Heq. rewrite Heq in Hsa.
        apply (seglabels_adjacent_differ labels sl i a b Hne Hslt Hsl Ha Hb).
        apply (alphabet_injective a b (Serializer.r_symbol r')); try done.
        -- apply Hpos, Hsub. by eapply list_elem_of_lookup_2.
        -- apply Hpos, Hsub. by eapply list_elem_of_lookup_2.
      * rewrite (Htail r' (list_elem_of_lookup_2 _ _ _ Hr')).
        by apply (Hsil_ne i).
    + apply lookup_app_Some in Hr' as [Hr'|[_ Hr']];
        apply lookup_lt_Some in Hr'; lia.
Qed.

End SerializerSymbols.

Lemma convert_labels_to_segments_symbols_alternate_witness :
  Serializer.segment_rows SecondsDemo.truthy [0;0;1;1;1;0] [1;2;3;4;5;6] (Some 9)
  = Some [Serializer.Row Serializer.Literal0 1 "C"%char;
          Serializer.Row (Serializer.At 1) 2 "A"%char;
          Serializer.Row (Serializer.At 2) 5 "B"%char;
          Serializer.Row (Serializer.At 5) 6 "A"%char;
          Serializer.Row (Serializer.At 6) 9 "C"%char] ∧
  "B"%char ≠ "A"%char.
Proof.
  split; [reflexivity|].
  apply (convert_labels_to_segments_symbols_alternate SecondsDemo.truthy
           [0;0;1;1;1;0] [1;2;3;4;5;6] (Some 9)
           [Serializer.Row Serializer.Literal0 1 "C";
            Serializer.Row (Serializer.At 1) 2 "A";
            Serializer.Row (Serializer.At 2) 5 "B";
            Serializer.Row (Serializer.At 5) 6 "A";
            Serializer.Row (Serializer.At 6) 9 "C"]
           2%nat
           (Serializer.Row (Serializer.At 2) 5 "B")
           (Serializer.Row (Serializer.At 5) 6 "A")).
  - intros l Hl. repeat (apply elem_of_cons in Hl as [->|Hl]; [lia|]).
    by apply elem_of_nil in Hl.
  - reflexivity.
  - reflexivity.
  - reflexivity.
Defined.

(* --------------------------------------------------------------------- *)
(* _parse_args (segmenter.py, lines 507-523)                              *)
(* --------------------------------------------------------------------- *)
(* [eval(value)] runs in the frame of [_parse_args]: the expression can
   read the locals [args], [kwargs], [key], [value] and the file names
   bound so far, it can change the objects [args] and [kwargs] and the
   rest of the interpreter state, and it can raise.  It is a parameter
   that takes all of this and, when it returns, gives the value together
   with what it left behind.  It cannot rebind a local of the function.
   [_die_with_usage()] prints the usage text and leaves through
   [sys.exit(1)].  The dictionary [kwargs] is a finite map from option
   names to values. *)

From stdpp Require Import gmap.
Local Open Scope Z_scope.

Module Cli.
Section Cli.
Context {V World : Type}.

(** What [eval] finds when it is called. *)
Record frame := Frame {
  fr_world : World;                      (* the rest of the interpreter state *)
  fr_args : list string;                 (* the list [args] *)
  fr_kwargs : gmap string V;             (* the dictionary [kwargs] *)
  fr_key : string;
  fr_value : string;                     (* the expression evaluated *)
  fr_inputfilename : option string;      (* [None]: not bound yet *)
  fr_outputfilename : option string
}.

(** What [eval] leaves when it returns. *)
Record evaluated := Evaluated {
  ev_value : V;
  ev_world : World;
  ev_args : list string;
  ev_kwargs : gmap string V
}.

Variable py_eval : frame → option evaluated.

(** How a call ends. *)
Inductive outcome :=
  | Usage                       (* _die_with_usage(): sys.exit(1) *)
  | EvalRaised                  (* an exception out of eval(value) *)
  | UnboundLocal                (* UnboundLocalError at the return *)
  | Parsed (inputfilename outputfilename : string) (kwargs : gmap string V).

(** [str.lower] on one character and on a string (ASCII letters). *)
Definition lower_char (c : Ascii.ascii) : Ascii.ascii :=
  let n := Ascii.nat_of_ascii c in
  if (65 <=? n)%nat && (n <=? 90)%nat then Ascii.ascii_of_nat (n + 32) else c.

Fixpoint lower (s : string) : string :=
  match s with
  | String.EmptyString => String.EmptyString
  | String.String c r => String.String (lower_char c) (lower r)
  end.

(** [key.startswith('-')] *)
Definition startswith_dash (key : string) : bool :=
  match key with
  | String.String c _ => Ascii.eqb c "-"
  | String.EmptyString => false
  end.

(** [key[1:]] *)
Definition drop_first (key : string) : string :=
  match key with
  | String.String _ r => r
  | String.EmptyString => String.EmptyString
  end.

(** [args[::2]] and [args[1::2]] *)
Fixpoint evens (args : list string) : list string :=
  match args with
  | x :: _ :: r => x :: evens r
  | [x] => [x]
  | [] => []
  end.

Fixpoint odds (args : list string) : list string :=
  match args with
  | _ :: y :: r => y :: odds r
  | _ => []
  end.

(** The [for key, value in zip(...)] loop and the return statement.  The
    list of pairs was built before the loop; [w], [args] and [kwargs] are
    the current contents of what an evaluated expression may change. *)
Fixpoint parse_loop (kvs : list (string * string)) (w : World)
    (args : list string)
    (inputfilename outputfilename : option string) (kwargs : gmap string V)
  : outcome :=
  match kvs with
  | [] =>
      match inputfilename, outputfilename with
      | Some i, Some o => Parsed i o kwargs
      | _, _ => UnboundLocal
      end
  | (key, value) :: rest =>
      if negb (startswith_dash key) then Usage
      else if String.eqb (lower key) "-i"
           then parse_loop rest w args (Some value) outputfilename kwargs
      else if String.eqb (lower key) "-o"
           then parse_loop rest w args inputfilename (Some value) kwargs
      else match py_eval (Frame w args kwargs key value
                            inputfilename outputfilename) with
           | Some ev =>
               (* kwargs[key[1:]] = <the value> *)
               parse_loop rest (ev_world ev) (ev_args ev)
                 inputfilename outputfilename
                 (<[drop_first key := ev_value ev]> (ev_kwargs ev))
           | None => EvalRaised
           end
  end.

Definition _parse_args (w : World) (args : list string) : outcome :=
  if (length args <? 4)%nat || (length args mod 2 =? 1)%nat then Usage
  else parse_loop (zip (evens args) (odds args)) w args None None ∅.


End Cli.
Global Arguments frame : clear implicits.
Global Arguments evaluated : clear implicits.
Global Arguments outcome : clear implicits.
End Cli.

Module StubCli.
(** A stand-in evaluator: the value is the text itself, nothing is
    changed. *)
Definition py_eval (fr : Cli.frame string unit) : option (Cli.evaluated string unit) :=
  Some (Cli.Evaluated (Cli.fr_value fr) (Cli.fr_world fr) (Cli.fr_args fr)
          (Cli.fr_kwargs fr)).

(** An evaluator for which [len(args)] gives the number of arguments and
    anything else its own text. *)
Definition py_eval_len (fr : Cli.frame string unit)
  : option (Cli.evaluated string unit) :=
  Some (Cli.Evaluated
          (if String.eqb (Cli.fr_value fr) "len(args)"
           then pretty (length (Cli.fr_args fr)) else Cli.fr_value fr)
          (Cli.fr_world fr) (Cli.fr_args fr) (Cli.fr_kwargs fr)).
End StubCli.

Example parse_args_ex :
  Cli._parse_args StubCli.py_eval ()
    ["-i"; "a.wav"; "-rank"; "4"; "-O"; "out.lab"]
  = Cli.Parsed "a.wav" "out.lab" {["rank" := "4"]}.
Proof. reflexivity. Qed.

(** The value of an option can depend on the other arguments. *)
Example parse_args_reads_args :
  Cli._parse_args StubCli.py_eval_len ()
    ["-i"; "a"; "-o"; "b"; "-x"; "len(args)"]
  = Cli.Parsed "a" "b" {["x" := "6"]} ∧
  Cli._parse_args StubCli.py_eval_len ()
    ["-i"; "a"; "-o"; "b"; "-x"; "len(args)"; "-I"; "c"]
  = Cli.Parsed "c" "b" {["x" := "8"]}.
Proof. split; reflexivity. Qed.

Section CliFacts.
Context {V World : Type}.
Variable py_eval : Cli.frame V World → option (Cli.evaluated V World).

Local Abbreviation parse_loop := (Cli.parse_loop py_eval).
Local Abbreviation pairs args := (zip (Cli.evens args) (Cli.odds args)).



(** Without an [-i] pair the input file name is never bound. *)
Lemma parse_loop_no_input (kvs : list (string * string)) :
  ∀ w a outp kw,
  (∀ k v, (k, v) ∈ kvs → Cli.lower k ≠ "-i") →
  (∀ k v, (k, v) ∈ kvs →
     Cli.startswith_dash k = true ∧
     (Cli.lower k = "-o" ∨
      ∀ fr, Cli.fr_key fr = k → Cli.fr_value fr = v → is_Some (py_eval fr))) →
  parse_loop kvs w a None outp kw = Cli.UnboundLocal.
Proof.
  induction kvs as [|[key value] rest IH]; intros w a outp kw Hno Hclean.
  - reflexivity.
  - cbn [Cli.parse_loop].
    destruct (Hclean key value (list_elem_of_here _ _)) as [-> Hv].
    cbn [negb].
    assert (String.eqb (Cli.lower key) "-i" = false) as ->.
    { apply String.eqb_neq. eapply Hno, list_elem_of_here. }
    assert (Hrest : ∀ w' a' outp' kw',
              parse_loop rest w' a' None outp' kw' = Cli.UnboundLocal).
    { intros. apply IH; intros k v Hkv.
      - eapply Hno. by apply list_elem_of_further.
      - apply Hclean. by apply list_elem_of_further. }
    destruct (String.eqb (Cli.lower key) "-o") eqn:Ho; [apply Hrest|].
    apply String.eqb_neq in Ho.
    destruct Hv as [?|Hv]; [done|].
    destruct (Hv (Cli.Frame w a kw key value None outp) eq_refl eq_refl)
      as [ev ->].
    apply Hrest.
Qed.

Lemma parse_loop_no_output (kvs : list (string * string)) :
  ∀ w a inp kw,
  (∀ k v, (k, v) ∈ kvs → Cli.lower k ≠ "-o") →
  (∀ k v, (k, v) ∈ kvs →
     Cli.startswith_dash k = true ∧
     (Cli.lower k = "-i" ∨
      ∀ fr, Cli.fr_key fr = k → Cli.fr_value fr = v → is_Some (py_eval fr))) →
  parse_loop kvs w a inp None kw = Cli.UnboundLocal.
Proof.
  induction kvs as [|[key value] rest IH]; intros w a inp kw Hno Hclean.
  - by destruct inp.
  - cbn [Cli.parse_loop].
    destruct (Hclean key value (list_elem_of_here _ _)) as [-> Hv].
    cbn [negb].
    assert (Hrest : ∀ w' a' inp' kw',
              parse_loop rest w' a' inp' None kw' = Cli.UnboundLocal).
    { intros. apply IH; intros k v Hkv.
      - eapply Hno. by apply list_elem_of_further.
      - apply Hclean. by apply list_elem_of_further. }
    destruct (String.eqb (Cli.lower key) "-i") eqn:Hi; [apply Hrest|].
    apply String.eqb_neq in Hi.
    assert (String.eqb (Cli.lower key) "-o" = false) as ->.
    { apply String.eqb_neq. eapply Hno, list_elem_of_here. }
    destruct Hv as [?|Hv]; [done|].
    destruct (Hv (Cli.Frame w a kw key value inp None) eq_refl eq_refl)
      as [ev ->].
    apply Hrest.
Qed.

(** Pairs without an [-i] key leave the input file name as it is. *)
Lemma parse_loop_keeps_input (kvs : list (string * string)) :
  ∀ w a inp outp kw i o kw',
  (∀ k v, (k, v) ∈ kvs → Cli.lower k ≠ "-i") →
  parse_loop kvs w a inp outp kw = Cli.Parsed i o kw' → inp = Some i.
Proof.
  induction kvs as [|[key value] rest IH]; intros w a inp outp kw i o kw' Hno H.
  - cbn [Cli.parse_loop] in H.
    destruct inp; [|discriminate H]. destruct outp; [|discriminate H].
    by injection H as -> _ _.
  - cbn [Cli.parse_loop] in H.
    assert (Hrest : ∀ k v, (k, v) ∈ rest → Cli.lower k ≠ "-i")
      by (intros k v Hkv; eapply Hno; by apply list_elem_of_further).
    destruct (negb (Cli.startswith_dash key)); [discriminate H|].
    destruct (String.eqb (Cli.lower key) "-i") eqn:Hi.
    { apply String.eqb_eq in Hi. by apply (Hno key value) in Hi; [|left]. }
    destruct (String.eqb (Cli.lower key) "-o"); [by eapply IH|].
    destruct (py_eval _); [by eapply IH | discriminate H].
Qed.

Lemma parse_loop_keeps_output (kvs : list (string * string)) :
  ∀ w a inp outp kw i o kw',
  (∀ k v, (k, v) ∈ kvs → Cli.lower k ≠ "-o") →
  parse_loop kvs w a inp outp kw = Cli.Parsed i o kw' → outp = Some o.
Proof.
  induction kvs as [|[key value] rest IH]; intros w a inp outp kw i o kw' Hno H.
  - cbn [Cli.parse_loop] in H.
    destruct inp; [|discriminate H]. destruct outp; [|discriminate H].
    by injection H as _ -> _.
  - cbn [Cli.parse_loop] in H.
    assert (Hrest : ∀ k v, (k, v) ∈ rest → Cli.lower k ≠ "-o")
      by (intros k v Hkv; eapply Hno; by apply list_elem_of_further).
    destruct (negb (Cli.startswith_dash key)); [discriminate H|].
    destruct (String.eqb (Cli.lower key) "-i"); [by eapply IH|].
    destruct (String.eqb (Cli.lower key) "-o") eqn:Ho.
    { apply String.eqb_eq in Ho. by apply (Hno key value) in Ho; [|left]. }
    destruct (py_eval _); [by eapply IH | discriminate H].
Qed.

(** The file names returned are those of the last [-i] and [-o] pair. *)
Lemma parse_loop_last_file_option (pre : list (string * string)) :
  ∀ w a inp outp kw i o kw' k v post,
  parse_loop (pre ++ (k, v) :: post) w a inp outp kw = Cli.Parsed i o kw' →
  (Cli.lower k = "-i" →
   (∀ k' v', (k', v') ∈ post → Cli.lower k' ≠ "-i") → i = v) ∧
  (Cli.lower k = "-o" →
   (∀ k' v', (k', v') ∈ post → Cli.lower k' ≠ "-o") → o = v).
Proof.
  induction pre as [|[key value] pre IH];
    intros w a inp outp kw i o kw' k v post H.
  - cbn [app Cli.parse_loop] in H.
    destruct (negb (Cli.startswith_dash k)); [discriminate H|].
    split.
    + intros Hk Hpost. rewrite Hk in H. cbn in H.
      apply parse_loop_keeps_input in H; [|done]. by injection H.
    + intros Hk Hpost. rewrite Hk in H. cbn in H.
      apply parse_loop_keeps_output in H; [|done]. by injection H.
  - cbn [app Cli.parse_loop] in H.
    destruct (negb (Cli.startswith_dash key)); [discriminate H|].
    destruct (String.eqb (Cli.lower key) "-i"); [by eapply IH|].
    destruct (String.eqb (Cli.lower key) "-o"); [by eapply IH|].
    destruct (py_eval _); [by eapply IH | discriminate H].
Qed.

End CliFacts.

Section CliTheorems.
Context {V World : Type}.
Variable py_eval : Cli.frame V World → option (Cli.evaluated V World).

Local Abbreviation pairs args := (zip (Cli.evens args) (Cli.odds args)).


(** X24. _parse_args, missing file option: a well-formed argument list (at
    least four arguments, an even number, every key starting with a dash,
    every option value evaluating) that has no [-i] pair, or no [-o]
    pair, does not reach the usage exit: the call ends in the
    UnboundLocalError of the return statement. *)
Theorem parse_args_missing_file_option (w : World) (args : list string) :
  (4 ≤ length args)%nat → (length args mod 2 = 0)%nat →
  (∀ k v, (k, v) ∈ pairs args →
     Cli.startswith_dash k = true ∧
     (Cli.lower k = "-i" ∨ Cli.lower k = "-o" ∨
      ∀ fr, Cli.fr_key fr = k → Cli.fr_value fr = v → is_Some (py_eval fr))) →
  (∀ k v, (k, v) ∈ pairs args → Cli.lower k ≠ "-i") ∨
  (∀ k v, (k, v) ∈ pairs args → Cli.lower k ≠ "-o") →
  Cli._parse_args py_eval w args = Cli.UnboundLocal.
Proof.
  intros Hlen Hpar Hclean Hmiss. unfold Cli._parse_args.
  assert ((length args <? 4)%nat = false) as -> by (apply Nat.ltb_ge; lia).
  assert ((length args mod 2 =? 1)%nat = false) as ->
    by (apply Nat.eqb_neq; lia).
  cbn [orb].
  destruct Hmiss as [Hno|Hno].
  - apply parse_loop_no_input; [done|].
    intros k v Hkv. destruct (Hclean k v Hkv) as [Hd [Hi|[Ho|Hv]]];
      [by apply Hno in Hkv | by split; [|left] | by split; [|right]].
  - apply parse_loop_no_output; [done|].
    intros k v Hkv. destruct (Hclean k v Hkv) as [Hd [Hi|[Ho|Hv]]];
      [by split; [|left] | by apply Hno in Hkv | by split; [|right]].
Qed.

(** X25. _parse_args, repeated file options: when the call returns, the
    input file name is the value of the last pair whose key lowercases
    to [-i], and the output file name that of the last pair whose key
    lowercases to [-o], whatever the evaluated expressions do. *)
Theorem parse_args_last_file_option_wins (w : World) (args : list string)
    (i o : string) (kw : gmap string V)
    (pre post : list (string * string)) (k v : string) :
  Cli._parse_args py_eval w args = Cli.Parsed i o kw →
  pairs args = pre ++ (k, v) :: post →
  (Cli.lower k = "-i" →
   (∀ k' v', (k', v') ∈ post → Cli.lower k' ≠ "-i") → i = v) ∧
  (Cli.lower k = "-o" →
   (∀ k' v', (k', v') ∈ post → Cli.lower k' ≠ "-o") → o = v).
Proof.
  unfold Cli._parse_args. intros H Hpairs.
  destruct ((length args <? 4)%nat || (length args mod 2 =? 1)%nat);
    [discriminate H|].
  rewrite Hpairs in H. by eapply parse_loop_last_file_option.
Qed.

End CliTheorems.


Lemma parse_args_missing_file_option_witness :
  Cli._parse_args StubCli.py_eval () ["-o"; "out.lab"; "-rank"; "4"]
  = Cli.UnboundLocal.
Proof.
  apply parse_args_missing_file_option.
  - simpl. lia.
  - reflexivity.
  - intros k v Hkv. cbn in Hkv.
    apply elem_of_cons in Hkv as [[= -> ->]|Hkv];
      [split; [reflexivity | right; left; reflexivity]|].
    apply elem_of_cons in Hkv as [[= -> ->]|Hkv];
      [split; [reflexivity | right; right; intros fr _ _; by eexists]|].
    by apply elem_of_nil in Hkv.
  - left. intros k v Hkv. cbn in Hkv.
    apply elem_of_cons in Hkv as [[= -> ->]|Hkv]; [discriminate|].
    apply elem_of_cons in Hkv as [[= -> ->]|Hkv]; [discriminate|].
    by apply elem_of_nil in Hkv.
Defined.

(** Two [-i] pairs around an option whose value reads [args]. *)
Lemma parse_args_last_file_option_wins_witness :
  Cli._parse_args StubCli.py_eval_len ()
    ["-i"; "a"; "-o"; "b"; "-x"; "len(args)"; "-I"; "c"]
  = Cli.Parsed "c" "b" {["x" := "8"]} ∧
  (Cli.lower "-I" = "-i" →
   (∀ k' v' : string, (k', v') ∈ ([] : list (string * string)) →
                      Cli.lower k' ≠ "-i") → "c" = "c") ∧
  (Cli.lower "-I" = "-o" →
   (∀ k' v' : string, (k', v') ∈ ([] : list (string * string)) →
                      Cli.lower k' ≠ "-o") → "b" = "c").
Proof.
  split; [reflexivity|].
  apply (parse_args_last_file_option_wins StubCli.py_eval_len ()
           ["-i"; "a"; "-o"; "b"; "-x"; "len(args)"; "-I"; "c"]
           "c" "b" {["x" := "8"]}
           [("-i", "a"); ("-o", "b"); ("-x", "len(args)")] [] "-I" "c");
    reflexivity.
Defined.

(* --------------------------------------------------------------------- *)
(* The segmentation extractors: inputs they reject                        *)
(* --------------------------------------------------------------------- *)

Section ExtractorErrors.
Context {A : Type} {ops : FloatOps A}.
Variable reconstruct : Arr.Array2 A → A → list A → Arr.Array2 A.

Lemma mapM_cons_None {X Y : Type} (f : X → option Y) (x : X) (l : list X) :
  f x = None → mapM f (x :: l) = None.
Proof. intros Hx. cbn. by rewrite Hx. Qed.

(** [np.convolve(score, np.ones(m), 'same')] raises for [m <= 0]:
    [np.ones] of a negative size, or an empty kernel. *)
Lemma smoothing_None (score : list A) (m : Z) :
  m ≤ 0 →
  (kernel ← Extractor.ones m; Extractor.convolve_same score kernel) = None.
Proof.
  intros Hm. unfold Extractor.ones.
  destruct (Z.ltb_spec m 0); [done|].
  replace m with 0 by lia. cbn [mbind option_bind Z.to_nat replicate].
  by destruct score.
Qed.

(** [c[:0].max()] raises: the maximum of an empty array. *)
Lemma peak_correlation_zero (x y : list A) :
  Extractor.peak_correlation 0 x y = None.
Proof.
  unfold Extractor.peak_correlation.
  destruct (Extractor.correlate_full x y) as [c|]; [|done].
  cbn [mbind option_bind]. unfold Np.slice_bound.
  change (2 * 0 <? 0) with false. cbv iota.
  replace (Z.to_nat (Z.min (2 * 0) (Z.of_nat (length c)))) with 0%nat by lia.
  done.
Qed.

(** The correlation variant after its loop, on an empty list of score
    curves: [segfun.max()] of an empty array raises. *)
Lemma correlation_tail_empty (win m : Z) :
  (C ← Extractor.correlation_matrix win ([] : list (list A));
   top ← Arr.amax (concat ([] : list (list A)));
   let segfun := Extractor.divide_all [] top in
   labels ← Extractor.argmax_axis0 segfun;
   labels ← Merger.remove_short_segments labels m;
   Some (labels, segfun)) = None.
Proof. reflexivity. Qed.

(** X14. nmf_analysis_to_segmentation, smoothing width: with
    [min_segment_length <= 0] the correlation variant raises for every
    decomposition (ValueError from [np.ones] or [np.convolve], or from
    the maximum of an empty array when there is no pattern); no labels
    are returned. *)
Theorem nmf_analysis_to_segmentation_bad_smoothing_width
    (sq : Arr.Array2 A) (win : Z) (W : Arr.Array3 A) (Zv : list A)
    (H : list (list A)) (min_segment_length : Z) (use_Z : bool) :
  min_segment_length ≤ 0 →
  Extractor.nmf_analysis_to_segmentation reconstruct sq win W Zv H
    min_segment_length use_Z = None.
Proof.
  intros Hm. unfold Extractor.nmf_analysis_to_segmentation. cbv zeta.
  destruct (zip (seq 0 (Arr.dim1 W)) (zip (Extractor.effective_Z use_Z Zv) H))
    as [|x rest].
  - apply correlation_tail_empty.
  - rewrite mapM_cons_None; [done|]. by apply smoothing_None.
Qed.

(** X15. nmf_analysis_to_segmentation, zero window: with [win = 0] the slice
    [[:2*win]] of every correlation is empty and its maximum raises, so
    the correlation variant returns no labels, whatever the
    decomposition is. *)
Theorem nmf_analysis_to_segmentation_zero_window
    (sq : Arr.Array2 A) (W : Arr.Array3 A) (Zv : list A)
    (H : list (list A)) (min_segment_length : Z) (use_Z : bool) :
  Extractor.nmf_analysis_to_segmentation reconstruct sq 0 W Zv H
    min_segment_length use_Z = None.
Proof.
  unfold Extractor.nmf_analysis_to_segmentation. cbv zeta.
  destruct (mapM _ _) as [[|x segfun]|]; [| |done]; cbn [mbind option_bind].
  - apply correlation_tail_empty.
  - unfold Extractor.correlation_matrix.
    rewrite mapM_cons_None; [done|].
    apply mapM_cons_None, peak_correlation_zero.
Qed.

(** X16. Both extractors, empty decomposition: with no pattern ([len(Z) = 0])
    the correlation variant raises at [segfun.max()] and the Viterbi
    variant at [loglikelihood[0]]; neither returns labels. *)
Theorem extractors_empty_decomposition
    (sq : Arr.Array2 A) (win : Z) (W : Arr.Array3 A) (H : list (list A))
    (selfloopprob : A) (min_segment_length : Z) (use_Z : bool) :
  Extractor.nmf_analysis_to_segmentation reconstruct sq win W [] H
    min_segment_length use_Z = None ∧
  Extractor.nmf_analysis_to_segmentation_using_viterbi_path reconstruct
    sq win W [] H selfloopprob use_Z min_segment_length = None.
Proof.
  split.
  - unfold Extractor.nmf_analysis_to_segmentation. cbv zeta.
    assert (Extractor.effective_Z use_Z ([] : list A) = []) as ->
      by by destruct use_Z.
    assert (zip (seq 0 (Arr.dim1 W)) (zip ([] : list A) H) = []) as ->
      by by destruct (seq 0 (Arr.dim1 W)).
    apply correlation_tail_empty.
  - unfold Extractor.nmf_analysis_to_segmentation_using_viterbi_path. cbv zeta.
    assert (Extractor.effective_Z use_Z ([] : list A) = []) as ->
      by by destruct use_Z.
    reflexivity.
Qed.

(** The Viterbi variant, no frames: when the activations have no column
    ([H.shape[1] = 0]) there is no last lattice column to start the
    traceback from, and no labels are returned. *)
Lemma viterbi_no_frames
    (sq : Arr.Array2 A) (win : Z) (W : Arr.Array3 A) (Zv : list A)
    (H : list (list A)) (selfloopprob : A) (use_Z : bool)
    (min_segment_length : Z) :
  length (default [] (head H)) = 0%nat →
  Extractor.nmf_analysis_to_segmentation_using_viterbi_path reconstruct
    sq win W Zv H selfloopprob use_Z min_segment_length = None.
Proof.
  intros HT.
  unfold Extractor.nmf_analysis_to_segmentation_using_viterbi_path. cbv zeta.
  rewrite HT.
  destruct (mapM _ _) as [lik|]; [|done]. cbn [mbind option_bind].
  destruct (Extractor.log_all lik !! 0%nat) as [row0|]; [|done].
  cbn [mbind option_bind]. reflexivity.
Qed.

End ExtractorErrors.

(* --------------------------------------------------------------------- *)
(* From the extractors to the text (the tail of segment_song, lines       *)
(* 260-265, followed by segment_wavfile, lines 501-504)                   *)
(* --------------------------------------------------------------------- *)

Section SerializerTotal.
Context {time : Type}.
Variable fmt4 : time → string.
Variable truthy : time → bool.

(** Labels in 0..24 with one frame time each can always be written. *)
Lemma convert_labels_to_segments_is_Some
    (labels : list Z) (ft : list time) (songlen : option time) :
  labels ≠ [] → length ft = length labels →
  (∀ l, l ∈ labels → 0 ≤ l < 25) →
  is_Some (Serializer.convert_labels_to_segments fmt4 truthy labels ft songlen).
Proof.
  intros Hne Hlen Hrange.
  destruct (segment_spans_shape labels ft Hne Hlen)
    as (bt & sl & first & last_ & Hsp & Hbl & Hsl & Hslt & Hbt & Hb0 & _ & Hbl' & _).
  assert (Hs0 : Np.but_last bt !! 0%nat = Some first)
    by (apply lookup_but_last; split; [done|lia]).
  assert (Hel : list.last (Np.from_1 bt) = Some last_).
  { rewrite last_lookup, length_from_1, lookup_from_1.
    rewrite last_lookup in Hbl'. rewrite <- Hbl'. f_equal. lia. }
  unfold Serializer.convert_labels_to_segments.
  rewrite (segment_rows_unfold truthy labels ft songlen _ _ _ _ _ Hsp Hs0 Hel).
  destruct (Np.max_int sl) as [top|] eqn:Hmax; [|by destruct sl].
  destruct (seglabels_max labels sl top Hne Hsl Hslt Hmax) as (Hsub & Htop & _).
  destruct (segment_row_total (zip (zip (Np.but_last bt) (Np.from_1 bt)) sl))
    as (body & -> & _).
  { intros [[s e] lab] Hx%elem_of_zip_r. apply Hsub, Hrange in Hx. simpl. lia. }
  cbn [mbind option_bind].
  pose proof (Hrange top Htop) as Ht.
  destruct (getitem_in_range Serializer.alphabet (top + 1)) as [sil ->];
    [simpl; lia|].
  cbn [mbind option_bind]. by eexists.
Qed.

(** More labels than frame times: the time of the last label's frame
    does not exist. *)
Lemma segment_spans_short_times (labels : list Z) (ft : list time) :
  (length ft < length labels)%nat →
  Serializer.segment_spans labels ft = None.
Proof.
  intros Hlen. unfold Serializer.segment_spans.
  assert (Hnone : Np.take_indices ft (Serializer.boundaryidx labels) = None).
  { apply mapM_None_2, Exists_exists.
    exists (Z.of_nat (length labels) - 1). split.
    - unfold Serializer.boundaryidx. simpl. right.
      rewrite elem_of_app, list_elem_of_singleton. by right.
    - rewrite getitem_nonneg by lia.
      assert (Hge : (Z.of_nat (length labels) - 1 <? Z.of_nat (length ft)) = false)
        by zbool.
      by rewrite Hge. }
  by rewrite Hnone.
Qed.

End SerializerTotal.

Section ExtractorPipeline.
Context {A : Type} {ops : FloatOps A} {time : Type}.
Variable reconstruct : Arr.Array2 A → A → list A → Arr.Array2 A.
Variable fmt4 : time → string.
Variable truthy : time → bool.

Hypothesis reconstruct_frames :
  ∀ w z h, length (Arr.columns (reconstruct w z h)) = length h.

(** X17. Both extractors, no frames: when every activation row is empty the
    correlation variant raises in [np.convolve] (an empty score curve)
    and the Viterbi variant at [lattice[:, -1]]; neither returns
    labels. *)
Theorem extractors_no_frames
    (sq : Arr.Array2 A) (win : Z) (W : Arr.Array3 A) (Zv : list A)
    (H : list (list A)) (selfloopprob : A) (use_Z : bool)
    (min_segment_length : Z) :
  Forall (λ h, length h = 0%nat) H →
  Extractor.nmf_analysis_to_segmentation reconstruct sq win W Zv H
    min_segment_length use_Z = None ∧
  Extractor.nmf_analysis_to_segmentation_using_viterbi_path reconstruct
    sq win W Zv H selfloopprob use_Z min_segment_length = None.
Proof.
  intros HT. split.
  - unfold Extractor.nmf_analysis_to_segmentation. cbv zeta.
    destruct (zip (seq 0 (Arr.dim1 W)) (zip (Extractor.effective_Z use_Z Zv) H))
      as [|[k [z h]] rest] eqn:Hzip.
    + apply correlation_tail_empty.
    + rewrite mapM_cons_None; [done|]. cbn [fst snd].
      assert (Hh : h ∈ H).
      { assert (Hx : (k, (z, h)) ∈ (k, (z, h)) :: rest) by left.
        rewrite <- Hzip in Hx. by apply elem_of_zip_r, elem_of_zip_r in Hx. }
      rewrite list.Forall_forall in HT. specialize (HT h Hh).
      pose proof (length_score reconstruct reconstruct_frames
                    (Arr.slice1 W k) z h) as Hs.
      rewrite HT in Hs.
      destruct (Arr.sum_axis0 (reconstruct (Arr.slice1 W k) z h)) as [|? ?];
        [|discriminate Hs].
      destruct (Extractor.ones min_segment_length) as [[|y kernel]|]; done.
  - apply viterbi_no_frames.
    destruct H as [|h H]; [done|]. simpl. by inversion HT.
Qed.

(** X18. The Viterbi variant and the writer: for a decomposition with 1 to 25
    patterns over [T >= 1] frames (W, Z and H of matching shapes) and
    [T] frame times, the Viterbi variant returns labels and
    [convert_labels_to_segments] turns them into a text; no step of the
    chain raises. *)
Theorem viterbi_labels_are_written
    (sq : Arr.Array2 A) (win : Z) (W : Arr.Array3 A) (Zv : list A)
    (H : list (list A)) (selfloopprob : A) (use_Z : bool)
    (min_segment_length : Z) (T : nat)
    (ft : list time) (songlen : option time) :
  (1 ≤ length Zv ≤ 25)%nat → Arr.dim1 W = length Zv → length H = length Zv →
  Forall (λ h, length h = T) H → (1 ≤ T)%nat → length ft = T →
  ∃ labels likelihood text,
    Extractor.nmf_analysis_to_segmentation_using_viterbi_path reconstruct
      sq win W Zv H selfloopprob use_Z min_segment_length
    = Some (labels, likelihood) ∧
    Serializer.convert_labels_to_segments fmt4 truthy labels ft songlen
    = Some text.
Proof.
  intros [Hr1 Hr25] HW HH HT HT1 Hft.
  destruct (viterbi_path_shape reconstruct reconstruct_frames sq win W Zv H
              selfloopprob use_Z min_segment_length T)
    as (labels & lik & Hv & Hlen & Hrange); try done.
  destruct (convert_labels_to_segments_is_Some fmt4 truthy labels ft songlen)
    as [text Htext].
  - intros ->. simpl in Hlen. lia.
  - lia.
  - rewrite list.Forall_forall in Hrange. intros l Hl%Hrange. lia.
  - by exists labels, lik, text.
Qed.

(** X19. The correlation variant and the writer: when the smoothing width
    [min_segment_length] exceeds the number of frames [T], the
    correlation variant returns [min_segment_length] labels, more than
    there are frame times, and [convert_labels_to_segments] raises
    IndexError on them: the chain produces no text. *)
Theorem correlation_labels_outrun_frame_times
    (sq : Arr.Array2 A) (win : Z) (W : Arr.Array3 A) (Zv : list A)
    (H : list (list A)) (use_Z : bool)
    (min_segment_length : Z) (T : nat)
    (ft : list time) (songlen : option time) :
  (1 ≤ length Zv)%nat → Arr.dim1 W = length Zv → length H = length Zv →
  Forall (λ h, length h = T) H → (1 ≤ T)%nat → 1 ≤ win →
  Z.of_nat T < min_segment_length → length ft = T →
  ∃ labels segfun,
    Extractor.nmf_analysis_to_segmentation reconstruct sq win W Zv H
      min_segment_length use_Z = Some (labels, segfun) ∧
    length labels = Z.to_nat min_segment_length ∧
    Serializer.convert_labels_to_segments fmt4 truthy labels ft songlen = None.
Proof.
  intros Hr HW HH HT HT1 Hwin Hm Hft.
  destruct (nmf_analysis_to_segmentation_shape reconstruct reconstruct_frames
              sq win W Zv H min_segment_length use_Z T)
    as (labels & segfun & Hc & Hlen & _); try done; [lia|].
  exists labels, segfun. split_and!; [done|lia|].
  apply convert_of_rows_None, segment_rows_of_spans_None,
    segment_spans_short_times. lia.
Qed.

End ExtractorPipeline.

Lemma stub_reconstruct_frames (w : Arr.Array2 Z) (z : Z) (h : list Z) :
  length (Arr.columns (StubExtract.reconstruct w z h)) = length h.
Proof. unfold StubExtract.reconstruct. simpl. apply length_fmap. Qed.

(** One pattern whose activation row is empty. *)
Lemma extractors_no_frames_witness :
  Extractor.nmf_analysis_to_segmentation (ops := ZOps)
    StubExtract.reconstruct StubExtract.seq1 1 StubExtract.W1 [1] [[]] 2 true
  = None ∧
  Extractor.nmf_analysis_to_segmentation_using_viterbi_path (ops := ZOps)
    StubExtract.reconstruct StubExtract.seq1 1 StubExtract.W1 [1] [[]] 2 true 2
  = None.
Proof.
  apply (extractors_no_frames (ops := ZOps) StubExtract.reconstruct
           stub_reconstruct_frames).
  by repeat constructor.
Defined.

(** One pattern, three frames, three frame times. *)
Lemma viterbi_labels_are_written_witness :
  ∃ labels likelihood text,
    Extractor.nmf_analysis_to_segmentation_using_viterbi_path (ops := ZOps)
      StubExtract.reconstruct StubExtract.seq1 1 StubExtract.W1 [1] [[5; 6; 7]]
      2 true 2
    = Some (labels, likelihood) ∧
    Serializer.convert_labels_to_segments SecondsDemo.fmt4 SecondsDemo.truthy
      labels [10; 20; 30] (Some 40)
    = Some text.
Proof.
  apply (viterbi_labels_are_written (ops := ZOps) StubExtract.reconstruct
           SecondsDemo.fmt4 SecondsDemo.truthy stub_reconstruct_frames
           StubExtract.seq1 1 StubExtract.W1 [1] [[5; 6; 7]] 2 true 2 3%nat).
  - simpl. lia.
  - reflexivity.
  - reflexivity.
  - by repeat constructor.
  - lia.
  - reflexivity.
Defined.

(** One pattern, one frame, a smoothing width of two. *)
Lemma correlation_labels_outrun_frame_times_witness :
  ∃ labels segfun,
    Extractor.nmf_analysis_to_segmentation (ops := ZOps)
      StubExtract.reconstruct StubExtract.seq1 1 StubExtract.W1 [1] [[5]] 2 true
    = Some (labels, segfun) ∧
    length labels = Z.to_nat 2 ∧
    Serializer.convert_labels_to_segments SecondsDemo.fmt4 SecondsDemo.truthy
      labels [10] (Some 40)
    = None.
Proof.
  apply (correlation_labels_outrun_frame_times (ops := ZOps)
           StubExtract.reconstruct SecondsDemo.fmt4 SecondsDemo.truthy
           stub_reconstruct_frames
           StubExtract.seq1 1 StubExtract.W1 [1] [[5]] true 2 1%nat).
  - simpl. lia.
  - reflexivity.
  - reflexivity.
  - by repeat constructor.
  - lia.
  - lia.
  - lia.
  - reflexivity.
Defined.

Lemma nmf_analysis_to_segmentation_bad_smoothing_width_witness :
  Extractor.nmf_analysis_to_segmentation (ops := ZOps)
    StubExtract.reconstruct StubExtract.seq1 1 StubExtract.W1 [1] [[5]] 0 true
  = None.
Proof.
  apply (nmf_analysis_to_segmentation_bad_smoothing_width (ops := ZOps)). lia.
Defined.

(* --------------------------------------------------------------------- *)
(* compute_effective_pattern_length (segmenter.py, lines 412-417)         *)
(* --------------------------------------------------------------------- *)
(* [w] is one pattern [W[:, k, :]], an array of shape (F, win) kept as
   its [win] columns. *)

Module Pattern.
Section Pattern.
Context {A : Type} {ops : FloatOps A}.

(** [np.min(v)]; ValueError on an empty sequence. *)
Definition fmin (x y : A) : A := if fltb y x then y else x.

Definition amin (v : list A) : option A :=
  match v with
  | [] => None
  | x :: r => Some (foldl fmin x r)
  end.

Definition compute_effective_pattern_length (w : Arr.Array2 A) : option Z :=
  let wsum := Arr.sum_axis0 w in
  lowest ← amin wsum;
  (* nonzero_idx, = np.nonzero(wsum > wsum.min()) *)
  let nonzero_idx := Np.nonzero_bool ((λ x, fltb lowest x) <$> wsum) in
  last_ ← Np.getitem nonzero_idx (-1);
  first ← Np.getitem nonzero_idx 0;
  Some (last_ - first + 1).

End Pattern.
End Pattern.

Example compute_effective_pattern_length_ex :
  Pattern.compute_effective_pattern_length (ops := ZOps)
    {| Arr.shape0 := 2; Arr.columns := [[0; 1]; [2; 1]; [1; 1]; [1; 0]; [0; 1]] |}
  = Some 2.
Proof. reflexivity. Qed.

Section PatternFacts.
Context {A : Type} {ops : FloatOps A}.

Lemma amin_elem (v : list A) (lowest : A) :
  Pattern.amin v = Some lowest → lowest ∈ v.
Proof.
  destruct v as [|x r]; [done|]. simpl. intros [= <-].
  assert (H : ∀ r a, foldl Pattern.fmin a r = a ∨ foldl Pattern.fmin a r ∈ r).
  { clear. induction r as [|y r IH]; intros a; simpl; [by left|].
    destruct (IH (Pattern.fmin a y)) as [Heq|Hin]; [|by right; right].
    rewrite Heq. unfold Pattern.fmin. destruct (fltb y a); [right; left|by left]. }
  destruct (H r x) as [->|Hin]; [left|by right].
Qed.

(** X20. compute_effective_pattern_length, the span it measures: a returned
    length [n] is at least 1 and at most the number of columns [win];
    there is a first column [first] with [first + n <= win] such that
    the column sums of [first] and of [first + n - 1] exceed the
    smallest column sum, and every column whose sum exceeds it lies in
    [first, first + n). *)
Theorem compute_effective_pattern_length_span (w : Arr.Array2 A) (n : Z) :
  Pattern.compute_effective_pattern_length w = Some n →
  ∃ lowest first,
    Pattern.amin (Arr.sum_axis0 w) = Some lowest ∧
    0 ≤ first ∧ 1 ≤ n ∧ first + n ≤ Z.of_nat (length (Arr.columns w)) ∧
    (∃ x, Arr.sum_axis0 w !! Z.to_nat first = Some x ∧ fltb lowest x = true) ∧
    (∃ x, Arr.sum_axis0 w !! Z.to_nat (first + n - 1) = Some x ∧
          fltb lowest x = true) ∧
    ∀ (j : nat) x, Arr.sum_axis0 w !! j = Some x → fltb lowest x = true →
                   first ≤ Z.of_nat j < first + n.
Proof.
  unfold Pattern.compute_effective_pattern_length. cbv zeta.
  assert (Hcols : length (Arr.sum_axis0 w) = length (Arr.columns w))
    by (unfold Arr.sum_axis0; by rewrite length_fmap).
  set (wsum := Arr.sum_axis0 w) in *.
  destruct (Pattern.amin wsum) as [lowest|]; [|done].
  cbn [mbind option_bind]. unfold Np.nonzero_bool.
  set (mask := (λ x, fltb lowest x) <$> wsum).
  set (idx := Np.nonzero_from 0 mask).
  destruct (Np.getitem idx (-1)) as [last_|] eqn:Hlast; [|done].
  cbn [mbind option_bind].
  destruct (Np.getitem idx 0) as [first|] eqn:Hfirst; [|done].
  cbn [mbind option_bind]. intros [= <-].
  assert (Hne : idx ≠ []) by (intros Heq; by rewrite Heq in Hlast).
  rewrite getitem_minus_one, last_lookup in Hlast by done.
  rewrite getitem_nonneg in Hfirst by lia.
  destruct (0 <? Z.of_nat (length idx)); [|done].
  change (Z.to_nat 0) with 0%nat in Hfirst.
  assert (Hmask : ∀ v, v ∈ idx ↔
            ∃ k : nat, v = Z.of_nat k ∧
                       ∃ x, wsum !! k = Some x ∧ fltb lowest x = true).
  { intros v. subst idx. rewrite elem_of_nonzero_from. subst mask.
    split.
    - intros (k & -> & Hk). exists k. split; [lia|].
      rewrite list_lookup_fmap in Hk.
      destruct (wsum !! k) as [x|]; [|done]. simpl in Hk.
      exists x. split; [done|congruence].
    - intros (k & -> & x & Hx & Ht). exists k. split; [lia|].
      by rewrite list_lookup_fmap, Hx; simpl; rewrite Ht. }
  assert (Hsorted : ∀ p v, idx !! p = Some v → first ≤ v ≤ last_).
  { intros p v Hp. pose proof (lookup_lt_Some _ _ _ Hp) as Hpl. split.
    - destruct p as [|p]; [rewrite Hfirst in Hp; injection Hp; lia|].
      pose proof (nonzero_from_lookup_lt mask 0 0 (S p) first v
                    ltac:(lia) Hfirst Hp). lia.
    - destruct (decide (p = Init.Nat.pred (length idx))) as [->|Hd].
      + rewrite Hlast in Hp. injection Hp. lia.
      + pose proof (nonzero_from_lookup_lt mask 0 p (Init.Nat.pred (length idx))
                      v last_ ltac:(lia) Hp Hlast). lia. }
  pose proof (proj1 (Hmask first) (list_elem_of_lookup_2 _ _ _ Hfirst))
    as (kf & Hkf & xf & Hxf & Htf).
  pose proof (proj1 (Hmask last_) (list_elem_of_lookup_2 _ _ _ Hlast))
    as (kl & Hkl & xl & Hxl & Htl).
  pose proof (Hsorted _ _ Hfirst) as [_ Hfl].
  pose proof (lookup_lt_Some _ _ _ Hxl) as Hll.
  exists lowest, first. split_and!; try done; try lia.
  - exists xf. split; [|done]. by rewrite Hkf, Nat2Z.id.
  - exists xl. split; [|done].
    replace (first + (last_ - first + 1) - 1) with last_ by lia.
    by rewrite Hkl, Nat2Z.id.
  - intros j x Hj Ht.
    assert (Hin : Z.of_nat j ∈ idx) by (apply Hmask; eauto).
    apply list_elem_of_lookup_1 in Hin as [p Hp].
    pose proof (Hsorted _ _ Hp). lia.
Qed.

(** X21. compute_effective_pattern_length, flat pattern: when all the column
    sums are equal (in particular when the pattern has no column), no
    column exceeds the smallest sum and the function raises (IndexError
    at [nonzero_idx[-1]], ValueError for no column): no length is
    returned. *)
Theorem compute_effective_pattern_length_flat (w : Arr.Array2 A) (s : A) :
  fltb s s = false →
  (∀ x, x ∈ Arr.sum_axis0 w → x = s) →
  Pattern.compute_effective_pattern_length w = None.
Proof.
  intros Hirr Hflat.
  unfold Pattern.compute_effective_pattern_length. cbv zeta.
  destruct (Pattern.amin (Arr.sum_axis0 w)) as [lowest|] eqn:Hmin; [|done].
  cbn [mbind option_bind].
  pose proof (Hflat _ (amin_elem _ _ Hmin)) as ->.
  unfold Np.nonzero_bool. rewrite nonzero_from_all_false; [done|].
  apply Forall_fmap, list.Forall_forall. intros x Hx. simpl.
  by rewrite (Hflat x Hx).
Qed.

End PatternFacts.

Lemma compute_effective_pattern_length_span_witness :
  ∃ lowest first,
    Pattern.amin (ops := ZOps) [1; 3; 2; 1; 1] = Some lowest ∧
    0 ≤ first ∧ 1 ≤ 2 ∧ first + 2 ≤ 5 ∧
    (∃ x, [1; 3; 2; 1; 1] !! Z.to_nat first = Some x ∧ (lowest <? x) = true) ∧
    (∃ x, [1; 3; 2; 1; 1] !! Z.to_nat (first + 2 - 1) = Some x ∧
          (lowest <? x) = true) ∧
    ∀ (j : nat) x, [1; 3; 2; 1; 1] !! j = Some x → (lowest <? x) = true →
                   first ≤ Z.of_nat j < first + 2.
Proof.
  exact (compute_effective_pattern_length_span (ops := ZOps)
           {| Arr.shape0 := 2;
              Arr.columns := [[0; 1]; [2; 1]; [1; 1]; [1; 0]; [0; 1]] |}
           2 eq_refl).
Defined.

Lemma compute_effective_pattern_length_flat_witness :
  Pattern.compute_effective_pattern_length (ops := ZOps)
    {| Arr.shape0 := 2; Arr.columns := [[1; 2]; [2; 1]; [3; 0]] |}
  = None.
Proof.
  apply (compute_effective_pattern_length_flat (ops := ZOps) _ 3).
  - reflexivity.
  - intros x Hx. vm_compute in Hx.
    repeat (apply elem_of_cons in Hx as [->|Hx]; [reflexivity|]).
    by apply elem_of_nil in Hx.
Defined.

(* --------------------------------------------------------------------- *)
(* remove_short_segments: the number of segments                          *)
(* --------------------------------------------------------------------- *)

Lemma segment_borders_NoDup (labels : list Z) :
  NoDup (Merger.segment_borders labels).
Proof.
  apply NoDup_alt. intros i j x Hi Hj.
  destruct (Nat.lt_trichotomy i j) as [Hlt|[->|Hlt]]; [|done|].
  - pose proof (segment_borders_lookup_lt labels i j x x Hlt Hi Hj). lia.
  - pose proof (segment_borders_lookup_lt labels j i x x Hlt Hj Hi). lia.
Qed.

Lemma remove_short_segments_change_points
    (labels out : list Z) (min_segment_length : Z) (k : nat) :
  Merger.remove_short_segments labels min_segment_length = Some out →
  MergerSpec.change_point out k → MergerSpec.change_point labels k.
Proof.
  unfold Merger.remove_short_segments. intros Hout.
  eapply merge_loop_change_points; [| | |done| |exact Hout].
  - apply segment_borders_range.
  - intros b. by rewrite elem_of_segment_borders.
  - apply list.Forall_forall. intros idx. apply short_segments_idx_range.
  - done.
Qed.

(** X4. remove_short_segments, segment count: the array it leaves has at
    most as many label changes, hence at most as many segments, as the
    array it was given. *)
Theorem remove_short_segments_segment_count
    (labels out : list Z) (min_segment_length : Z) :
  Merger.remove_short_segments labels min_segment_length = Some out →
  (length (Merger.segment_borders out)
   ≤ length (Merger.segment_borders labels))%nat.
Proof.
  intros Hout. apply submseteq_length, NoDup_submseteq.
  - apply segment_borders_NoDup.
  - intros b (k & -> & Hk)%elem_of_segment_borders.
    apply elem_of_segment_borders. exists k. split; [done|].
    by eapply remove_short_segments_change_points.
Qed.

Lemma remove_short_segments_segment_count_witness :
  (length (Merger.segment_borders [0;0;0;0;2;2;2;2]%Z)
   ≤ length (Merger.segment_borders [0;0;0;1;2;2;2;2]%Z))%nat.
Proof.
  apply (remove_short_segments_segment_count
           [0;0;0;1;2;2;2;2] [0;0;0;0;2;2;2;2] 3).
  reflexivity.
Defined.

(* --------------------------------------------------------------------- *)
(* evaluate_segmentation (segmenter.py, lines 379-410)                    *)
(* --------------------------------------------------------------------- *)
(* [labels] is the one-dimensional array that segment_song returns.  The
   two Matlab functions are parameters; [None] stands for a call that
   raises.  The dictionary [perf] has a fixed set of keys and is kept as
   a record of floats. *)

From stdpp Require Import sorting.
Local Open Scope Z_scope.

Module Evaluation.
Section Evaluation.
Context {A : Type} {ops : FloatOps A} {G : Type}.
Variable eval_segmentation_pairwise : list Z → G → option (A * A * A).
Variable eval_segmentation_entropy : list Z → G → option (A * A).

(** [np.unique]: the distinct values in ascending order. *)
Definition unique (l : list Z) : list Z := merge_sort Z.le (remove_dups l).

(** [np.sum] of a boolean array: the number of true entries. *)
Fixpoint sum_bool (bs : list bool) : Z :=
  match bs with
  | [] => 0
  | b :: r => (if b then 1 else 0) + sum_bool r
  end.

(** [len(np.unique(labels))] *)
Definition count_labels (labels : list Z) : Z :=
  Z.of_nat (length (unique labels)).

(** [np.sum(np.diff(labels) != 0) + 1] *)
Definition count_segments (labels : list Z) : Z :=
  sum_bool ((λ d, negb (d =? 0)) <$> Np.diff labels) + 1.

Record perf := Perf {
  pfm : A; ppr : A; prr : A; So : A; Su : A;
  nlabels : A; effrank : A; nsegments : A
}.

Definition evaluate_segmentation (labels : list Z) (gtlabels : G) (Zv : list A)
  : option perf :=
  '(pfm, ppr, prr) ← eval_segmentation_pairwise labels gtlabels;
  '(so, su) ← eval_segmentation_entropy labels gtlabels;
  Some {| pfm := pfm; ppr := ppr; prr := prr; So := so; Su := su;
          nlabels := of_int (count_labels labels);
          effrank := of_int (Z.of_nat (length Zv));
          nsegments := of_int (count_segments labels) |}.

End Evaluation.
Global Arguments perf : clear implicits.
End Evaluation.

Lemma sum_bool_nonzero_from (i : Z) (bs : list bool) :
  Evaluation.sum_bool bs = Z.of_nat (length (Np.nonzero_from i bs)).
Proof.
  revert i. induction bs as [|b bs IH]; intros i; simpl; [done|].
  rewrite (IH (i + 1)). destruct b; simpl; lia.
Qed.

Lemma count_segments_borders (labels : list Z) :
  Evaluation.count_segments labels
  = Z.of_nat (length (Merger.segment_borders labels)) + 1.
Proof.
  unfold Evaluation.count_segments, Merger.segment_borders, Np.nonzero,
    Np.nonzero_bool.
  by rewrite (sum_bool_nonzero_from 0).
Qed.

Lemma count_labels_le_segments (labels : list Z) :
  Evaluation.count_labels labels ≤ Evaluation.count_segments labels.
Proof.
  rewrite count_segments_borders. unfold Evaluation.count_labels, Evaluation.unique.
  rewrite merge_sort_Permutation.
  destruct (decide (labels = [])) as [->|Hne]; [simpl; lia|].
  set (idx := Np.from_1 (Serializer.boundaryidx labels)).
  set (sl := (λ q, default 0 (labels !! Z.to_nat q)) <$> idx).
  assert (Hlen : length sl = S (length (Merger.segment_borders labels))).
  { subst sl idx. by rewrite length_fmap, length_from_1, length_boundaryidx. }
  assert (Hsub : remove_dups labels ⊆+ sl).
  { apply NoDup_submseteq; [apply NoDup_remove_dups|].
    intros v Hv. rewrite elem_of_remove_dups in Hv.
    apply list_elem_of_lookup_1 in Hv as [p Hp].
    destruct (label_reaches_boundary labels (length labels - 1 - p) p v)
      as (q & Hq & Hlq & _); [apply lookup_lt_Some in Hp; lia|done|].
    subst sl. apply list_elem_of_fmap. exists q. split; [|done].
    by rewrite Hlq. }
  apply submseteq_length in Hsub. lia.
Qed.

Section EvaluationFacts.
Context {A : Type} {ops : FloatOps A} {G : Type}.
Variable eval_segmentation_pairwise : list Z → G → option (A * A * A).
Variable eval_segmentation_entropy : list Z → G → option (A * A).

(** X22. evaluate_segmentation, the counts it reports: in a returned [perf],
    [nsegments] is the number of label changes plus one, [nlabels] is
    the number of distinct labels and never exceeds [nsegments],
    [effrank] is [len(Z)], and for a non-empty label array [nlabels] is
    at least 1 and [nsegments] at most the number of frames. *)
Theorem evaluate_segmentation_counts
    (labels : list Z) (gtlabels : G) (Zv : list A) (p : Evaluation.perf A) :
  Evaluation.evaluate_segmentation eval_segmentation_pairwise
    eval_segmentation_entropy labels gtlabels Zv = Some p →
  ∃ nl ns,
    Evaluation.nlabels p = of_int nl ∧ Evaluation.nsegments p = of_int ns ∧
    Evaluation.effrank p = of_int (Z.of_nat (length Zv)) ∧
    ns = Z.of_nat (length (Merger.segment_borders labels)) + 1 ∧
    nl = Z.of_nat (length (remove_dups labels)) ∧
    nl ≤ ns ∧
    (labels ≠ [] → 1 ≤ nl ∧ ns ≤ Z.of_nat (length labels)).
Proof.
  unfold Evaluation.evaluate_segmentation. intros Hp.
  destruct (eval_segmentation_pairwise labels gtlabels) as [[[a b] c]|]; [|done].
  cbn [mbind option_bind] in Hp.
  destruct (eval_segmentation_entropy labels gtlabels) as [[so su]|]; [|done].
  cbn [mbind option_bind] in Hp. injection Hp as <-.
  exists (Evaluation.count_labels labels), (Evaluation.count_segments labels).
  cbn [Evaluation.nlabels Evaluation.nsegments Evaluation.effrank].
  split_and!; try done.
  - apply count_segments_borders.
  - unfold Evaluation.count_labels, Evaluation.unique.
    by rewrite merge_sort_Permutation.
  - apply count_labels_le_segments.
  - intros Hne. split.
    + unfold Evaluation.count_labels, Evaluation.unique.
      rewrite merge_sort_Permutation.
      destruct labels as [|l0 r]; [done|].
      assert (Hin : l0 ∈ remove_dups (l0 :: r)) by (apply elem_of_remove_dups; left).
      destruct (remove_dups (l0 :: r)); [by apply elem_of_nil in Hin|simpl; lia].
    + rewrite count_segments_borders.
      unfold Merger.segment_borders, Np.nonzero, Np.nonzero_bool.
      assert (Hb : ∀ (bs : list bool) i,
                 (length (Np.nonzero_from i bs) ≤ length bs)%nat).
      { clear. induction bs as [|b bs IH]; intros i; simpl; [lia|].
        specialize (IH (i + 1)). destruct b; simpl; lia. }
      pose proof (Hb (map (λ x, negb (x =? 0)) (Np.diff labels)) 0) as Hle.
      rewrite length_map, length_diff in Hle.
      destruct labels; [done|]. simpl in *. lia.
Qed.

End EvaluationFacts.

Module StubEval.
(** Stand-ins for the two Matlab functions. *)
Definition eval_segmentation_pairwise (labels : list Z) (gt : list Z)
  : option (Z * Z * Z) := Some (1, 1, 1).
Definition eval_segmentation_entropy (labels : list Z) (gt : list Z)
  : option (Z * Z) := Some (0, 0).
End StubEval.

Lemma evaluate_segmentation_counts_witness :
  ∃ nl ns,
    2 = nl ∧ 3 = ns ∧ 2 = Z.of_nat (length [1; 1]) ∧
    ns = Z.of_nat (length (Merger.segment_borders [0;0;1;1;1;0])) + 1 ∧
    nl = Z.of_nat (length (remove_dups [0;0;1;1;1;0])) ∧
    nl ≤ ns ∧
    ([0;0;1;1;1;0] ≠ [] → 1 ≤ nl ∧ ns ≤ Z.of_nat (length [0;0;1;1;1;0])).
Proof.
  exact (evaluate_segmentation_counts (ops := ZOps)
           StubEval.eval_segmentation_pairwise StubEval.eval_segmentation_entropy
           [0;0;1;1;1;0] [0;0;0;1;1;1] [1; 1]
           {| Evaluation.pfm := 1; Evaluation.ppr := 1; Evaluation.prr := 1;
              Evaluation.So := 0; Evaluation.Su := 0;
              Evaluation.nlabels := 2; Evaluation.effrank := 2;
              Evaluation.nsegments := 3 |}
           eq_refl).
Defined.

Section SegmentLines.
Context {time : Type}.
Variable truthy : time → bool.

(** X13. convert_labels_to_segments and evaluate_segmentation agree on the
    number of segments: a text that is produced has one leading silence
    line, then as many segment lines as [evaluate_segmentation] counts
    segments ([nsegments]), then one more line exactly when a song
    length that Python takes as true was given. *)
Theorem segment_lines_match_nsegments
    (labels : list Z) (ft : list time) (songlen : option time)
    (rows : list (Serializer.row time)) :
  Serializer.segment_rows truthy labels ft songlen = Some rows →
  Z.of_nat (length rows)
  = 1 + Evaluation.count_segments labels
    + match SerializerSpec.trailing truthy songlen with
      | Some _ => 1
      | None => 0
      end.
Proof.
  intros Hrows.
  assert (Hne : labels ≠ []).
  { intros ->. rewrite segment_rows_of_spans_None in Hrows; [done|].
    unfold Serializer.segment_spans.
    by destruct (Np.take_indices ft (Serializer.boundaryidx [])). }
  destruct (Serializer.segment_spans labels ft) as [[[starts ends] sl]|] eqn:Hsp.
  2:{ by rewrite segment_rows_of_spans_None in Hrows. }
  destruct (segment_spans_inv labels ft starts ends sl Hne Hsp)
    as (bt & -> & -> & Hbl & Hsl & _).
  destruct (lookup_lt_is_Some_2 bt 0) as [first Hb0]; [lia|].
  assert (Hs0 : Np.but_last bt !! 0%nat = Some first)
    by (apply lookup_but_last; split; [done|lia]).
  destruct (list.last (Np.from_1 bt)) as [last_|] eqn:Hel.
  2:{ apply last_None in Hel. apply (f_equal length) in Hel.
      rewrite length_from_1 in Hel. simpl in Hel. lia. }
  rewrite (segment_rows_unfold truthy labels ft songlen _ _ _ _ _ Hsp Hs0 Hel) in Hrows.
  destruct (mapM segment_row _) as [body|] eqn:Hbody; [|done].
  cbn [mbind option_bind] in Hrows.
  destruct (Np.max_int sl) as [top|]; [|done].
  cbn [mbind option_bind] in Hrows.
  destruct (Np.getitem Serializer.alphabet (top + 1)) as [sil|]; [|done].
  cbn [mbind option_bind] in Hrows. injection Hrows as <-.
  apply length_mapM in Hbody.
  rewrite !length_zip, length_but_last, length_from_1 in Hbody.
  rewrite count_segments_borders. cbn [length]. rewrite length_app.
  unfold silence_rows.
  destruct (SerializerSpec.trailing truthy songlen); simpl; lia.
Qed.

End SegmentLines.

Lemma segment_lines_match_nsegments_witness :
  Z.of_nat (length
    [Serializer.Row Serializer.Literal0 1 "C"%char;
     Serializer.Row (Serializer.At 1) 2 "A"%char;
     Serializer.Row (Serializer.At 2) 5 "B"%char;
     Serializer.Row (Serializer.At 5) 6 "A"%char;
     Serializer.Row (Serializer.At 6) 9 "C"%char])
  = 1 + Evaluation.count_segments [0;0;1;1;1;0]
    + match SerializerSpec.trailing SecondsDemo.truthy (Some 9) with
      | Some _ => 1
      | None => 0
      end.
Proof.
  apply (segment_lines_match_nsegments SecondsDemo.truthy
           [0;0;1;1;1;0] [1;2;3;4;5;6] (Some 9)).
  reflexivity.
Defined.
